(** * PtitTacToe: the tic-tac-toe engine

    A shallow embedding of [src/app/Back/tic-tac-toe/tic-tac-toe-engine.ts]
    and [tic-tac-toe.models.ts], and of the component [App] that plays the
    game with a peer over a data connection.

    The file has two layers.  The first one gives every array and object its
    value: it is the engine as a state machine over snapshots.  The second one
    (module [Refs]) keeps the arrays and objects of the source in a store and
    the fields as references to them, so that sharing between the snapshot the
    engine owns and a snapshot a caller holds can be stated.  The last section
    shows that, read by value, the second layer does what the first one does.
    The component (module [App]) is a state machine over its fields; what it
    asks of the peer library is recorded as a trace of effects.

    Numbers are modelled by their mathematical value: the board size, the
    counts and the indices the engine computes are integers, and the
    arithmetic on them is exact, as it is on doubles below 2^53.  An engine
    that the constructor has built only counts the marks on its board; but
    [loadSnapshot] adopts the [moveCount] of the snapshot it is given, so a
    property of an arbitrary engine state that speaks of [moveCount + 1]
    assumes that the count is a safe integer ([safe_integer]).  Likewise a
    board is the list of its elements: a write past its end, which lengthens
    a JavaScript array, is no operation of the model, and a property of a
    write at an index a caller chooses assumes that the index names a cell. *)

From stdpp Require Import base numbers list list_numbers option sorting
  strings.

Local Open Scope Z_scope.

(** ** tic-tac-toe.models.ts *)

Inductive TicTacToePlayer := X | O.

#[global] Instance TicTacToePlayer_eq_dec : EqDecision TicTacToePlayer.
Proof. solve_decision. Defined.

(** [TicTacToePlayer | null]: [None] is [null]. *)
Abbreviation TicTacToeCell := (option TicTacToePlayer).

(** [TicTacToeCell[]] *)
Abbreviation TicTacToeBoard := (list TicTacToeCell).

Inductive TicTacToeStatus := Idle | InProgress | Won | Draw.

#[global] Instance TicTacToeStatus_eq_dec : EqDecision TicTacToeStatus.
Proof. solve_decision. Defined.

(** ** JavaScript numbers as they reach [playMove] and [canPlay]

    The argument [index: number] is any double.  What the engine does with it
    depends only on whether it is an integer, and on how it compares with
    integers, so a value is one of: an integer ([-0] is [Int 0]); a finite
    value strictly between two consecutive integers [below] and [below + 1];
    [NaN]; or an infinity. *)
Inductive number :=
  | Int (z : Z)
  | Fraction (below : Z)
  | NaN
  | PosInfinity
  | NegInfinity.

#[global] Instance number_eq_dec : EqDecision number.
Proof. solve_decision. Defined.

(** [Number.isInteger(x)] *)
Definition isInteger (x : number) : bool :=
  match x with Int _ => true | _ => false end.

(** [x >= k] for an integer [k] *)
Definition number_ge (x : number) (k : Z) : bool :=
  match x with
  | Int z => bool_decide (k ≤ z)
  | Fraction below => bool_decide (k ≤ below)
  | NaN => false
  | PosInfinity => true
  | NegInfinity => false
  end.

(** [x < k] for an integer [k] *)
Definition number_lt (x : number) (k : Z) : bool :=
  match x with
  | Int z => bool_decide (z < k)
  | Fraction below => bool_decide (below < k)
  | NaN => false
  | PosInfinity => false
  | NegInfinity => true
  end.

(** ** Moves and snapshots (tic-tac-toe.models.ts, continued) *)

(** [{ index: number; player: TicTacToePlayer }] *)
Record TicTacToeMove := Move { index : number; player : TicTacToePlayer }.

#[global] Instance TicTacToeMove_eq_dec : EqDecision TicTacToeMove.
Proof. solve_decision. Defined.

(** The optional fields [winner?] and [winningLine?] are [None] when the
    property is absent or [undefined]; [moveCount] and the indices of a
    winning line are integer valued numbers. *)
Record TicTacToeSnapshot := Snapshot {
  board : TicTacToeBoard;
  status : TicTacToeStatus;
  currentPlayer : TicTacToePlayer;
  winner : option TicTacToePlayer;
  winningLine : option (list Z);
  moveCount : Z;
  history : list TicTacToeMove
}.

#[global] Instance TicTacToeSnapshot_eq_dec : EqDecision TicTacToeSnapshot.
Proof. solve_decision. Defined.

(** ** Array reads

    [arr[i]] for an integer [i]: the element, or [undefined] ([None]) when [i]
    is not an index of the array. *)
Definition element {A : Type} (arr : list A) (i : Z) : option A :=
  if bool_decide (0 ≤ i) then arr !! Z.to_nat i else None.

(** [arr[x]] for any number [x]: only an integer can name an element. *)
Definition element_at {A : Type} (arr : list A) (x : number) : option A :=
  match x with
  | Int z => element arr z
  | _ => None
  end.

(** [arr[i]] where [i] itself may be [undefined] (the result of a
    destructuring that ran past the end of a line). *)
Definition element_opt {A : Type} (arr : list A) (i : option Z) : option A :=
  i ≫= element arr.

(** [Array.from({ length: n }, (_, idx) => f idx)] *)
Definition Array_from {A : Type} (n : Z) (f : Z → A) : list A :=
  f <$> seqZ 0 n.

(** ** The errors the engine throws

    The source throws [Error] objects that differ by their message:
    - [InvalidBoardSize]: 'Board size must be at least 3.'
    - [SizeMismatch]: 'Snapshot size does not match the configured board.'
    - [GameNotInProgress]: 'Game is not currently accepting moves.'
    - [IndexOutOfRange]: 'Move index must be an integer between 0 and ...'
    - [CellOccupied]: 'Cell ... is already occupied.'
    - [NoMovesAvailable]: 'No moves available.' *)
Inductive EngineError :=
  | InvalidBoardSize
  | SizeMismatch
  | GameNotInProgress
  | IndexOutOfRange
  | CellOccupied
  | NoMovesAvailable.

#[global] Instance EngineError_eq_dec : EqDecision EngineError.
Proof. solve_decision. Defined.

(** What a call does: it returns a value or throws. *)
Inductive outcome (A : Type) :=
  | Return (a : A)
  | Throw (e : EngineError).
Arguments Return {A} a.
Arguments Throw {A} e.

(** A method of an object whose state has type [S]: the state after the call
    and its outcome.  A throw keeps the state reached so far. *)
Definition method (S A : Type) : Type := S → S * outcome A.

Definition ret {S A : Type} (a : A) : method S A := λ s, (s, Return a).

Definition throw {S A : Type} (e : EngineError) : method S A := λ s, (s, Throw e).

Definition bind {S A B : Type} (m : method S A) (k : A → method S B) : method S B :=
  λ s, match m s with
       | (s', Return a) => k a s'
       | (s', Throw e) => (s', Throw e)
       end.

Definition get {S : Type} : method S S := λ s, (s, Return s).

Definition put {S : Type} (s : S) : method S unit := λ _, (s, Return tt).

Declare Scope method_scope.
Delimit Scope method_scope with method.
Notation "'let!' x := m 'in' k" := (bind m (λ x, k))
  (at level 10, x name, m at level 100, k at level 200,
   format "'let!'  x  :=  m  'in' '//' k") : method_scope.
Notation "m ;; k" := (bind m (λ _, k))
  (at level 100, k at level 200, right associativity) : method_scope.

(** ** tic-tac-toe-engine.ts, by value *)

(** The fields of [TicTacToeEngine]. *)
Record Engine := MkEngine {
  boardSize : Z;
  totalCells : Z;
  snapshot : TicTacToeSnapshot
}.

#[global] Instance Engine_eq_dec : EqDecision Engine.
Proof. solve_decision. Defined.

(** [this.snapshot = s] *)
Definition set_snapshot (s : TicTacToeSnapshot) : method Engine unit :=
  (let! this := get in
   put (MkEngine (boardSize this) (totalCells this) s))%method.

(** [createEmptySnapshot] *)
Definition createEmptySnapshot (total : Z) (firstPlayer : TicTacToePlayer)
  : TicTacToeSnapshot :=
  {| board := Array_from total (λ _, None);
     status := InProgress;
     currentPlayer := firstPlayer;
     winner := None;
     winningLine := None;
     moveCount := 0;
     history := [] |}.

(** [cloneSnapshot]: a new object with the fields of [this.snapshot], and new
    arrays with the elements of its board and history.  By value that is the
    snapshot itself; module [Refs] keeps the difference. *)
Definition cloneSnapshot : method Engine TicTacToeSnapshot :=
  λ e, (e, Return (snapshot e)).

(** [togglePlayer] *)
Definition togglePlayer (p : TicTacToePlayer) : TicTacToePlayer :=
  match p with X => O | O => X end.

(** [computeWinningLines] *)
Definition computeWinningLines (n : Z) : list (list Z) :=
  ((λ row, let start := row * n in Array_from n (λ idx, start + idx)) <$> seqZ 0 n)
  ++ ((λ col, Array_from n (λ idx, idx * n + col)) <$> seqZ 0 n)
  ++ [Array_from n (λ idx, idx * (n + 1));
      Array_from n (λ idx, (idx + 1) * (n - 1))].

(** The result object of [evaluateBoard]. *)
Record Evaluation := MkEvaluation {
  ev_status : TicTacToeStatus;
  ev_winner : option TicTacToePlayer;
  ev_winningLine : option (list Z)
}.

(** The test of the loop body of [evaluateBoard] on one line:
    [const [a, b, c] = line;
     board[a] && board[a] === board[b] && board[a] === board[c]].
    It gives the mark [board[a]] when the test holds. *)
Definition lineWinner (brd : TicTacToeBoard) (line : list Z)
  : option TicTacToePlayer :=
  let a := line !! 0%nat in
  let b := line !! 1%nat in
  let c := line !! 2%nat in
  match element_opt brd a with
  | Some (Some mark) =>
      if bool_decide (element_opt brd a = element_opt brd b)
         && bool_decide (element_opt brd a = element_opt brd c)
      then Some mark else None
  | _ => None
  end.

(** The [for (const line of winningLines)] loop: the first line that passes
    the test, with its mark. *)
Fixpoint scanLines (brd : TicTacToeBoard) (lines : list (list Z))
  : option (TicTacToePlayer * list Z) :=
  match lines with
  | [] => None
  | line :: rest =>
      match lineWinner brd line with
      | Some mark => Some (mark, line)
      | None => scanLines brd rest
      end
  end.

(** [evaluateBoard] *)
Definition evaluateBoard (n : Z) (brd : TicTacToeBoard) : Evaluation :=
  let winningLines := computeWinningLines n in
  match scanLines brd winningLines with
  | Some (mark, line) => MkEvaluation Won (Some mark) (Some line)
  | None =>
      if forallb (λ cell, bool_decide (cell ≠ None)) brd
      then MkEvaluation Draw None None
      else MkEvaluation InProgress None None
  end.

(** The constructor: [new TicTacToeEngine(boardSize, firstPlayer)]. *)
Definition new_TicTacToeEngine (size : Z) (firstPlayer : TicTacToePlayer)
  : outcome Engine :=
  if bool_decide (size < 3) then Throw InvalidBoardSize
  else
    let total := size * size in
    Return (MkEngine size total (createEmptySnapshot total firstPlayer)).

(** [reset] *)
Definition reset (firstPlayer : TicTacToePlayer) : method Engine TicTacToeSnapshot :=
  (let! this := get in
   set_snapshot (createEmptySnapshot (totalCells this) firstPlayer) ;;
   cloneSnapshot)%method.

(** [loadSnapshot] *)
Definition loadSnapshot (external : TicTacToeSnapshot)
  : method Engine TicTacToeSnapshot :=
  (let! this := get in
   if bool_decide (Z.of_nat (length (board external)) ≠ totalCells this)
   then throw SizeMismatch
   else
     set_snapshot {| board := board external;
                     status := status external;
                     currentPlayer := currentPlayer external;
                     winner := winner external;
                     winningLine := winningLine external;
                     moveCount := moveCount external;
                     history := history external |} ;;
     cloneSnapshot)%method.

(** [assertMoveIsAllowed] *)
Definition assertMoveIsAllowed (idx : number) : method Engine unit :=
  (let! this := get in
   if bool_decide (status (snapshot this) ≠ InProgress)
   then throw GameNotInProgress
   else if negb (isInteger idx) || negb (number_ge idx 0)
           || negb (number_lt idx (totalCells this))
   then throw IndexOutOfRange
   else if bool_decide (element_at (board (snapshot this)) idx ≠ Some None)
   then throw CellOccupied
   else ret tt)%method.

(** [board[index] = mark] on the copy of the board.  [playMove] reaches it
    only after [assertMoveIsAllowed] has found [board[index] === null], so
    [index] is an integer that names an element; the other cases (where
    JavaScript would lengthen the array or define a property on it) are kept
    only to make the function total, and leave the elements as they are. *)
Definition assign {A : Type} (arr : list A) (x : number) (v : A) : list A :=
  match x with
  | Int z => if bool_decide (0 ≤ z) then <[Z.to_nat z := v]> arr else arr
  | _ => arr
  end.

(** [playMove].  [moveCount + 1] is the sum of integers, which is the sum of
    the source on a count that is a safe integer. *)
Definition playMove (idx : number) : method Engine TicTacToeSnapshot :=
  (assertMoveIsAllowed idx ;;
   let! this := get in
   let brd := assign (board (snapshot this)) idx
                (Some (currentPlayer (snapshot this))) in
   let hist := history (snapshot this)
                 ++ [Move idx (currentPlayer (snapshot this))] in
   let count := moveCount (snapshot this) + 1 in
   let statusResult := evaluateBoard (boardSize this) brd in
   let nextPlayer :=
     if bool_decide (ev_status statusResult = InProgress)
     then togglePlayer (currentPlayer (snapshot this))
     else currentPlayer (snapshot this) in
   set_snapshot {| board := brd;
                   status := ev_status statusResult;
                   currentPlayer := nextPlayer;
                   winner := ev_winner statusResult;
                   winningLine := ev_winningLine statusResult;
                   moveCount := count;
                   history := hist |} ;;
   cloneSnapshot)%method.

(** [getSnapshot] *)
Definition getSnapshot : method Engine TicTacToeSnapshot := cloneSnapshot.

(** [getAvailableMoves] *)
Definition getAvailableMoves : method Engine (list Z) :=
  (let! this := get in
   ret (filter (λ idx, idx ≠ -1)
          (imap (λ idx cell, if bool_decide (cell = None) then Z.of_nat idx else -1)
                (board (snapshot this)))))%method.

(** [canPlay] *)
Definition canPlay (idx : number) : method Engine bool :=
  (let! this := get in
   ret (number_ge idx 0
        && number_lt idx (totalCells this)
        && bool_decide (element_at (board (snapshot this)) idx = Some None)
        && bool_decide (status (snapshot this) = InProgress)))%method.

(** [autoPlay] *)
Definition autoPlay : method Engine TicTacToeSnapshot :=
  (let! moves := getAvailableMoves in
   match head moves with
   | None => throw NoMovesAvailable
   | Some nextMove => playMove (Int nextMove)
   end)%method.

(** A run of [playMove] calls, each one caught by the caller: the engine after
    the run and the outcome of every call. *)
Fixpoint playMoves (idxs : list number) (e : Engine)
  : Engine * list (outcome TicTacToeSnapshot) :=
  match idxs with
  | [] => (e, [])
  | idx :: rest =>
      let '(e1, r) := playMove idx e in
      let '(e2, rs) := playMoves rest e1 in
      (e2, r :: rs)
  end.


(** ** tic-tac-toe-engine.ts, with references

    Arrays and objects live in a store and are named by references; a field
    that holds an array or an object holds its reference.  Allocation appends
    to the store, so a reference is never reused.  A reference that the
    constructor or a method hands out always names an object of the store;
    reading through any other one gives the default value of [!!!]. *)
Module Refs.

Definition ref := nat.

(** A [TicTacToeSnapshot] object. *)
Record SnapshotObject := MkSnapshotObject {
  board : ref;
  status : TicTacToeStatus;
  currentPlayer : TicTacToePlayer;
  winner : option TicTacToePlayer;
  winningLine : option ref;
  moveCount : Z;
  history : ref
}.

#[global] Instance SnapshotObject_inhabited : Inhabited SnapshotObject :=
  populate (MkSnapshotObject 0%nat Idle X None None 0 0%nat).

#[global] Instance TicTacToeMove_inhabited : Inhabited TicTacToeMove :=
  populate (Move NaN X).

(** The store: the board arrays, the [number[]] arrays of winning lines, the
    history arrays (their elements are references to move objects), the move
    objects and the snapshot objects. *)
Record Store := MkStore {
  boards : list TicTacToeBoard;
  lines : list (list Z);
  histories : list (list ref);
  moves : list TicTacToeMove;
  snapshots : list SnapshotObject
}.

Definition empty_store : Store := MkStore [] [] [] [] [].

(** The fields of [TicTacToeEngine]; [snapshot] is a reference to a snapshot
    object. *)
Record Engine := MkEngine {
  boardSize : Z;
  totalCells : Z;
  snapshot : ref
}.

Record State := MkState { store : Store; this : Engine }.

Definition get_this : method State Engine := λ st, (st, Return (this st)).

(** [this.snapshot = r] *)
Definition set_snapshot (r : ref) : method State unit :=
  λ st, (MkState (store st)
           (MkEngine (boardSize (this st)) (totalCells (this st)) r),
         Return tt).

(** Allocation: a new array or object at the end of its part of the store. *)
Definition new_board (cells : TicTacToeBoard) : method State ref :=
  λ st, let s := store st in
        (MkState (MkStore (boards s ++ [cells]) (lines s) (histories s)
                    (moves s) (snapshots s)) (this st),
         Return (length (boards s))).

Definition new_line (nums : list Z) : method State ref :=
  λ st, let s := store st in
        (MkState (MkStore (boards s) (lines s ++ [nums]) (histories s)
                    (moves s) (snapshots s)) (this st),
         Return (length (lines s))).

Definition new_history (elems : list ref) : method State ref :=
  λ st, let s := store st in
        (MkState (MkStore (boards s) (lines s) (histories s ++ [elems])
                    (moves s) (snapshots s)) (this st),
         Return (length (histories s))).

Definition new_move (m : TicTacToeMove) : method State ref :=
  λ st, let s := store st in
        (MkState (MkStore (boards s) (lines s) (histories s)
                    (moves s ++ [m]) (snapshots s)) (this st),
         Return (length (moves s))).

Definition new_snapshot (o : SnapshotObject) : method State ref :=
  λ st, let s := store st in
        (MkState (MkStore (boards s) (lines s) (histories s)
                    (moves s) (snapshots s ++ [o])) (this st),
         Return (length (snapshots s))).

(** Reads through a reference. *)
Definition read_board (r : ref) : method State TicTacToeBoard :=
  λ st, (st, Return (boards (store st) !!! r)).

Definition read_history (r : ref) : method State (list ref) :=
  λ st, (st, Return (histories (store st) !!! r)).

Definition read_snapshot (r : ref) : method State SnapshotObject :=
  λ st, (st, Return (snapshots (store st) !!! r)).

(** Writes through a reference: [board[x] = v], [line[x] = v] and
    [move.index = x]. *)
Definition write_board (r : ref) (x : number) (v : TicTacToeCell)
  : method State unit :=
  λ st, let s := store st in
        (MkState (MkStore (alter (λ cells, assign cells x v) r (boards s))
                    (lines s) (histories s) (moves s) (snapshots s)) (this st),
         Return tt).

Definition write_line (r : ref) (x : number) (v : Z) : method State unit :=
  λ st, let s := store st in
        (MkState (MkStore (boards s)
                    (alter (λ nums, assign nums x v) r (lines s))
                    (histories s) (moves s) (snapshots s)) (this st),
         Return tt).

Definition write_move_index (r : ref) (x : number) : method State unit :=
  λ st, let s := store st in
        (MkState (MkStore (boards s) (lines s) (histories s)
                    (alter (λ m, Move x (player m)) r (moves s))
                    (snapshots s)) (this st),
         Return tt).

(** [createEmptySnapshot] *)
Definition createEmptySnapshot (firstPlayer : TicTacToePlayer) : method State ref :=
  (let! this := get_this in
   let! brd := new_board (Array_from (totalCells this) (λ _, None)) in
   let! hist := new_history [] in
   new_snapshot {| board := brd;
                   status := InProgress;
                   currentPlayer := firstPlayer;
                   winner := None;
                   winningLine := None;
                   moveCount := 0;
                   history := hist |})%method.

(** [cloneSnapshot]:
    [{ ...this.snapshot, board: [...this.snapshot.board],
       history: [...this.snapshot.history] }].
    The spread copies every field as it is, a reference as a reference; the
    fields [board] and [history] are then set to new arrays that hold the
    elements of the old ones. *)
Definition cloneSnapshot : method State ref :=
  (let! this := get_this in
   let! o := read_snapshot (snapshot this) in
   let! cells := read_board (board o) in
   let! brd := new_board cells in
   let! elems := read_history (history o) in
   let! hist := new_history elems in
   new_snapshot {| board := brd;
                   status := status o;
                   currentPlayer := currentPlayer o;
                   winner := winner o;
                   winningLine := winningLine o;
                   moveCount := moveCount o;
                   history := hist |})%method.

(** The result object of [evaluateBoard]; [winningLine] is a reference to the
    line. *)
Record Evaluation := MkEvaluation {
  ev_status : TicTacToeStatus;
  ev_winner : option TicTacToePlayer;
  ev_winningLine : option ref
}.

(** [evaluateBoard].  [computeWinningLines] builds new arrays on every call;
    the line that is returned is the only one that is still referenced when
    [evaluateBoard] returns, so it is the only one that is allocated here. *)
Definition evaluateBoard (brd : ref) : method State Evaluation :=
  (let! this := get_this in
   let! cells := read_board brd in
   let winningLines := computeWinningLines (boardSize this) in
   match scanLines cells winningLines with
   | Some (mark, line) =>
       let! l := new_line line in
       ret (MkEvaluation Won (Some mark) (Some l))
   | None =>
       if forallb (λ cell, bool_decide (cell ≠ None)) cells
       then ret (MkEvaluation Draw None None)
       else ret (MkEvaluation InProgress None None)
   end)%method.

(** The constructor.  The field [snapshot] is unassigned until its last
    statement; it holds reference [0] until then, and nothing reads it. *)
Definition new_TicTacToeEngine (size : Z) (firstPlayer : TicTacToePlayer)
  (s : Store) : outcome State :=
  if bool_decide (size < 3) then Throw InvalidBoardSize
  else
    let total := size * size in
    match (let! r := createEmptySnapshot firstPlayer in set_snapshot r)%method
            (MkState s (MkEngine size total 0%nat)) with
    | (st, _) => Return st
    end.

(** [reset] *)
Definition reset (firstPlayer : TicTacToePlayer) : method State ref :=
  (let! r := createEmptySnapshot firstPlayer in
   set_snapshot r ;;
   cloneSnapshot)%method.

(** [loadSnapshot] *)
Definition loadSnapshot (external : ref) : method State ref :=
  (let! this := get_this in
   let! o := read_snapshot external in
   let! cells := read_board (board o) in
   if bool_decide (Z.of_nat (length cells) ≠ totalCells this)
   then throw SizeMismatch
   else
     let! brd := new_board cells in
     let! elems := read_history (history o) in
     let! hist := new_history elems in
     let! r := new_snapshot {| board := brd;
                               status := status o;
                               currentPlayer := currentPlayer o;
                               winner := winner o;
                               winningLine := winningLine o;
                               moveCount := moveCount o;
                               history := hist |} in
     set_snapshot r ;;
     cloneSnapshot)%method.

(** [assertMoveIsAllowed] *)
Definition assertMoveIsAllowed (idx : number) : method State unit :=
  (let! this := get_this in
   let! o := read_snapshot (snapshot this) in
   if bool_decide (status o ≠ InProgress)
   then throw GameNotInProgress
   else if negb (isInteger idx) || negb (number_ge idx 0)
           || negb (number_lt idx (totalCells this))
   then throw IndexOutOfRange
   else
     let! cells := read_board (board o) in
     if bool_decide (element_at cells idx ≠ Some None)
     then throw CellOccupied
     else ret tt)%method.

(** [playMove] *)
Definition playMove (idx : number) : method State ref :=
  (assertMoveIsAllowed idx ;;
   let! this := get_this in
   let! o := read_snapshot (snapshot this) in
   let! cells := read_board (board o) in
   let! brd := new_board cells in
   write_board brd idx (Some (currentPlayer o)) ;;
   let! elems := read_history (history o) in
   let! m := new_move (Move idx (currentPlayer o)) in
   let! hist := new_history (elems ++ [m]) in
   let count := moveCount o + 1 in
   let! statusResult := evaluateBoard brd in
   let nextPlayer :=
     if bool_decide (ev_status statusResult = InProgress)
     then togglePlayer (currentPlayer o)
     else currentPlayer o in
   let! r := new_snapshot {| board := brd;
                             status := ev_status statusResult;
                             currentPlayer := nextPlayer;
                             winner := ev_winner statusResult;
                             winningLine := ev_winningLine statusResult;
                             moveCount := count;
                             history := hist |} in
   set_snapshot r ;;
   cloneSnapshot)%method.

(** [getSnapshot] *)
Definition getSnapshot : method State ref := cloneSnapshot.

(** [autoPlay], with [getAvailableMoves] inlined. *)
Definition autoPlay : method State ref :=
  (let! this := get_this in
   let! o := read_snapshot (snapshot this) in
   let! cells := read_board (board o) in
   let moves :=
     filter (λ idx, idx ≠ -1)
       (imap (λ idx cell, if bool_decide (cell = None) then Z.of_nat idx else -1)
             cells) in
   match head moves with
   | None => throw NoMovesAvailable
   | Some nextMove => playMove (Int nextMove)
   end)%method.

(** The value of the snapshot object that [r] names: every reference replaced
    by the value of what it names. *)
Definition view (s : Store) (r : ref) : TicTacToeSnapshot :=
  let o := snapshots s !!! r in
  Snapshot (boards s !!! board o)
           (status o)
           (currentPlayer o)
           (winner o)
           ((λ l, lines s !!! l) <$> winningLine o)
           (moveCount o)
           ((λ m, moves s !!! m) <$> (histories s !!! history o)).

(** The value of the snapshot the engine owns. *)
Definition owned (st : State) : TicTacToeSnapshot :=
  view (store st) (snapshot (this st)).

(** A run of [playMove] calls, every throw caught by the caller. *)
Fixpoint playMoves (idxs : list number) (st : State) : State :=
  match idxs with
  | [] => st
  | idx :: rest => playMoves rest (playMove idx st).1
  end.

(** What a caller can do with a snapshot [r] it was given: [r.winningLine[x] = v]. *)
Definition caller_writes_winningLine (r : ref) (x : number) (v : Z)
  : method State unit :=
  (let! o := read_snapshot r in
   match winningLine o with
   | Some l => write_line l x v
   | None => ret tt
   end)%method.

(** [r.history[i].index = x] *)
Definition caller_writes_move_index (r : ref) (i : nat) (x : number)
  : method State unit :=
  (let! o := read_snapshot r in
   let! elems := read_history (history o) in
   match elems !! i with
   | Some m => write_move_index m x
   | None => ret tt
   end)%method.

(** [r.board[x] = v], for an [x] that names a cell of the board (see
    [assign] for the other cases). *)
Definition caller_writes_board (r : ref) (x : number) (v : TicTacToeCell)
  : method State unit :=
  (let! o := read_snapshot r in
   write_board (board o) x v)%method.

End Refs.

(** ** The application component (app.ts): session, protocol and chat

    The component holds the engine, the signals of the template and the two
    objects of the transport (PeerJS).  Signals are fields; a handler is a
    method on the record of the fields.  What the component asks of the
    transport (create or destroy a peer, connect, send, close) is recorded in
    order in [effects]; what the transport does in return reaches the
    component as a later call of one of the listeners, which are modelled one
    by one with the variables they close over as parameters.  The values of
    [Date.now()], of [generateId()] and of [err.message] are parameters of
    the handler that reads them. *)
Module App.

Local Open Scope string_scope.

Inductive ConnectionState := idle | hosting | joining | connected.

#[global] Instance ConnectionState_eq_dec : EqDecision ConnectionState.
Proof. solve_decision. Defined.

(** [sender: 'self' | 'peer'] *)
Inductive Sender := sender_self | sender_peer.

(** [ChatMessage] *)
Record ChatMessage := MkChatMessage {
  msg_id : string;
  msg_sender : Sender;
  msg_username : string;
  msg_text : string;
  msg_timestamp : Z
}.

(** [PeerPayload], by its [type] tag. *)
Inductive PeerPayload :=
  | JoinPayload (name : string)
  | HostReadyPayload (name : string) (youAre : TicTacToePlayer)
                     (snap : TicTacToeSnapshot)
  | MovePayload (idx : number)
  | ResetPayload
  | ChatPayload (message : string) (name : string) (time : Z).

(** [origin: 'local' | 'remote'] *)
Inductive Origin := local | remote.

(** What the component reads of a [DataConnection]: its [open] property. *)
Record DataConnection := MkDataConnection { open : bool }.

(** A [Peer] object; the component only tests that it is there. *)
Inductive Peer := ThePeer.

(** The calls to the outside, in the order they are made. *)
Inductive Effect :=
  | Sent (payload : PeerPayload)     (* this.connection.send(payload) *)
  | ConnectionClosed                 (* this.connection.close() *)
  | IncomingClosed                   (* connection.close() on a second caller *)
  | PeerDestroyed                    (* this.peer.destroy() *)
  | PeerCreated                      (* new Peer(...) *)
  | Connecting (targetId : string)   (* this.peer.connect(targetId, ...) *)
  | Warned (error : EngineError).    (* console.warn(error) *)

(** The fields of [App]. *)
Record App := MkApp {
  engine : Engine;
  peer : option Peer;
  connection : option DataConnection;
  gameState : TicTacToeSnapshot;
  connectionState : ConnectionState;
  username : string;
  opponentName : string;
  hostPeerId : string;
  joinTargetId : string;
  chatMessages : list ChatMessage;
  chatInput : string;
  localPlayer : option TicTacToePlayer;
  infoMessage : option string;
  errorMessage : option string;
  effects : list Effect
}.

Definition set_engine (v : Engine) (a : App) : App :=
  MkApp v (peer a) (connection a) (gameState a) (connectionState a) (username a) (opponentName a) (hostPeerId a) (joinTargetId a) (chatMessages a) (chatInput a) (localPlayer a) (infoMessage a) (errorMessage a) (effects a).

Definition set_peer (v : option Peer) (a : App) : App :=
  MkApp (engine a) v (connection a) (gameState a) (connectionState a) (username a) (opponentName a) (hostPeerId a) (joinTargetId a) (chatMessages a) (chatInput a) (localPlayer a) (infoMessage a) (errorMessage a) (effects a).

Definition set_connection (v : option DataConnection) (a : App) : App :=
  MkApp (engine a) (peer a) v (gameState a) (connectionState a) (username a) (opponentName a) (hostPeerId a) (joinTargetId a) (chatMessages a) (chatInput a) (localPlayer a) (infoMessage a) (errorMessage a) (effects a).

Definition set_gameState (v : TicTacToeSnapshot) (a : App) : App :=
  MkApp (engine a) (peer a) (connection a) v (connectionState a) (username a) (opponentName a) (hostPeerId a) (joinTargetId a) (chatMessages a) (chatInput a) (localPlayer a) (infoMessage a) (errorMessage a) (effects a).

Definition set_connectionState (v : ConnectionState) (a : App) : App :=
  MkApp (engine a) (peer a) (connection a) (gameState a) v (username a) (opponentName a) (hostPeerId a) (joinTargetId a) (chatMessages a) (chatInput a) (localPlayer a) (infoMessage a) (errorMessage a) (effects a).

Definition set_username (v : string) (a : App) : App :=
  MkApp (engine a) (peer a) (connection a) (gameState a) (connectionState a) v (opponentName a) (hostPeerId a) (joinTargetId a) (chatMessages a) (chatInput a) (localPlayer a) (infoMessage a) (errorMessage a) (effects a).

Definition set_opponentName (v : string) (a : App) : App :=
  MkApp (engine a) (peer a) (connection a) (gameState a) (connectionState a) (username a) v (hostPeerId a) (joinTargetId a) (chatMessages a) (chatInput a) (localPlayer a) (infoMessage a) (errorMessage a) (effects a).

Definition set_hostPeerId (v : string) (a : App) : App :=
  MkApp (engine a) (peer a) (connection a) (gameState a) (connectionState a) (username a) (opponentName a) v (joinTargetId a) (chatMessages a) (chatInput a) (localPlayer a) (infoMessage a) (errorMessage a) (effects a).

Definition set_joinTargetId (v : string) (a : App) : App :=
  MkApp (engine a) (peer a) (connection a) (gameState a) (connectionState a) (username a) (opponentName a) (hostPeerId a) v (chatMessages a) (chatInput a) (localPlayer a) (infoMessage a) (errorMessage a) (effects a).

Definition set_chatMessages (v : list ChatMessage) (a : App) : App :=
  MkApp (engine a) (peer a) (connection a) (gameState a) (connectionState a) (username a) (opponentName a) (hostPeerId a) (joinTargetId a) v (chatInput a) (localPlayer a) (infoMessage a) (errorMessage a) (effects a).

Definition set_chatInput (v : string) (a : App) : App :=
  MkApp (engine a) (peer a) (connection a) (gameState a) (connectionState a) (username a) (opponentName a) (hostPeerId a) (joinTargetId a) (chatMessages a) v (localPlayer a) (infoMessage a) (errorMessage a) (effects a).

Definition set_localPlayer (v : option TicTacToePlayer) (a : App) : App :=
  MkApp (engine a) (peer a) (connection a) (gameState a) (connectionState a) (username a) (opponentName a) (hostPeerId a) (joinTargetId a) (chatMessages a) (chatInput a) v (infoMessage a) (errorMessage a) (effects a).

Definition set_infoMessage (v : option string) (a : App) : App :=
  MkApp (engine a) (peer a) (connection a) (gameState a) (connectionState a) (username a) (opponentName a) (hostPeerId a) (joinTargetId a) (chatMessages a) (chatInput a) (localPlayer a) v (errorMessage a) (effects a).

Definition set_errorMessage (v : option string) (a : App) : App :=
  MkApp (engine a) (peer a) (connection a) (gameState a) (connectionState a) (username a) (opponentName a) (hostPeerId a) (joinTargetId a) (chatMessages a) (chatInput a) (localPlayer a) (infoMessage a) v (effects a).

Definition set_effects (v : list Effect) (a : App) : App :=
  MkApp (engine a) (peer a) (connection a) (gameState a) (connectionState a) (username a) (opponentName a) (hostPeerId a) (joinTargetId a) (chatMessages a) (chatInput a) (localPlayer a) (infoMessage a) (errorMessage a) v.

(** Reading and writing the fields. *)
Definition read {A : Type} (f : App → A) : method App A :=
  λ a, (a, Return (f a)).

Definition update (f : App → App) : method App unit :=
  λ a, (f a, Return tt).

Definition effect (e : Effect) : method App unit :=
  update (λ a, set_effects (effects a ++ [e]) a).

(** A call of a method of [this.engine]. *)
Definition call_engine {A : Type} (m : method Engine A) : method App A :=
  λ a, let '(e', out) := m (engine a) in (set_engine e' a, out).

(** [try { body } catch (error) { handler }] *)
Definition try_catch {A : Type} (body : method App A)
    (handler : EngineError → method App A) : method App A :=
  λ a, match body a with
       | (a', Return v) => (a', Return v)
       | (a', Throw error) => handler error a'
       end.

(** A string as a condition: the empty string is false. *)
Definition truthy (s : string) : bool := bool_decide (s ≠ "").

(** ['X'] and ['O'] in a template literal. *)
Definition player_string (p : TicTacToePlayer) : string :=
  match p with X => "X" | O => "O" end.

Section Handlers.

(** [String.prototype.trim] *)
Variable trim : string → string.

(** [new App()]: the engine is [new TicTacToeEngine()], 3 x 3 with X to
    start. *)
Definition new_App : App :=
  let e := MkEngine 3 (3 * 3) (createEmptySnapshot (3 * 3) X) in
  MkApp e None None (snapshot e) idle "" "" "" "" [] "" None None None [].

(** [setError] *)
Definition setError (message : option string) : method App unit :=
  (update (set_errorMessage message) ;;
   match message with
   | Some m => if truthy m then update (set_infoMessage None) else ret tt
   | None => ret tt
   end)%method.

(** [ensureUsername] *)
Definition ensureUsername : method App bool :=
  (let! name := read username in
   if negb (truthy (trim name))
   then setError (Some "Choose a username first.") ;; ret false
   else setError None ;; ret true)%method.

(** [sendPayload] *)
Definition sendPayload (payload : PeerPayload) : method App unit :=
  (let! conn := read connection in
   match conn with
   | None => ret tt
   | Some c => if negb (open c) then ret tt else effect (Sent payload)
   end)%method.

(** [appendChatMessage] *)
Definition appendChatMessage (message : ChatMessage) : method App unit :=
  update (λ a, set_chatMessages (chatMessages a ++ [message]) a).

(** [releaseConnectionOnly] *)
Definition releaseConnectionOnly : method App unit :=
  (let! conn := read connection in
   match conn with
   | Some _ => effect ConnectionClosed
   | None => ret tt
   end ;;
   update (set_connection None))%method.

(** [cleanupPeer] *)
Definition cleanupPeer : method App unit :=
  (releaseConnectionOnly ;;
   let! p := read peer in
   match p with
   | Some _ => effect PeerDestroyed
   | None => ret tt
   end ;;
   update (set_peer None))%method.

(** [ngOnDestroy] *)
Definition ngOnDestroy : method App unit := cleanupPeer.

(** [handleDisconnect] *)
Definition handleDisconnect (message : string) : method App unit :=
  (update (set_infoMessage (Some message)) ;;
   update (set_connectionState idle) ;;
   update (set_localPlayer None) ;;
   update (set_opponentName "") ;;
   update (set_chatMessages []) ;;
   cleanupPeer)%method.

(** [cancelConnection] *)
Definition cancelConnection : method App unit :=
  handleDisconnect "Session cancelled.".

(** [handlePreOpenFailure] *)
Definition handlePreOpenFailure (message : string) : method App unit :=
  (let! cs := read connectionState in
   if bool_decide (cs = hosting) then
     releaseConnectionOnly ;;
     setError (Some message) ;;
     update (set_infoMessage (Some "Still hosting. Waiting for another opponent."))
   else if bool_decide (cs = joining) then
     handleDisconnect "Failed to connect to host." ;;
     setError (Some message)
   else handleDisconnect message)%method.

(** [resetGame] *)
Definition resetGame (announce : bool) : method App unit :=
  (let! snap := call_engine (reset X) in
   update (set_gameState snap) ;;
   let! cs := read connectionState in
   if announce && bool_decide (cs = connected)
   then sendPayload ResetPayload
   else ret tt)%method.

(** [applyMove] *)
Definition applyMove (idx : number) (origin : Origin) : method App unit :=
  try_catch
    (let! snap := call_engine (playMove idx) in
     update (set_gameState snap) ;;
     match origin with
     | local => sendPayload (MovePayload idx)
     | remote => ret tt
     end)%method
    (λ error, effect (Warned error)).

(** [canPlayCell] *)
Definition canPlayCell (idx : number) : method App bool :=
  (let! state := read gameState in
   if bool_decide (status state ≠ InProgress) then ret false
   else if bool_decide (element_at (board state) idx ≠ Some None) then ret false
   else
     let! cs := read connectionState in
     if bool_decide (cs ≠ connected) then ret false
     else
       let! p := read localPlayer in
       ret (bool_decide (p ≠ None)
            && bool_decide (Some (currentPlayer state) = p)))%method.

(** [handleCellClick] *)
Definition handleCellClick (idx : number) : method App unit :=
  (let! ok := canPlayCell idx in
   if negb ok then ret tt else applyMove idx local)%method.

(** [connectionReady] *)
Definition connectionReady : method App bool :=
  (let! cs := read connectionState in
   ret (bool_decide (cs = connected)))%method.

(** [isPlayersTurn] *)
Definition isPlayersTurn : method App bool :=
  (let! p := read localPlayer in
   let! state := read gameState in
   let! cs := read connectionState in
   ret (bool_decide (cs = connected)
        && bool_decide (status state = InProgress)
        && bool_decide (p ≠ None)
        && bool_decide (Some (currentPlayer state) = p)))%method.

(** [chatPlaceholder] *)
Definition chatPlaceholder : method App string :=
  (let! cs := read connectionState in
   ret (if bool_decide (cs = connected)
        then "Send a message to your opponent"
        else "Connect to enable chat"))%method.

(** [sendChatMessage]; [id] is the value of [this.generateId()] and [now]
    that of [Date.now()]. *)
Definition sendChatMessage (id : string) (now : Z) : method App unit :=
  (let! cs := read connectionState in
   if bool_decide (cs ≠ connected) then ret tt
   else
     let! input := read chatInput in
     let text := trim input in
     if negb (truthy text) then ret tt
     else
       let! name := read username in
       let message := MkChatMessage id sender_self (trim name) text now in
       appendChatMessage message ;;
       update (set_chatInput "") ;;
       sendPayload (ChatPayload text (msg_username message)
                      (msg_timestamp message)))%method.

(** [handleIncomingPayload]; [id] is the value [this.generateId()] would
    have (it is read for a chat payload only). *)
Definition handleIncomingPayload (id : string) (payload : PeerPayload)
  : method App unit :=
  match payload with
  | JoinPayload name =>
      (update (set_opponentName name) ;;
       update (set_infoMessage (Some (name +:+ " joined your lobby."))) ;;
       let! mine := read username in
       let! snap := call_engine getSnapshot in
       sendPayload (HostReadyPayload (trim mine) O snap))%method
  | HostReadyPayload name youAre snap =>
      (update (set_opponentName name) ;;
       update (set_localPlayer (Some youAre)) ;;
       let! loaded := call_engine (loadSnapshot snap) in
       update (set_gameState loaded) ;;
       update (set_infoMessage
                 (Some ("Connected to " +:+ name +:+ ". You are playing as "
                        +:+ player_string youAre +:+ "."))))%method
  | MovePayload idx => applyMove idx remote
  | ResetPayload => resetGame false
  | ChatPayload message name time =>
      appendChatMessage (MkChatMessage id sender_peer name message time)
  end.

(** [setupConnection], up to the registration of the listeners. *)
Definition setupConnection (conn : DataConnection) : method App unit :=
  (update (set_connection (Some conn)) ;;
   update (set_chatMessages []) ;;
   update (set_opponentName ""))%method.

(** The listeners [setupConnection] registers on the connection.  [initiator]
    and [hasOpened] are the variables of its closure; the ['open'] listener
    sets [hasOpened] to true. *)
Definition connection_on_open (initiator : bool) : method App unit :=
  (update (set_connectionState connected) ;;
   update (set_infoMessage (Some "Peers connected. Have fun!")) ;;
   setError None ;;
   if initiator
   then (let! name := read username in sendPayload (JoinPayload (trim name)))
   else ret tt)%method.

Definition connection_on_data (id : string) (data : PeerPayload)
  : method App unit :=
  handleIncomingPayload id data.

Definition connection_on_close (hasOpened : bool) : method App unit :=
  if negb hasOpened
  then handlePreOpenFailure "Connection closed before it could be established."
  else handleDisconnect "Peer disconnected.".

Definition connection_on_error (hasOpened : bool) (message : string)
  : method App unit :=
  if negb hasOpened
  then handlePreOpenFailure ("Negotiation failed: " +:+ message)
  else handleDisconnect message.

(** [prepareForNewSession] *)
Definition prepareForNewSession : method App unit :=
  (cleanupPeer ;;
   resetGame false ;;
   update (set_chatMessages []) ;;
   update (set_opponentName "") ;;
   update (set_hostPeerId ""))%method.

(** [createPeerInstance] *)
Definition createPeerInstance : method App Peer :=
  (effect PeerCreated ;; ret ThePeer)%method.

(** [startHosting], up to the registration of the listeners. *)
Definition startHosting : method App unit :=
  (let! named := ensureUsername in
   if negb named then ret tt
   else
     prepareForNewSession ;;
     update (set_connectionState hosting) ;;
     update (set_localPlayer (Some X)) ;;
     let! p := createPeerInstance in
     update (set_peer (Some p)))%method.

(** The listeners [startHosting] registers on the peer. *)
Definition host_peer_on_open (id : string) : method App unit :=
  (update (set_hostPeerId id) ;;
   update (set_infoMessage
             (Some "Share your host ID with a friend to let them join.")))%method.

Definition host_peer_on_connection (conn : DataConnection) : method App unit :=
  (let! current := read connection in
   match current with
   | Some _ => effect IncomingClosed
   | None => setupConnection conn
   end)%method.

Definition peer_on_error (message : string) : method App unit :=
  setError (Some message).

(** [joinGame], up to the registration of the listeners. *)
Definition joinGame : method App unit :=
  (let! named := ensureUsername in
   if negb named then ret tt
   else
     let! target := read joinTargetId in
     let targetId := trim target in
     if negb (truthy targetId) then setError (Some "Enter a host ID to join.")
     else
       prepareForNewSession ;;
       update (set_connectionState joining) ;;
       update (set_localPlayer (Some O)) ;;
       let! p := createPeerInstance in
       update (set_peer (Some p)))%method.

(** The ['open'] listener [joinGame] registers on the peer; [targetId] is the
    variable of its closure and [made] what [connect] returns. *)
Definition join_peer_on_open (targetId : string) (made : option DataConnection)
  : method App unit :=
  (let! p := read peer in
   match p with
   | None => setError (Some "Unable to initiate connection.")
   | Some _ =>
       effect (Connecting targetId) ;;
       match made with
       | None => setError (Some "Unable to initiate connection.")
       | Some conn => setupConnection conn
       end
   end)%method.

End Handlers.

End App.

(** * Vocabulary of the properties *)

(** The public methods that can change the engine, as calls. *)
Inductive call :=
  | CallReset (firstPlayer : TicTacToePlayer)
  | CallLoadSnapshot (external : TicTacToeSnapshot)
  | CallPlayMove (idx : number)
  | CallAutoPlay.

Definition invoke (c : call) : method Engine TicTacToeSnapshot :=
  match c with
  | CallReset firstPlayer => reset firstPlayer
  | CallLoadSnapshot external => loadSnapshot external
  | CallPlayMove idx => playMove idx
  | CallAutoPlay => autoPlay
  end.

(** The engine after a sequence of calls, each throw caught by the caller. *)
Definition run (calls : list call) (e : Engine) : Engine :=
  foldl (λ e c, (invoke c e).1) e calls.

(** The calls of a game that is only reset and played. *)
Definition reset_or_playMove (c : call) : bool :=
  match c with
  | CallReset _ | CallPlayMove _ => true
  | _ => false
  end.

(** [idx] is an integer in [[0, totalCells)]. *)
Definition names_cell (e : Engine) (idx : number) : Prop :=
  ∃ z, idx = Int z ∧ 0 ≤ z < totalCells e.

(** [Number.isSafeInteger]: the integers strictly between -2^53 and 2^53.  A
    double holds each of them, and the double [z + 1] is the integer [z + 1]
    when [z] is one of them; from 2^53 on the sum is rounded. *)
Definition safe_integer (z : Z) : Prop := - 2 ^ 53 < z < 2 ^ 53.

(** The number of cells of a board that hold a mark. *)
Definition marks (brd : TicTacToeBoard) : nat :=
  length (filter (λ cell, cell ≠ None) brd).

(** [moveCount] is the length of the history and the number of marks. *)
Definition counted (s : TicTacToeSnapshot) : Prop :=
  moveCount s = Z.of_nat (length (history s))
  ∧ Z.of_nat (length (history s)) = Z.of_nat (marks (board s)).

(** The size invariant of the engine: the board of its snapshot has
    [totalCells] cells, and [totalCells] is the square of [boardSize]. *)
Definition sized (size : Z) (e : Engine) : Prop :=
  boardSize e = size ∧ totalCells e = size * size
  ∧ Z.of_nat (length (board (snapshot e))) = totalCells e.

(** The snapshot [playMove] installs once the checks have passed. *)
Definition played (e : Engine) (idx : number) : TicTacToeSnapshot :=
  let s := snapshot e in
  let brd := assign (board s) idx (Some (currentPlayer s)) in
  let statusResult := evaluateBoard (boardSize e) brd in
  {| board := brd;
     status := ev_status statusResult;
     currentPlayer :=
       if bool_decide (ev_status statusResult = InProgress)
       then togglePlayer (currentPlayer s) else currentPlayer s;
     winner := ev_winner statusResult;
     winningLine := ev_winningLine statusResult;
     moveCount := moveCount s + 1;
     history := history s ++ [Move idx (currentPlayer s)] |}.

(** ** The two layers side by side *)

(** The engine by value that a state with references stands for. *)
Definition value_of (st : Refs.State) : Engine :=
  MkEngine (Refs.boardSize (Refs.this st)) (Refs.totalCells (Refs.this st))
           (Refs.owned st).

(** [r] names a snapshot object of the store, and so do, each for its kind,
    the references that this object and its history hold. *)
Definition well_formed (s : Refs.Store) (r : Refs.ref) : Prop :=
  ∃ o cells elems,
    Refs.snapshots s !! r = Some o
    ∧ Refs.boards s !! Refs.board o = Some cells
    ∧ Refs.histories s !! Refs.history o = Some elems
    ∧ (∀ l, Refs.winningLine o = Some l → is_Some (Refs.lines s !! l))
    ∧ Forall (λ m, is_Some (Refs.moves s !! m)) elems.

(** Every object of [s] is an object of [s'], under the same reference and
    with the same content. *)
Definition extends (s s' : Refs.Store) : Prop :=
  Refs.boards s `prefix_of` Refs.boards s'
  ∧ Refs.lines s `prefix_of` Refs.lines s'
  ∧ Refs.histories s `prefix_of` Refs.histories s'
  ∧ Refs.moves s `prefix_of` Refs.moves s'
  ∧ Refs.snapshots s `prefix_of` Refs.snapshots s'.

(** The outcome of a method with references and the outcome of the method by
    value agree: the same throw, or a reference to a snapshot with the
    returned value. *)
Definition agrees (s' : Refs.Store) (byref : outcome Refs.ref)
    (byvalue : outcome TicTacToeSnapshot) : Prop :=
  match byref, byvalue with
  | Return r, Return v => well_formed s' r ∧ Refs.view s' r = v
  | Throw a, Throw b => a = b
  | _, _ => False
  end.

(** A method with references does what the method by value does, on every
    state whose engine owns a well-formed snapshot; it only adds objects to
    the store. *)
Definition simulates (byref : method Refs.State Refs.ref)
    (byvalue : method Engine TicTacToeSnapshot) : Prop :=
  ∀ st, well_formed (Refs.store st) (Refs.snapshot (Refs.this st)) →
    extends (Refs.store st) (Refs.store (byref st).1)
    ∧ well_formed (Refs.store (byref st).1)
                  (Refs.snapshot (Refs.this (byref st).1))
    ∧ value_of (byref st).1 = (byvalue (value_of st)).1
    ∧ agrees (Refs.store (byref st).1) (byref st).2 (byvalue (value_of st)).2.

(** ** Engines of the examples *)

(** A 3 x 3 engine as the constructor builds it, X to play. *)
Definition fresh3 : Engine := MkEngine 3 9 (createEmptySnapshot 9 X).

(** The same engine after [playMove(0)]. *)
Definition after_x0 : Engine := (playMove (Int 0) fresh3).1.

(** The game of the specification: moves 0, 1, 3, 4, 6; X wins on the first
    column. *)
Definition x_has_won : Engine :=
  (playMoves [Int 0; Int 1; Int 3; Int 4; Int 6] fresh3).1.

(** A 4 x 4 engine as the constructor builds it, X to play. *)
Definition fresh4 : Engine := MkEngine 4 16 (createEmptySnapshot 16 X).

(** The snapshot of the 4 x 4 game 0 (X), 4 (O), 1 (X), 5 (O), 2 (X). *)
Definition won4 : TicTacToeSnapshot :=
  {| board := [Some X; Some X; Some X; None;
               Some O; Some O; None; None;
               None; None; None; None;
               None; None; None; None];
     status := Won;
     currentPlayer := X;
     winner := Some X;
     winningLine := Some [0; 1; 2; 3];
     moveCount := 5;
     history := [Move (Int 0) X; Move (Int 4) O; Move (Int 1) X;
                 Move (Int 5) O; Move (Int 2) X] |}.

(** The state of a 3 x 3 engine that the constructor builds in an empty
    store: a board, an empty history and the snapshot object. *)
Definition host0 : Refs.State :=
  Refs.MkState
    (Refs.MkStore [[None; None; None; None; None; None; None; None; None]]
                  [] [[]] []
                  [Refs.MkSnapshotObject 0%nat InProgress X None None 0 0%nat])
    (Refs.MkEngine 3 9 0%nat).

(** The host after the won game of the specification, and after a
    [getSnapshot] that returns the reference [taken]. *)
Definition host_won : Refs.State :=
  Refs.playMoves [Int 0; Int 1; Int 3; Int 4; Int 6] host0.

Definition host_seen : Refs.State := (Refs.getSnapshot host_won).1.

Definition taken : Refs.ref := length (Refs.snapshots (Refs.store host_won)).

(** The host once the caller has assigned [taken.winningLine[0] = 99]. *)
Definition host_touched : Refs.State :=
  (Refs.caller_writes_winningLine taken (Int 0) 99 host_seen).1.

(** A guest engine built in the store where [taken] lives, before and after
    it loads [taken], and once the caller has assigned
    [taken.winningLine[0] = 99]. *)
Definition guest0 : Refs.State :=
  Refs.MkState
    (Refs.MkStore
       (Refs.boards (Refs.store host_seen)
          ++ [[None; None; None; None; None; None; None; None; None]])
       (Refs.lines (Refs.store host_seen))
       (Refs.histories (Refs.store host_seen) ++ [[]])
       (Refs.moves (Refs.store host_seen))
       (Refs.snapshots (Refs.store host_seen)
          ++ [Refs.MkSnapshotObject
                (length (Refs.boards (Refs.store host_seen)))
                InProgress O None None 0
                (length (Refs.histories (Refs.store host_seen)))]))
    (Refs.MkEngine 3 9 (length (Refs.snapshots (Refs.store host_seen)))).

Definition guest_loaded : Refs.State := (Refs.loadSnapshot taken guest0).1.

Definition guest_touched : Refs.State :=
  (Refs.caller_writes_winningLine taken (Int 0) 99 guest_loaded).1.

(** ** Games from the constructor *)

(** The calls that play the game of the engine: every call but
    [loadSnapshot], which installs a snapshot from outside. *)
Definition plays (c : call) : bool :=
  match c with
  | CallLoadSnapshot _ => false
  | _ => true
  end.

(** What the status of a snapshot says about its board, for a board of
    size [n]: the invariant of [reset], [playMove] and [autoPlay]. *)
Definition settled (n : Z) (s : TicTacToeSnapshot) : Prop :=
  match status s with
  | Idle => False
  | InProgress =>
      winner s = None ∧ winningLine s = None
      ∧ (∃ z, element (board s) z = Some None)
      ∧ scanLines (board s) (computeWinningLines n) = None
  | Won =>
      ∃ mark line, winner s = Some mark ∧ winningLine s = Some line
        ∧ line ∈ computeWinningLines n
        ∧ lineWinner (board s) line = Some mark
  | Draw =>
      winner s = None ∧ winningLine s = None
      ∧ Forall (λ cell, cell ≠ None) (board s)
      ∧ scanLines (board s) (computeWinningLines n) = None
  end.

(** The players of the moves of a game take turns. *)
Definition take_turns (moves : list TicTacToeMove) : Prop :=
  ∀ i m m', moves !! i = Some m → moves !! S i = Some m' →
            player m' = togglePlayer (player m).

(** The turn invariant: the history takes turns, and after its last move
    [currentPlayer] is the other player while the game is in progress and
    the player of that move once the game is over. *)
Definition turns (s : TicTacToeSnapshot) : Prop :=
  take_turns (history s)
  ∧ (status s = InProgress →
     ∀ m, last (history s) = Some m → currentPlayer s = togglePlayer (player m))
  ∧ (status s ≠ InProgress →
     ∀ m, last (history s) = Some m → currentPlayer s = player m).

(** The history is the board: a cell holds a mark exactly when the history
    has the move that put it there, and no cell is played twice. *)
Definition recorded (s : TicTacToeSnapshot) : Prop :=
  (∀ z mark, element (board s) z = Some (Some mark)
             ↔ Move (Int z) mark ∈ history s)
  ∧ NoDup (index <$> history s)
  ∧ Forall (λ m, ∃ z, index m = Int z) (history s).

(** The game of the specification that X wins with the line 0, 3, 6, as
    calls. *)
Definition x_wins : list call :=
  CallPlayMove <$> [Int 0; Int 1; Int 3; Int 4; Int 6].

(** A game with a refused move and a move of [autoPlay]. *)
Definition short_game : list call :=
  [CallPlayMove (Int 0); CallPlayMove (Int 0); CallAutoPlay;
   CallPlayMove (Int 4)].

(** ** The component and its peer *)

(** What the component publishes is what its engine holds, and the engine is
    the 3 x 3 engine it was built with. *)
Definition published (a : App.App) : Prop :=
  App.gameState a = snapshot (App.engine a) ∧ sized 3 (App.engine a).

(** The payloads among the calls to the outside. *)
Definition sent (effects : list App.Effect) : list App.PeerPayload :=
  omap (λ e, match e with App.Sent payload => Some payload | _ => None end)
       effects.

(** The payloads sent on the way from [a] to [a']. *)
Definition sent_since (a a' : App.App) : list App.PeerPayload :=
  sent (drop (length (App.effects a)) (App.effects a')).

(** The calls a component receives: the handlers of the template and the
    listeners of the transport. *)
Inductive event :=
  | StartHosting
  | JoinGame
  | CancelConnection
  | CellClick (idx : number)
  | ResetGame
  | SendChat (id : string) (now : Z)
  | Destroy
  | HostPeerOpen (id : string)
  | HostPeerConnection (conn : App.DataConnection)
  | PeerError (message : string)
  | JoinPeerOpen (targetId : string) (made : option App.DataConnection)
  | ConnectionOpen (initiator : bool)
  | ConnectionData (id : string) (data : App.PeerPayload)
  | ConnectionClose (hasOpened : bool)
  | ConnectionError (hasOpened : bool) (message : string).

(** The method of the component an event calls. *)
Definition handle (trim : string → string) (ev : event) : method App.App unit :=
  match ev with
  | StartHosting => App.startHosting trim
  | JoinGame => App.joinGame trim
  | CancelConnection => App.cancelConnection
  | CellClick idx => App.handleCellClick idx
  | ResetGame => App.resetGame true
  | SendChat id now => App.sendChatMessage trim id now
  | Destroy => App.ngOnDestroy
  | HostPeerOpen id => App.host_peer_on_open id
  | HostPeerConnection conn => App.host_peer_on_connection conn
  | PeerError message => App.peer_on_error message
  | JoinPeerOpen targetId made => App.join_peer_on_open targetId made
  | ConnectionOpen initiator => App.connection_on_open trim initiator
  | ConnectionData id data => App.connection_on_data trim id data
  | ConnectionClose hasOpened => App.connection_on_close hasOpened
  | ConnectionError hasOpened message => App.connection_on_error hasOpened message
  end.

(** The other side receives payloads in the order they were sent. *)
Definition deliver (trim : string → string) (id : string)
    (payloads : list App.PeerPayload) (a : App.App) : App.App :=
  foldl (λ a payload, (App.handleIncomingPayload trim id payload a).1) a payloads.

(** The handlers that leave the game alone. *)
Definition same_game (a a' : App.App) : Prop :=
  App.engine a' = App.engine a ∧ App.gameState a' = App.gameState a.

(** [m] relates the state it starts from to the state it ends in. *)
Definition keeps {A : Type} (R : App.App → App.App → Prop)
    (m : method App.App A) : Prop :=
  ∀ a, R a (m a).1.

(** What is published stays published. *)
Definition republished (a a' : App.App) : Prop := published a → published a'.

(** [connection.close()] and [peer.destroy()], when there is something to
    close or destroy. *)
Definition teardown (a : App.App) : list App.Effect :=
  (if App.connection a is Some _ then [App.ConnectionClosed] else [])
  ++ (if App.peer a is Some _ then [App.PeerDestroyed] else []).

(** The component has an open connection. *)
Definition can_send (a : App.App) : bool :=
  match App.connection a with
  | Some c => App.open c
  | None => false
  end.

(** The component after [prepareForNewSession] and the creation of a peer, in
    the connection state [cs] and with the mark [mark]. *)
Definition new_session (cs : App.ConnectionState) (mark : TicTacToePlayer)
    (a : App.App) : App.App :=
  App.MkApp (reset X (App.engine a)).1 (Some App.ThePeer) None
    (snapshot (reset X (App.engine a)).1) cs
    (App.username a) ""%string ""%string (App.joinTargetId a)
    [] (App.chatInput a) (Some mark) (App.infoMessage a) None
    (App.effects a ++ teardown a ++ [App.PeerCreated]).

(** The payload a component sends when it can. *)
Definition outgoing (a : App.App) (payload : App.PeerPayload) : list App.Effect :=
  if can_send a then [App.Sent payload] else [].

(** The handler only adds to the calls it has made, and what it adds holds a
    payload only if the component could send; it keeps the connection. *)
Definition speaks_if_open (a a' : App.App) : Prop :=
  App.connection a' = App.connection a
  ∧ ∃ extra, App.effects a' = App.effects a ++ extra
      ∧ (sent extra ≠ [] → can_send a = true).

(** The handler adds no payload to the calls it has made. *)
Definition silent (a a' : App.App) : Prop :=
  ∃ extra, App.effects a' = App.effects a ++ extra ∧ sent extra = [].

(** The component after a sequence of events, each throw left to the
    caller. *)
Definition after (trim : string → string) (events : list event)
    (a : App.App) : App.App :=
  foldl (λ a ev, (handle trim ev a).1) a events.

(** The opening of a session between a joiner and a host: the joiner's
    connection opens, the host receives what the joiner sent, and the joiner
    receives what the host answered.  The result is the host and the joiner
    afterwards. *)
Definition join_handshake (trim : string → string) (id : string)
    (host joiner : App.App) : App.App * App.App :=
  let joiner1 := (App.connection_on_open trim true joiner).1 in
  let host1 := deliver trim id (sent_since joiner joiner1) host in
  (host1, deliver trim id (sent_since host host1) joiner1).

(** The chat message a component writes from its input. *)
Definition written (trim : string → string) (id : string) (now : Z)
    (sender : App.Sender) (a : App.App) : App.ChatMessage :=
  App.MkChatMessage id sender (trim (App.username a)) (trim (App.chatInput a))
    now.

(** A component in a session: connected through an open connection, with the
    engine [e] published. *)
Definition in_session (name opponent : string) (mark : TicTacToePlayer)
    (e : Engine) : App.App :=
  App.MkApp e (Some App.ThePeer) (Some (App.MkDataConnection true))
    (snapshot e) App.connected name opponent "" "" [] "" (Some mark) None None
    [].

(** A host at the start of a game. *)
Definition host_app : App.App := in_session "Ann" "Bob" X fresh3.

(** Its guest. *)
Definition guest_app : App.App := in_session "Bob" "Ann" O fresh3.

(** A host whose lobby a guest is about to enter; the host holds a game
    where X has played cell 0. *)
Definition host_lobby : App.App := in_session "Ann" "" X after_x0.

(** The guest on its way in: its connection to the host has been made. *)
Definition guest_joining : App.App :=
  App.MkApp fresh3 (Some App.ThePeer) (Some (App.MkDataConnection true))
    (snapshot fresh3) App.joining "Bob" "" "" "ann-id" [] "" (Some O) None None
    [].

(** The host with a message typed. *)
Definition host_typing : App.App := App.set_chatInput "hello" host_app.

(** * Properties *)

Ltac run_method :=
  unfold playMove, assertMoveIsAllowed, canPlay, getAvailableMoves, autoPlay,
    loadSnapshot, reset, getSnapshot, cloneSnapshot, set_snapshot,
    bind, get, put, ret, throw;
  cbn [fst snd boardSize totalCells snapshot].

(** The conjuncts of a goal, one by one. *)
Ltac conjuncts := repeat match goal with |- _ ∧ _ => split end.

(** ** The scenarios of the specification *)

Example new_engine_3 : new_TicTacToeEngine 3 X = Return fresh3.
Proof. by vm_compute. Qed.

Example new_engine_too_small : new_TicTacToeEngine 2 X = Throw InvalidBoardSize.
Proof. by vm_compute. Qed.

Example scenario_first_move :
  playMove (Int 0) fresh3
  = (after_x0,
     Return {| board := [Some X; None; None; None; None; None; None; None; None];
               status := InProgress; currentPlayer := O; winner := None;
               winningLine := None; moveCount := 1;
               history := [Move (Int 0) X] |}).
Proof. by vm_compute. Qed.

Example scenario_x_wins :
  snapshot x_has_won
  = {| board := [Some X; Some O; None; Some X; Some O; None; Some X; None; None];
       status := Won; currentPlayer := X; winner := Some X;
       winningLine := Some [0; 3; 6]; moveCount := 5;
       history := [Move (Int 0) X; Move (Int 1) O; Move (Int 3) X;
                   Move (Int 4) O; Move (Int 6) X] |}.
Proof. by vm_compute. Qed.

(** A full board without a line: O starts and takes 1, 2, 3, 6, 8; X takes
    0, 4, 5, 7. *)
Example scenario_draw :
  snapshot
    (playMoves [Int 1; Int 0; Int 2; Int 4; Int 3; Int 5; Int 6; Int 7; Int 8]
       (reset O fresh3).1).1
  = {| board := [Some X; Some O; Some O; Some O; Some X; Some X; Some O; Some X;
                 Some O];
       status := Draw; currentPlayer := O; winner := None;
       winningLine := None; moveCount := 9;
       history := [Move (Int 1) O; Move (Int 0) X; Move (Int 2) O;
                   Move (Int 4) X; Move (Int 3) O; Move (Int 5) X;
                   Move (Int 6) O; Move (Int 7) X; Move (Int 8) O] |}.
Proof. by vm_compute. Qed.

(** Each of the eight lines of a 3 x 3 board, filled with one mark on an
    otherwise empty board, is a win of that mark on that line. *)
Example win_detection_symmetry :
  Forall (λ line,
            Forall (λ mark,
                      evaluateBoard 3
                        (foldr (λ i brd, assign brd (Int i) (Some mark))
                               (Array_from 9 (λ _, None)) line)
                      = MkEvaluation Won (Some mark) (Some line))
                   [X; O])
         (computeWinningLines 3).
Proof. vm_compute. repeat constructor. Qed.

Example refs_scenario_x_wins :
  Refs.new_TicTacToeEngine 3 X Refs.empty_store = Return host0
  ∧ Refs.owned host_won = snapshot x_has_won.
Proof. split; by vm_compute. Qed.

(** ** Array reads and writes *)

Lemma element_lookup {A} (arr : list A) (i : nat) :
  element arr (Z.of_nat i) = arr !! i.
Proof.
  unfold element. rewrite bool_decide_eq_true_2 by lia. by rewrite Nat2Z.id.
Qed.

Lemma element_Some {A} (arr : list A) (z : Z) (a : A) :
  element arr z = Some a ↔ 0 ≤ z ∧ arr !! Z.to_nat z = Some a.
Proof.
  unfold element. case_bool_decide; [tauto|].
  split; [done | intros [? _]; lia].
Qed.

Lemma element_Some_lt {A} (arr : list A) (z : Z) (a : A) :
  element arr z = Some a → 0 ≤ z < Z.of_nat (length arr).
Proof.
  intros [Hz Hl]%element_Some. apply lookup_lt_Some in Hl. lia.
Qed.

Lemma element_assign_eq {A} (arr : list A) (z : Z) (a v : A) :
  element arr z = Some a → element_at (assign arr (Int z) v) (Int z) = Some v.
Proof.
  intros H. pose proof (element_Some_lt _ _ _ H) as Hlt.
  simpl. unfold element. rewrite !bool_decide_eq_true_2 by lia.
  apply list_lookup_insert_eq. lia.
Qed.

Lemma element_assign_ne {A} (arr : list A) (x : number) (j : Z) (v : A) :
  Int j ≠ x → element (assign arr x v) j = element arr j.
Proof.
  intros Hne. destruct x as [z| | | |]; try done.
  simpl. case_bool_decide as Hz; [|done].
  unfold element. case_bool_decide as Hj; [|done].
  apply list_lookup_insert_ne. intros Heq. apply Hne. f_equal. lia.
Qed.

Lemma length_assign {A} (arr : list A) (x : number) (v : A) :
  length (assign arr x v) = length arr.
Proof.
  destruct x; simpl; try done. case_bool_decide; [apply length_insert|done].
Qed.

(** ** The checks of [assertMoveIsAllowed] *)

Lemma names_cell_checks (e : Engine) (idx : number) :
  names_cell e idx ↔
  negb (isInteger idx) || negb (number_ge idx 0)
    || negb (number_lt idx (totalCells e)) = false.
Proof.
  unfold names_cell. split.
  - intros (z & -> & Hz). simpl.
    rewrite !bool_decide_eq_true_2 by lia. done.
  - destruct idx as [z| | | |]; simpl; try done.
    intros H. exists z. split; [done|].
    apply orb_false_iff in H as [H1 H2].
    apply negb_false_iff, bool_decide_eq_true in H1, H2. lia.
Qed.

(** The three refusals, in the order of the source, and the acceptance. *)
Lemma assertMoveIsAllowed_cases (e : Engine) (idx : number) :
  assertMoveIsAllowed idx e =
    (e, if bool_decide (status (snapshot e) ≠ InProgress)
        then Throw GameNotInProgress
        else if negb (isInteger idx) || negb (number_ge idx 0)
                || negb (number_lt idx (totalCells e))
        then Throw IndexOutOfRange
        else if bool_decide (element_at (board (snapshot e)) idx ≠ Some None)
        then Throw CellOccupied
        else Return tt).
Proof.
  run_method. repeat case_match; done.
Qed.

Lemma playMove_refused (e : Engine) (idx : number) (err : EngineError) :
  assertMoveIsAllowed idx e = (e, Throw err) → playMove idx e = (e, Throw err).
Proof.
  intros H. unfold playMove. unfold bind at 1. by rewrite H.
Qed.

Lemma playMove_accepted (e : Engine) (idx : number) :
  assertMoveIsAllowed idx e = (e, Return tt) →
  playMove idx e =
    (MkEngine (boardSize e) (totalCells e) (played e idx), Return (played e idx)).
Proof.
  intros H. unfold playMove. unfold bind at 1. rewrite H.
  reflexivity.
Qed.

Lemma playMove_outcome (e : Engine) (idx : number) :
  playMove idx e =
    if bool_decide (status (snapshot e) ≠ InProgress)
    then (e, Throw GameNotInProgress)
    else if negb (isInteger idx) || negb (number_ge idx 0)
            || negb (number_lt idx (totalCells e))
    then (e, Throw IndexOutOfRange)
    else if bool_decide (element_at (board (snapshot e)) idx ≠ Some None)
    then (e, Throw CellOccupied)
    else (MkEngine (boardSize e) (totalCells e) (played e idx),
          Return (played e idx)).
Proof.
  pose proof (assertMoveIsAllowed_cases e idx) as H.
  repeat case_match; auto using playMove_refused, playMove_accepted.
Qed.

(** ** C2: the contract of [playMove] *)



(** ** C4: a refused move changes nothing *)

(** C4.  On any engine state, [playMove] on an index that is not an integer
    in [[0, totalCells)], or on a cell that holds a mark, throws, and the
    engine (so the snapshot [getSnapshot] gives) is the same after the call as
    before it. *)
Theorem playMove_refused_keeps_snapshot (e : Engine) (idx : number)
  (Hbad : ¬ names_cell e idx
          ∨ ∃ mark, element_at (board (snapshot e)) idx = Some (Some mark)) :
  ∃ err, playMove idx e = (e, Throw err)
    ∧ (err = GameNotInProgress ∨ err = IndexOutOfRange ∨ err = CellOccupied)
    ∧ getSnapshot (playMove idx e).1 = getSnapshot e.
Proof.
  rewrite playMove_outcome.
  case_bool_decide as Hst; [by eauto 6|].
  destruct (negb (isInteger idx) || _ || _) eqn:Hc; [by eauto 6|].
  apply names_cell_checks in Hc.
  destruct Hbad as [Hbad|[mark Hmark]]; [done|].
  rewrite bool_decide_eq_true_2 by (rewrite Hmark; congruence).
  by eauto 6.
Qed.

(** Cell 0 is taken, index 9 and index 1.5 name no cell of a 3 x 3 board. *)
Lemma playMove_refused_keeps_snapshot_witness :
  (∃ err, playMove (Int 0) after_x0 = (after_x0, Throw err)
     ∧ (err = GameNotInProgress ∨ err = IndexOutOfRange ∨ err = CellOccupied)
     ∧ getSnapshot (playMove (Int 0) after_x0).1 = getSnapshot after_x0)
  ∧ (∃ err, playMove (Int 9) after_x0 = (after_x0, Throw err)
     ∧ (err = GameNotInProgress ∨ err = IndexOutOfRange ∨ err = CellOccupied)
     ∧ getSnapshot (playMove (Int 9) after_x0).1 = getSnapshot after_x0)
  ∧ (∃ err, playMove (Fraction 1) after_x0 = (after_x0, Throw err)
     ∧ (err = GameNotInProgress ∨ err = IndexOutOfRange ∨ err = CellOccupied)
     ∧ getSnapshot (playMove (Fraction 1) after_x0).1 = getSnapshot after_x0).
Proof.
  split; [|split].
  - apply playMove_refused_keeps_snapshot. right. exists X. reflexivity.
  - apply playMove_refused_keeps_snapshot. left.
    intros (z & Hz & Hr). injection Hz as <-. simpl in Hr. lia.
  - apply playMove_refused_keeps_snapshot. left.
    intros (z & Hz & _). discriminate Hz.
Defined.

(** ** C5: a finished game accepts no move *)

Lemma playMoves_finished (idxs : list number) (e : Engine) :
  status (snapshot e) ≠ InProgress →
  playMoves idxs e = (e, (λ _, Throw GameNotInProgress) <$> idxs).
Proof.
  intros Hst. induction idxs as [|idx idxs IH]; [done|].
  cbn [playMoves]. rewrite playMove_outcome, bool_decide_eq_true_2 by done.
  by rewrite IH.
Qed.

(** C5.  When the status is [Won] or [Draw], every call of any sequence of
    [playMove] calls throws [GameNotInProgress], and the engine after the
    sequence is the engine before it: board, status and all.  [reset] leaves
    that state for [InProgress], and [loadSnapshot] for whatever the loaded
    snapshot of the right size says. *)
Theorem finished_game_refuses_moves (e : Engine) (idxs : list number)
  (Hover : status (snapshot e) = Won ∨ status (snapshot e) = Draw) :
  playMoves idxs e = (e, (λ _, Throw GameNotInProgress) <$> idxs)
  ∧ (∀ firstPlayer, status (snapshot (reset firstPlayer e).1) = InProgress)
  ∧ (∀ external,
       Z.of_nat (length (board external)) = totalCells e →
       status (snapshot (loadSnapshot external e).1) = status external).
Proof.
  split; [|split].
  - apply playMoves_finished. destruct Hover as [-> | ->]; done.
  - done.
  - intros external Hlen. run_method.
    by rewrite bool_decide_eq_false_2 by (by intros []).
Qed.

(** The game of the specification that X wins with the line 0, 3, 6. *)
Lemma finished_game_refuses_moves_witness :
  status (snapshot x_has_won) = Won
  ∧ playMoves [Int 2; Int 5; Int 0] x_has_won
    = (x_has_won, [Throw GameNotInProgress; Throw GameNotInProgress;
                   Throw GameNotInProgress]).
Proof.
  split; [reflexivity|].
  apply (finished_game_refuses_moves x_has_won [Int 2; Int 5; Int 0]).
  left. reflexivity.
Defined.

(** ** C9: [canPlay] and [playMove] agree *)

(** C9.  On any engine state and for any number [idx], [canPlay idx] changes
    nothing, and it returns [true] exactly when [playMove idx] returns a
    snapshot instead of throwing. *)
Theorem canPlay_iff_playMove_returns (e : Engine) (idx : number) :
  ∃ b, canPlay idx e = (e, Return b)
    ∧ (b = true ↔ ∃ e' s', playMove idx e = (e', Return s')).
Proof.
  eexists. split; [reflexivity|].
  rewrite playMove_outcome.
  destruct idx as [z| below | | |]; simpl.
  - repeat case_bool_decide; simpl; split; try done;
      try (intros (? & ? & ?); done); try (by eauto).
  - rewrite andb_false_r. simpl. split; [done|].
    case_bool_decide; by intros (? & ? & ?).
  - split; [done|]. case_bool_decide; by intros (? & ? & ?).
  - split; [done|]. case_bool_decide; by intros (? & ? & ?).
  - split; [done|]. case_bool_decide; by intros (? & ? & ?).
Qed.

(** ** C8: [getAvailableMoves] and [autoPlay] *)

(** The [map] and [filter] of [getAvailableMoves] on the part of a board that
    starts at index [k]. *)
Lemma available_from (brd : TicTacToeBoard) (k : nat) :
  let moves :=
    filter (λ idx, idx ≠ -1)
      (imap (λ idx cell,
               if bool_decide (cell = None) then Z.of_nat (k + idx) else -1)
            brd) in
  StronglySorted Z.lt moves
  ∧ ∀ i, i ∈ moves ↔ ∃ j : nat, i = Z.of_nat (k + j) ∧ brd !! j = Some None.
Proof.
  revert k. induction brd as [|cell brd IH]; intros k; cbn zeta.
  - split; [constructor|]. intros i. split.
    + intros H. by apply elem_of_nil in H.
    + by intros (j & _ & H).
  - rewrite imap_cons.
    rewrite (imap_ext _ (λ idx cell,
               if bool_decide (cell = None) then Z.of_nat (S k + idx) else -1));
      last first.
    { intros i x _. simpl. case_bool_decide; [f_equal; lia|done]. }
    destruct (IH (S k)) as [IHs IHm]. clear IH.
    rewrite filter_cons. case_bool_decide as Hcell.
    + subst cell. rewrite decide_True by lia. split.
      * apply StronglySorted_cons. split; [|done].
        apply Forall_forall. intros i (j & -> & _)%IHm. lia.
      * intros i. rewrite elem_of_cons, IHm. split.
        -- intros [->|(j & -> & Hj)].
           ++ exists 0%nat. split; [f_equal; lia|done].
           ++ exists (S j). split; [f_equal; lia|done].
        -- intros ([|j] & -> & Hj).
           ++ left. f_equal; lia.
           ++ right. exists j. split; [f_equal; lia|done].
    + rewrite decide_False by lia. split; [done|].
      intros i. rewrite IHm. split.
      * intros (j & -> & Hj). exists (S j). split; [f_equal; lia|done].
      * intros ([|j] & -> & Hj).
        -- simpl in Hj. congruence.
        -- exists j. split; [f_equal; lia|done].
Qed.

Lemma getAvailableMoves_spec (e : Engine) :
  ∃ moves, getAvailableMoves e = (e, Return moves)
    ∧ StronglySorted Z.lt moves
    ∧ ∀ i, i ∈ moves ↔ element (board (snapshot e)) i = Some None.
Proof.
  eexists. split; [reflexivity|].
  destruct (available_from (board (snapshot e)) 0) as [Hs Hm].
  split; [exact Hs|]. intros i. cbn zeta in Hm. rewrite (Hm i).
  rewrite element_Some. split.
  - intros (j & -> & Hj). rewrite Nat.add_0_l, Nat2Z.id. split; [lia|done].
  - intros [Hi Hl]. exists (Z.to_nat i). split; [|done].
    rewrite Nat.add_0_l. lia.
Qed.

Lemma autoPlay_cases (e : Engine) (moves : list Z) :
  getAvailableMoves e = (e, Return moves) →
  autoPlay e = match head moves with
               | None => (e, Throw NoMovesAvailable)
               | Some nextMove => playMove (Int nextMove) e
               end.
Proof.
  intros Hget. unfold autoPlay, bind. rewrite Hget. by destruct (head moves).
Qed.

(** C8.  On any engine state, [getAvailableMoves] changes nothing and returns
    the indices of the empty cells, each once, in ascending order.  [autoPlay]
    throws [NoMovesAvailable] when no cell is empty, and is otherwise
    [playMove] on the least index of an empty cell: same outcome, same engine
    afterwards. *)
Theorem autoPlay_plays_lowest_available (e : Engine) :
  (∃ moves, getAvailableMoves e = (e, Return moves)
     ∧ StronglySorted Z.lt moves
     ∧ ∀ i, i ∈ moves ↔ element (board (snapshot e)) i = Some None)
  ∧ ((∀ i, element (board (snapshot e)) i ≠ Some None) →
     autoPlay e = (e, Throw NoMovesAvailable))
  ∧ (∀ m, element (board (snapshot e)) m = Some None →
          (∀ i, element (board (snapshot e)) i = Some None → m ≤ i) →
          autoPlay e = playMove (Int m) e).
Proof.
  destruct (getAvailableMoves_spec e) as (moves & Hget & Hsort & Hmem).
  split; [by eauto|].
  rewrite (autoPlay_cases e moves Hget).
  split.
  - intros Hnone. destruct moves as [|m moves]; [done|].
    exfalso. apply (Hnone m), Hmem. by left.
  - intros m Hm Hleast. destruct moves as [|m' moves].
    + apply Hmem in Hm. by apply elem_of_nil in Hm.
    + simpl. do 2 f_equal.
      assert (m ≤ m') by (apply Hleast, Hmem; by left).
      apply Hmem, elem_of_cons in Hm as [->|Hin]; [done|].
      apply StronglySorted_cons in Hsort as [Hall _].
      rewrite Forall_forall in Hall. specialize (Hall _ Hin). lia.
Qed.

(** After [playMove(0)] on a new 3 x 3 board the least empty cell is 1. *)
Lemma autoPlay_plays_lowest_available_witness :
  getAvailableMoves after_x0 = (after_x0, Return [1; 2; 3; 4; 5; 6; 7; 8])
  ∧ autoPlay after_x0 = playMove (Int 1) after_x0.
Proof.
  split; [reflexivity|].
  destruct (autoPlay_plays_lowest_available after_x0) as (_ & _ & Hplay).
  apply Hplay.
  - reflexivity.
  - intros i Hi. destruct (decide (1 ≤ i)) as [|Hlt]; [done|].
    pose proof (element_Some_lt _ _ _ Hi) as [Hge _].
    assert (i = 0) as -> by lia. discriminate Hi.
Defined.

(** ** Sequences of calls *)

Lemma run_cons (c : call) (calls : list call) (e : Engine) :
  run (c :: calls) e = run calls (invoke c e).1.
Proof. reflexivity. Qed.

(** An invariant of the engine that every call of a set of calls keeps is
    kept by a sequence of such calls. *)
Lemma run_invariant (P : Engine → Prop) (allowed : call → bool)
    (calls : list call) (e : Engine) :
  (∀ c e, allowed c = true → P e → P (invoke c e).1) →
  forallb allowed calls = true → P e → P (run calls e).
Proof.
  intros Hstep. revert e. induction calls as [|c calls IH]; intros e Hall He.
  - exact He.
  - simpl in Hall. apply andb_true_iff in Hall as [Hc Hall].
    rewrite run_cons. apply IH; [exact Hall|]. by apply Hstep.
Qed.

Lemma playMove_state (e : Engine) (idx : number) :
  (playMove idx e).1 = e
  ∨ (status (snapshot e) = InProgress
     ∧ names_cell e idx
     ∧ element_at (board (snapshot e)) idx = Some None
     ∧ (playMove idx e).1
       = MkEngine (boardSize e) (totalCells e) (played e idx)).
Proof.
  rewrite playMove_outcome.
  case_bool_decide as Hst; [by left|].
  destruct (negb (isInteger idx) || _ || _) eqn:Hc; [by left|].
  case_bool_decide as Hocc; [by left|].
  right. split; [by destruct (decide (status (snapshot e) = InProgress))|].
  split; [by apply names_cell_checks|].
  split; [|done].
  by destruct (decide (element_at (board (snapshot e)) idx = Some None)).
Qed.

Lemma autoPlay_state (e : Engine) :
  (autoPlay e).1 = e ∨ ∃ m, (autoPlay e).1 = (playMove (Int m) e).1.
Proof.
  destruct (getAvailableMoves_spec e) as (moves & Hget & _).
  rewrite (autoPlay_cases e moves Hget).
  destruct (head moves) as [m|]; [right; by exists m|by left].
Qed.

(** ** C3: [moveCount], the history and the marks on the board *)

Lemma marks_empty (total : Z) : marks (Array_from total (λ _, None)) = 0%nat.
Proof.
  unfold marks, Array_from.
  induction (seqZ 0 total) as [|z l IH]; [done|].
  rewrite fmap_cons, filter_cons, decide_False by (by intros []). exact IH.
Qed.

Lemma marks_insert (brd : TicTacToeBoard) (i : nat) (mark : TicTacToePlayer) :
  brd !! i = Some None → marks (<[i := Some mark]> brd) = S (marks brd).
Proof.
  unfold marks. revert i. induction brd as [|cell brd IH]; intros i Hi; [done|].
  destruct i as [|i]; simpl in Hi.
  - injection Hi as ->. simpl.
    rewrite !filter_cons.
    destruct (decide (Some mark ≠ None)) as [_|[]]; [|done].
    destruct (decide (None ≠ @None TicTacToePlayer)) as [[]|_]; done.
  - simpl. rewrite !filter_cons. specialize (IH i Hi).
    destruct (decide (cell ≠ None)); simpl; by rewrite IH.
Qed.

Lemma marks_assign (brd : TicTacToeBoard) (z : Z) (mark : TicTacToePlayer) :
  element brd z = Some None →
  marks (assign brd (Int z) (Some mark)) = S (marks brd).
Proof.
  intros [Hz Hl]%element_Some. simpl.
  rewrite bool_decide_eq_true_2 by done. by apply marks_insert.
Qed.

Lemma counted_empty (total : Z) (firstPlayer : TicTacToePlayer) :
  counted (createEmptySnapshot total firstPlayer).
Proof.
  unfold counted. simpl. by rewrite marks_empty.
Qed.

Lemma counted_invoke (c : call) (e : Engine) :
  reset_or_playMove c = true →
  counted (snapshot e) → counted (snapshot (invoke c e).1).
Proof.
  destruct c as [firstPlayer|external|idx|]; try done; intros _ [Hh Hm].
  - apply counted_empty.
  - simpl. destruct (playMove_state e idx) as [->|(_ & (z & -> & _) & Hfree & ->)];
      [done|].
    unfold counted, played;
      cbn [snapshot board history moveCount].
    rewrite length_app, marks_assign by done. simpl. lia.
Qed.

(** C3.  Take an engine as the constructor builds it and any sequence of
    [reset] and [playMove] calls on it (a call that throws changes nothing).
    In the snapshot of the engine after the sequence, [moveCount] equals the
    length of [history], and both equal the number of cells of [board] that
    are not empty. *)
Theorem moveCount_is_history_length_is_marks
    (size : Z) (firstPlayer : TicTacToePlayer) (e : Engine) (calls : list call)
    (Hnew : new_TicTacToeEngine size firstPlayer = Return e)
    (Hcalls : forallb reset_or_playMove calls = true) :
  ∃ s, getSnapshot (run calls e) = (run calls e, Return s)
    ∧ moveCount s = Z.of_nat (length (history s))
    ∧ Z.of_nat (length (history s)) = Z.of_nat (marks (board s)).
Proof.
  exists (snapshot (run calls e)). split; [done|].
  apply (run_invariant (λ e, counted (snapshot e)) reset_or_playMove);
    [apply counted_invoke|exact Hcalls|].
  unfold new_TicTacToeEngine in Hnew. case_bool_decide; [done|].
  injection Hnew as <-. apply counted_empty.
Qed.

(** A game with a refused move and a reset in the middle. *)
Lemma moveCount_is_history_length_is_marks_witness :
  ∃ s, getSnapshot
         (run [CallPlayMove (Int 0); CallPlayMove (Int 0); CallReset O;
               CallPlayMove (Int 4); CallPlayMove (Int 8)] fresh3)
       = (run [CallPlayMove (Int 0); CallPlayMove (Int 0); CallReset O;
               CallPlayMove (Int 4); CallPlayMove (Int 8)] fresh3, Return s)
    ∧ moveCount s = Z.of_nat (length (history s))
    ∧ Z.of_nat (length (history s)) = Z.of_nat (marks (board s)).
Proof.
  apply (moveCount_is_history_length_is_marks 3 X fresh3); reflexivity.
Defined.

(** ** C7: a snapshot goes from one engine to another of the same size *)

Lemma length_Array_from {A} (n : Z) (f : Z → A) :
  Z.of_nat (length (Array_from n f)) = Z.max 0 n.
Proof.
  unfold Array_from. rewrite length_fmap, length_seqZ. lia.
Qed.

Lemma sized_new (size : Z) (firstPlayer : TicTacToePlayer) (e : Engine) :
  new_TicTacToeEngine size firstPlayer = Return e → 3 ≤ size ∧ sized size e.
Proof.
  unfold new_TicTacToeEngine. case_bool_decide; [done|].
  intros [= <-]. split; [lia|]. unfold sized; simpl.
  rewrite length_Array_from. repeat split. nia.
Qed.

Lemma loadSnapshot_outcome (external : TicTacToeSnapshot) (e : Engine) :
  loadSnapshot external e =
    if bool_decide (Z.of_nat (length (board external)) ≠ totalCells e)
    then (e, Throw SizeMismatch)
    else (MkEngine (boardSize e) (totalCells e) external, Return external).
Proof.
  run_method. case_bool_decide; [done|]. by destruct external.
Qed.

Lemma sized_invoke (size : Z) (c : call) (e : Engine) :
  sized size e → sized size (invoke c e).1.
Proof.
  intros (Hsize & Htotal & Hlen).
  assert (∀ idx, sized size (playMove idx e).1) as Hplay.
  { intros idx. destruct (playMove_state e idx) as [->|(_ & _ & _ & ->)];
      [done|].
    unfold sized, played; cbn [boardSize totalCells snapshot board].
    by rewrite length_assign. }
  destruct c as [firstPlayer|external|idx|]; simpl.
  - unfold sized; simpl. rewrite length_Array_from. repeat split; [done..|nia].
  - rewrite loadSnapshot_outcome. case_bool_decide as Hne; [done|].
    unfold sized; simpl. repeat split; [done..|].
    by destruct (decide (Z.of_nat (length (board external)) = totalCells e)).
  - apply Hplay.
  - destruct (autoPlay_state e) as [->|[m ->]]; [done|apply Hplay].
Qed.

Lemma sized_run (size : Z) (calls : list call) (e : Engine) :
  sized size e → sized size (run calls e).
Proof.
  apply (run_invariant (sized size) (λ _, true)).
  - intros c e' _. apply sized_invoke.
  - by induction calls.
Qed.

(** On an engine of size [size] the indices of cells are the integers of
    [[0, size²)]. *)
Lemma names_cell_sized (size : Z) (e : Engine) (idx : number) :
  sized size e →
  names_cell e idx ↔ ∃ z, idx = Int z ∧ 0 ≤ z < size * size.
Proof.
  intros (_ & Htotal & _). unfold names_cell. by rewrite Htotal.
Qed.

(** C7.  Take an engine of size [size] in any state that calls of its public
    methods lead to from its construction, and a second engine just built
    with the same size.  [loadSnapshot] of the snapshot that [getSnapshot]
    gives on the first returns, on the second, that very snapshot, and so does
    [getSnapshot] on the second engine afterwards. *)
Theorem loadSnapshot_of_getSnapshot
    (size : Z) (first first' : TicTacToePlayer) (e0 fresh : Engine)
    (calls : list call)
    (Hnew : new_TicTacToeEngine size first = Return e0)
    (Hfresh : new_TicTacToeEngine size first' = Return fresh) :
  ∃ s fresh',
    getSnapshot (run calls e0) = (run calls e0, Return s)
    ∧ loadSnapshot s fresh = (fresh', Return s)
    ∧ getSnapshot fresh' = (fresh', Return s).
Proof.
  apply sized_new in Hnew as [_ Hsized].
  apply (sized_run _ calls) in Hsized as (_ & Htotal & Hlen).
  apply sized_new in Hfresh as [_ (Hsize' & Htotal' & _)].
  exists (snapshot (run calls e0)),
         (MkEngine (boardSize fresh) (totalCells fresh) (snapshot (run calls e0))).
  split; [done|]. rewrite loadSnapshot_outcome.
  by rewrite bool_decide_eq_false_2 by (intros Hne; apply Hne; congruence).
Qed.

(** The won game of the specification, loaded by a new engine where O was to
    start. *)
Lemma loadSnapshot_of_getSnapshot_witness :
  ∃ s fresh',
    getSnapshot (run (CallPlayMove <$> [Int 0; Int 1; Int 3; Int 4; Int 6]) fresh3)
    = (run (CallPlayMove <$> [Int 0; Int 1; Int 3; Int 4; Int 6]) fresh3, Return s)
    ∧ loadSnapshot s (MkEngine 3 9 (createEmptySnapshot 9 O)) = (fresh', Return s)
    ∧ getSnapshot fresh' = (fresh', Return s).
Proof.
  apply (loadSnapshot_of_getSnapshot 3 X O); reflexivity.
Defined.

(** ** C1: what [evaluateBoard] calls a win *)

(** The lines of a 3 x 3 board, in the order of the scan. *)
Example computeWinningLines_3 :
  computeWinningLines 3
  = [[0; 1; 2]; [3; 4; 5]; [6; 7; 8];
     [0; 3; 6]; [1; 4; 7]; [2; 5; 8];
     [0; 4; 8]; [2; 4; 6]].
Proof. reflexivity. Qed.

(** Rows first, then columns, then the two diagonals; each line has
    [boardSize] indices. *)
Lemma computeWinningLines_order (n : Z) :
  computeWinningLines n
  = ((λ row, (λ idx, row * n + idx) <$> seqZ 0 n) <$> seqZ 0 n)
    ++ ((λ col, (λ idx, idx * n + col) <$> seqZ 0 n) <$> seqZ 0 n)
    ++ [(λ idx, idx * (n + 1)) <$> seqZ 0 n;
        (λ idx, (idx + 1) * (n - 1)) <$> seqZ 0 n].
Proof. reflexivity. Qed.

Lemma computeWinningLines_lengths (n : Z) :
  Forall (λ line, length line = Z.to_nat n) (computeWinningLines n).
Proof.
  unfold computeWinningLines, Array_from.
  repeat apply Forall_app_2; [apply Forall_fmap, Forall_true..|];
    [intros; simpl; by rewrite length_fmap, length_seqZ..|].
  repeat constructor; by rewrite length_fmap, length_seqZ.
Qed.

Lemma length_computeWinningLines (n : Z) :
  length (computeWinningLines n) = (2 * Z.to_nat n + 2)%nat.
Proof.
  unfold computeWinningLines.
  rewrite !length_app, !length_fmap, !length_seqZ. simpl. lia.
Qed.

(** The test of [evaluateBoard] looks at the first three indices of a line,
    whatever its length. *)
Lemma lineWinner_Some (brd : TicTacToeBoard) (line : list Z)
    (mark : TicTacToePlayer) :
  lineWinner brd line = Some mark ↔
  ∃ a b c rest, line = a :: b :: c :: rest
    ∧ element brd a = Some (Some mark)
    ∧ element brd b = Some (Some mark)
    ∧ element brd c = Some (Some mark).
Proof.
  unfold lineWinner. split.
  - destruct line as [|a [|b [|c rest]]]; simpl; try done.
    + destruct (element brd a) as [[m|]|]; [|done..].
      by rewrite bool_decide_eq_false_2.
    + destruct (element brd a) as [[m|]|] eqn:Ha; [|done..].
      case_bool_decide; [|done]. by rewrite bool_decide_eq_false_2.
    + destruct (element brd a) as [[m|]|] eqn:Ha; [|done..].
      case_bool_decide as Hb; [|done]. case_bool_decide as Hc; [|done].
      simpl. intros [= ->]. exists a, b, c, rest. by rewrite <-Hb, <-Hc.
  - intros (a & b & c & rest & -> & Ha & Hb & Hc). simpl.
    rewrite Ha, Hb, Hc. by rewrite !bool_decide_eq_true_2.
Qed.

(** The loop stops at the first line that passes the test. *)
Lemma scanLines_Some (brd : TicTacToeBoard) (lines : list (list Z))
    (mark : TicTacToePlayer) (line : list Z) :
  scanLines brd lines = Some (mark, line) ↔
  ∃ before after, lines = before ++ line :: after
    ∧ Forall (λ l, lineWinner brd l = None) before
    ∧ lineWinner brd line = Some mark.
Proof.
  induction lines as [|l lines IH]; simpl.
  - split; [done|]. intros (before & after & Heq & _).
    by destruct before.
  - destruct (lineWinner brd l) as [m|] eqn:Hl; split.
    + intros [= -> ->]. exists [], lines. by repeat split.
    + intros ([|l' before] & after & Heq & Hnone & Hwin).
      * injection Heq as -> ->. congruence.
      * injection Heq as -> ->. apply Forall_cons in Hnone as [Hnone _].
        congruence.
    + intros (before & after & -> & Hnone & Hwin)%IH.
      exists (l :: before), after. repeat split; [|done]. by constructor.
    + intros ([|l' before] & after & Heq & Hnone & Hwin).
      * injection Heq as -> ->. congruence.
      * injection Heq as -> ->. apply Forall_cons in Hnone as [_ Hnone].
        apply IH. by exists before, after.
Qed.

(** For any board size: a won result names a mark and a line of
    [computeWinningLines]; no line before it in the scan passes the test; and
    the first three cells of the line hold the mark. *)
Lemma evaluateBoard_won (n : Z) (brd : TicTacToeBoard) :
  ev_status (evaluateBoard n brd) = Won →
  ∃ mark line before after,
    evaluateBoard n brd = MkEvaluation Won (Some mark) (Some line)
    ∧ computeWinningLines n = before ++ line :: after
    ∧ Forall (λ l, lineWinner brd l = None) before
    ∧ length line = Z.to_nat n
    ∧ ∃ a b c rest, line = a :: b :: c :: rest
        ∧ element brd a = Some (Some mark)
        ∧ element brd b = Some (Some mark)
        ∧ element brd c = Some (Some mark).
Proof.
  unfold evaluateBoard.
  destruct (scanLines brd (computeWinningLines n)) as [[mark line]|] eqn:Hscan.
  - intros _. apply scanLines_Some in Hscan as (before & after & Heq & Hnone & Hwin).
    exists mark, line, before, after. repeat split; [done..| |by apply lineWinner_Some].
    pose proof (computeWinningLines_lengths n) as Hlen.
    rewrite Heq in Hlen. apply Forall_app in Hlen as [_ Hlen].
    by apply Forall_cons in Hlen as [Hlen _].
  - by case_match.
Qed.

(** On a 3 x 3 board the three cells the test looks at are the whole line:
    every cell of the winning line holds the winner's mark. *)
Lemma evaluateBoard_won_3 (brd : TicTacToeBoard) :
  ev_status (evaluateBoard 3 brd) = Won →
  ∃ mark line,
    evaluateBoard 3 brd = MkEvaluation Won (Some mark) (Some line)
    ∧ line ∈ computeWinningLines 3
    ∧ length line = 3%nat
    ∧ Forall (λ i, element brd i = Some (Some mark)) line.
Proof.
  intros (mark & line & before & after & Heval & Hlines & _ & Hlen & Hcells)%evaluateBoard_won.
  exists mark, line. split; [done|]. split.
  - rewrite Hlines. apply elem_of_app. right. by left.
  - split; [done|].
    destruct Hcells as (a & b & c & rest & -> & Ha & Hb & Hc).
    destruct rest; [|done]. by repeat constructor.
Qed.

(** So a snapshot that [playMove] returns on a 3 x 3 engine with status
    [Won] names a winner and one of the eight lines, and the three cells of
    that line hold the winner's mark. *)
Lemma playMove_won_3 (e e' : Engine) (idx : number) (s : TicTacToeSnapshot) :
  boardSize e = 3 →
  playMove idx e = (e', Return s) →
  status s = Won →
  ∃ mark line,
    winner s = Some mark
    ∧ winningLine s = Some line
    ∧ line ∈ computeWinningLines 3
    ∧ length line = 3%nat
    ∧ Forall (λ i, element (board s) i = Some (Some mark)) line.
Proof.
  intros Hsize. rewrite playMove_outcome.
  repeat case_match; try done. intros [= <- <-].
  unfold played; cbn [status winner winningLine board]. rewrite Hsize.
  intros (mark & line & -> & Hin & Hlen & Hcells)%evaluateBoard_won_3.
  by exists mark, line.
Qed.

(** C1.  On a 4 x 4 board the claim fails.  After the moves 0 (X), 4 (O),
    1 (X), 5 (O), 2 (X) the snapshot that [playMove] returns has status [Won],
    winner X and winning line 0, 1, 2, 3, the first row; cell 3 of that line
    is empty.  [evaluateBoard] destructures three indices out of the four of
    the line and tests those only. *)
Theorem won_line_4x4_has_an_empty_cell :
  new_TicTacToeEngine 4 X = Return fresh4
  ∧ (playMoves [Int 0; Int 4; Int 1; Int 5; Int 2] fresh4).2 !! 4%nat
    = Some (Return won4)
  ∧ status won4 = Won
  ∧ winner won4 = Some X
  ∧ winningLine won4 = Some [0; 1; 2; 3]
  ∧ [0; 1; 2; 3] ∈ computeWinningLines 4
  ∧ element (board won4) 3 = Some None.
Proof.
  conjuncts; try by vm_compute.
  vm_compute. by left.
Qed.

(** ** C10: what a snapshot handed to a caller shares with the engine *)

(** The snapshot object [cloneSnapshot] builds: the board and the history are
    new arrays, the winning line is the reference the engine holds, and the
    elements of the new history are the references to the move objects of the
    engine's history. *)
Lemma cloneSnapshot_object (st : Refs.State) :
  let s := Refs.store st in
  let o := Refs.snapshots s !!! Refs.snapshot (Refs.this st) in
  ∃ st' r o',
    Refs.cloneSnapshot st = (st', Return r)
    ∧ Refs.this st' = Refs.this st
    ∧ r = length (Refs.snapshots s)
    ∧ Refs.snapshots (Refs.store st') = Refs.snapshots s ++ [o']
    ∧ Refs.board o' = length (Refs.boards s)
    ∧ Refs.history o' = length (Refs.histories s)
    ∧ Refs.winningLine o' = Refs.winningLine o
    ∧ Refs.lines (Refs.store st') = Refs.lines s
    ∧ Refs.moves (Refs.store st') = Refs.moves s
    ∧ Refs.boards (Refs.store st')
      = Refs.boards s ++ [Refs.boards s !!! Refs.board o]
    ∧ Refs.histories (Refs.store st')
      = Refs.histories s ++ [Refs.histories s !!! Refs.history o].
Proof.
  intros s o. do 3 eexists. split; [reflexivity|]. by conjuncts.
Qed.

(** C10.  The claim fails on the winning line.  A 3 x 3 engine plays the game
    0, 1, 3, 4, 6, which X wins on the line 0, 3, 6; the caller takes the
    snapshot [taken] with [getSnapshot] and assigns
    [taken.winningLine[0] = 99].  The snapshot object [taken] is not the
    engine's, and yet the winning line of the snapshot the engine owns, and of
    the snapshot it returns next, is 99, 3, 6: [cloneSnapshot] copies the
    reference to the array, not the array. *)
Theorem returned_snapshot_shares_winningLine :
  Refs.new_TicTacToeEngine 3 X Refs.empty_store = Return host0
  ∧ Refs.getSnapshot host_won = (host_seen, Return taken)
  ∧ taken ≠ Refs.snapshot (Refs.this host_seen)
  ∧ winningLine (Refs.owned host_seen) = Some [0; 3; 6]
  ∧ Refs.caller_writes_winningLine taken (Int 0) 99 host_seen
    = (host_touched, Return tt)
  ∧ Refs.this host_touched = Refs.this host_seen
  ∧ winningLine (Refs.owned host_touched) = Some [99; 3; 6]
  ∧ winningLine (Refs.view (Refs.store (Refs.getSnapshot host_touched).1)
                   (length (Refs.snapshots (Refs.store host_touched))))
    = Some [99; 3; 6]
  ∧ (Refs.getSnapshot host_touched).2
    = Return (length (Refs.snapshots (Refs.store host_touched))).
Proof.
  conjuncts; by vm_compute.
Qed.

(** The same sharing through the history: the caller assigns
    [taken.history[0].index = 7] and the first move of the engine's own
    history changes with it.  Writing to the board of [taken] changes nothing
    in the engine: that array is copied. *)
Example returned_snapshot_shares_moves :
  history (Refs.owned host_seen)
  = [Move (Int 0) X; Move (Int 1) O; Move (Int 3) X; Move (Int 4) O;
     Move (Int 6) X]
  ∧ history (Refs.owned
               (Refs.caller_writes_move_index taken 0 (Int 7) host_seen).1)
    = [Move (Int 7) X; Move (Int 1) O; Move (Int 3) X; Move (Int 4) O;
       Move (Int 6) X]
  ∧ Refs.owned (Refs.caller_writes_board taken (Int 8) (Some O) host_seen).1
    = Refs.owned host_seen.
Proof.
  conjuncts; by vm_compute.
Qed.

(** ** C6: [loadSnapshot] *)

(** By value: [loadSnapshot] throws [SizeMismatch] exactly when the board of
    the external snapshot has not [totalCells] cells, and the engine is then
    unchanged; otherwise the external snapshot, whatever it holds, becomes the
    snapshot of the engine and is returned. *)
Lemma loadSnapshot_by_value (external : TicTacToeSnapshot) (e : Engine) :
  (loadSnapshot external e = (e, Throw SizeMismatch)
   ↔ Z.of_nat (length (board external)) ≠ totalCells e)
  ∧ (Z.of_nat (length (board external)) = totalCells e →
     loadSnapshot external e
     = (MkEngine (boardSize e) (totalCells e) external, Return external)).
Proof.
  rewrite loadSnapshot_outcome. case_bool_decide as Hne.
  - split; [tauto|]. intros Heq. by destruct Hne.
  - split; [|done]. split; [by intros [=]|].
    intros Hne'. destruct Hne.
    by destruct (decide (Z.of_nat (length (board external)) = totalCells e)).
Qed.

(** With references: the snapshot object [loadSnapshot] installs has a new
    board and a new history, and the winning line of the external object, by
    reference. *)
Lemma loadSnapshot_object (external : Refs.ref) (st : Refs.State) :
  let s := Refs.store st in
  let o := Refs.snapshots s !!! external in
  Z.of_nat (length (Refs.boards s !!! Refs.board o))
  = Refs.totalCells (Refs.this st) →
  ∃ st1 o1,
    Refs.loadSnapshot external st = Refs.cloneSnapshot st1
    ∧ Refs.snapshots (Refs.store st1) = Refs.snapshots s ++ [o1]
    ∧ Refs.snapshot (Refs.this st1) = length (Refs.snapshots s)
    ∧ Refs.board o1 = length (Refs.boards s)
    ∧ Refs.history o1 = length (Refs.histories s)
    ∧ Refs.winningLine o1 = Refs.winningLine o
    ∧ Refs.lines (Refs.store st1) = Refs.lines s
    ∧ Refs.moves (Refs.store st1) = Refs.moves s
    ∧ Refs.histories (Refs.store st1)
      = Refs.histories s ++ [Refs.histories s !!! Refs.history o].
Proof.
  intros s o Hsize. subst s o.
  unfold Refs.loadSnapshot, Refs.get_this, Refs.read_snapshot, Refs.read_board,
    bind.
  rewrite bool_decide_eq_false_2 by (intros Hne; by apply Hne).
  do 2 eexists. split; [reflexivity|]. by conjuncts.
Qed.

(** C6.  The claim fails on the copy.  A host engine plays the won game and
    hands out the snapshot [taken]; a guest engine of the same size loads it.
    The guest then owns the game with the winning line 0, 3, 6.  When the
    caller assigns [taken.winningLine[0] = 99] in the snapshot it passed, the
    winning line of the guest's own snapshot becomes 99, 3, 6: [loadSnapshot]
    copies the board and the history arrays and keeps the reference to the
    line. *)
Theorem loaded_snapshot_shares_winningLine :
  Refs.new_TicTacToeEngine 3 O (Refs.store host_seen) = Return guest0
  ∧ Refs.loadSnapshot taken guest0
    = (guest_loaded, Return (length (Refs.snapshots (Refs.store guest_loaded)) - 1)%nat)
  ∧ Refs.owned guest_loaded = snapshot x_has_won
  ∧ Refs.caller_writes_winningLine taken (Int 0) 99 guest_loaded
    = (guest_touched, Return tt)
  ∧ Refs.this guest_touched = Refs.this guest_loaded
  ∧ taken ≠ Refs.snapshot (Refs.this guest_loaded)
  ∧ winningLine (Refs.owned guest_touched) = Some [99; 3; 6].
Proof.
  conjuncts; by vm_compute.
Qed.

(** ** The layer with references does what the layer by value does *)

Lemma extends_refl (s : Refs.Store) : extends s s.
Proof. by repeat split. Qed.

Lemma extends_trans (s1 s2 s3 : Refs.Store) :
  extends s1 s2 → extends s2 s3 → extends s1 s3.
Proof.
  intros (?&?&?&?&?) (?&?&?&?&?). repeat split; by etrans.
Qed.

(** The value of a snapshot object, from what its references name. *)
Lemma view_lookup (s : Refs.Store) (r : Refs.ref) (o : Refs.SnapshotObject)
    (cells : TicTacToeBoard) (elems : list Refs.ref) :
  Refs.snapshots s !! r = Some o →
  Refs.boards s !! Refs.board o = Some cells →
  Refs.histories s !! Refs.history o = Some elems →
  Refs.view s r
  = Snapshot cells (Refs.status o) (Refs.currentPlayer o) (Refs.winner o)
      ((λ l, Refs.lines s !!! l) <$> Refs.winningLine o)
      (Refs.moveCount o)
      ((λ m, Refs.moves s !!! m) <$> elems).
Proof.
  intros Ho Hc He. unfold Refs.view.
  rewrite (list_lookup_total_correct _ _ _ Ho).
  rewrite (list_lookup_total_correct _ _ _ Hc).
  by rewrite (list_lookup_total_correct _ _ _ He).
Qed.

Lemma prefix_lookup_total `{!Inhabited A} (l1 l2 : list A) (i : nat) :
  l1 `prefix_of` l2 → is_Some (l1 !! i) → l2 !!! i = l1 !!! i.
Proof.
  intros Hpre [x Hx].
  rewrite (list_lookup_total_correct _ _ _ Hx).
  apply list_lookup_total_correct. by eapply prefix_lookup_Some.
Qed.

(** Adding objects to the store changes neither that a snapshot is
    well-formed nor its value. *)
Lemma view_extends (s s' : Refs.Store) (r : Refs.ref) :
  well_formed s r → extends s s' →
  well_formed s' r ∧ Refs.view s' r = Refs.view s r.
Proof.
  intros (o & cells & elems & Ho & Hc & He & Hl & Hm) (Hb & Hls & Hh & Hms & Hs).
  split.
  - exists o, cells, elems.
    split; [by eapply prefix_lookup_Some|].
    split; [by eapply prefix_lookup_Some|].
    split; [by eapply prefix_lookup_Some|]. split.
    + intros l [x Hx]%Hl. exists x. by eapply prefix_lookup_Some.
    + eapply Forall_impl; [exact Hm|]. intros m [x Hx]. exists x.
      by eapply prefix_lookup_Some.
  - rewrite (view_lookup s r o cells elems) by done.
    rewrite (view_lookup s' r o cells elems)
      by (by eapply prefix_lookup_Some).
    f_equal.
    + destruct (Refs.winningLine o) as [l|]; [|done]. simpl. f_equal.
      apply prefix_lookup_total; auto.
    + apply Forall_fmap_ext_1. eapply Forall_impl; [exact Hm|].
      intros m Hx. simpl. by apply prefix_lookup_total.
Qed.

Lemma Refs_cloneSnapshot_run (st : Refs.State) o cells elems :
  Refs.snapshots (Refs.store st) !! Refs.snapshot (Refs.this st) = Some o →
  Refs.boards (Refs.store st) !! Refs.board o = Some cells →
  Refs.histories (Refs.store st) !! Refs.history o = Some elems →
  Refs.cloneSnapshot st
  = (Refs.MkState
       (Refs.MkStore
          (Refs.boards (Refs.store st) ++ [cells])
          (Refs.lines (Refs.store st))
          (Refs.histories (Refs.store st) ++ [elems])
          (Refs.moves (Refs.store st))
          (Refs.snapshots (Refs.store st)
             ++ [Refs.MkSnapshotObject
                   (length (Refs.boards (Refs.store st)))
                   (Refs.status o) (Refs.currentPlayer o) (Refs.winner o)
                   (Refs.winningLine o) (Refs.moveCount o)
                   (length (Refs.histories (Refs.store st)))]))
       (Refs.this st),
     Return (length (Refs.snapshots (Refs.store st)))).
Proof.
  intros Ho Hc He.
  unfold Refs.cloneSnapshot, bind, Refs.get_this, Refs.read_snapshot,
    Refs.read_board, Refs.new_board, Refs.read_history, Refs.new_history,
    Refs.new_snapshot.
  cbn [Refs.store Refs.this Refs.boards Refs.lines Refs.histories Refs.moves Refs.snapshots].
  rewrite (list_lookup_total_correct _ _ _ Ho).
  rewrite (list_lookup_total_correct _ _ _ Hc).
  rewrite (list_lookup_total_correct _ _ _ He).
  reflexivity.
Qed.

Lemma lookup_snoc_length {A} (l : list A) (x : A) :
  (l ++ [x]) !! length l = Some x.
Proof. by rewrite lookup_app_r, Nat.sub_diag by lia. Qed.

Lemma is_Some_lookup_app_l {A} (l k : list A) (i : nat) :
  is_Some (l !! i) → is_Some ((l ++ k) !! i).
Proof.
  intros [x Hx]. exists x. by apply lookup_app_l_Some.
Qed.

Lemma sim_cloneSnapshot : simulates Refs.cloneSnapshot cloneSnapshot.
Proof.
  intros st Hwf. pose proof Hwf as (o & cells & elems & Ho & Hc & He & Hl & Hm).
  rewrite (Refs_cloneSnapshot_run st o cells elems) by done.
  cbn [fst snd Refs.store Refs.this cloneSnapshot].
  set (s' := Refs.MkStore _ _ _ _ _).
  assert (extends (Refs.store st) s') as Hext.
  { repeat split; simpl; try done; by apply prefix_app_r. }
  destruct (view_extends _ _ _ Hwf Hext) as [Hwf' Hview].
  split; [done|]. split; [done|].
  split; [unfold value_of, Refs.owned; simpl; by rewrite Hview|].
  simpl. split.
  - eexists _, cells, elems. simpl.
    split; [apply lookup_snoc_length|]. simpl.
    split; [apply lookup_snoc_length|].
    split; [apply lookup_snoc_length|]. by split.
  - unfold Refs.owned.
    rewrite (view_lookup _ _ o cells elems Ho Hc He).
    erewrite view_lookup; [|apply lookup_snoc_length|apply lookup_snoc_length..].
    reflexivity.
Qed.

Ltac run_refs :=
  unfold Refs.playMove, Refs.assertMoveIsAllowed, Refs.evaluateBoard,
    Refs.loadSnapshot, Refs.reset, Refs.createEmptySnapshot, Refs.autoPlay,
    Refs.set_snapshot, Refs.get_this,
    Refs.read_snapshot, Refs.read_board, Refs.read_history,
    Refs.new_board, Refs.new_history, Refs.new_move,
    Refs.new_line, Refs.new_snapshot, Refs.write_board,
    bind, ret, throw;
  cbn [fst snd Refs.store Refs.this Refs.boards Refs.lines Refs.histories
       Refs.moves Refs.snapshots Refs.boardSize Refs.totalCells Refs.snapshot].

Lemma bind_Return {S A B} (m : method S A) (k : A → method S B) (s s' : S) (a : A) :
  m s = (s', Return a) → bind m k s = k a s'.
Proof. intros H. unfold bind. by rewrite H. Qed.

Lemma bind_Throw {S A B} (m : method S A) (k : A → method S B) (s s' : S) e :
  m s = (s', Throw e) → bind m k s = (s', Throw e).
Proof. intros H. unfold bind. by rewrite H. Qed.

Lemma Refs_assertMoveIsAllowed_cases (st : Refs.State) (idx : number) o cells :
  Refs.snapshots (Refs.store st) !! Refs.snapshot (Refs.this st) = Some o →
  Refs.boards (Refs.store st) !! Refs.board o = Some cells →
  Refs.assertMoveIsAllowed idx st =
    (st, if bool_decide (Refs.status o ≠ InProgress)
         then Throw GameNotInProgress
         else if negb (isInteger idx) || negb (number_ge idx 0)
                 || negb (number_lt idx (Refs.totalCells (Refs.this st)))
         then Throw IndexOutOfRange
         else if bool_decide (element_at cells idx ≠ Some None)
         then Throw CellOccupied
         else Return tt).
Proof.
  intros Ho Hc. run_refs.
  rewrite !(list_lookup_total_correct _ _ _ Ho).
  case_bool_decide; [done|].
  destruct (negb (isInteger idx) || _ || _); [done|].
  cbn [Refs.store Refs.boards].
  rewrite !(list_lookup_total_correct _ _ _ Hc).
  by case_bool_decide.
Qed.

Lemma alter_snoc {A} (f : A → A) (l : list A) (x : A) :
  alter f (length l) (l ++ [x]) = l ++ [f x].
Proof.
  rewrite <-(Nat.add_0_r (length l)) at 1. by rewrite alter_app_r.
Qed.

Lemma lookup_total_snoc_length `{!Inhabited A} (l : list A) (x : A) :
  (l ++ [x]) !!! length l = x.
Proof. apply list_lookup_total_correct, lookup_snoc_length. Qed.

Lemma fmap_lookup_total_snoc `{!Inhabited A} (l : list A) (x : A) (elems : list nat) :
  Forall (λ m, is_Some (l !! m)) elems →
  (λ m, (l ++ [x]) !!! m) <$> elems = (λ m, l !!! m) <$> elems.
Proof.
  intros H. apply Forall_fmap_ext_1. eapply Forall_impl; [exact H|].
  intros m Hm. simpl. apply prefix_lookup_total; [by apply prefix_app_r|done].
Qed.

Lemma Refs_playMove_accepted (st : Refs.State) (idx : number) o cells elems :
  Refs.snapshots (Refs.store st) !! Refs.snapshot (Refs.this st) = Some o →
  Refs.boards (Refs.store st) !! Refs.board o = Some cells →
  Refs.histories (Refs.store st) !! Refs.history o = Some elems →
  (∀ l, Refs.winningLine o = Some l → is_Some (Refs.lines (Refs.store st) !! l)) →
  Forall (λ m, is_Some (Refs.moves (Refs.store st) !! m)) elems →
  Refs.assertMoveIsAllowed idx st = (st, Return tt) →
  ∃ st1, Refs.playMove idx st = Refs.cloneSnapshot st1
    ∧ extends (Refs.store st) (Refs.store st1)
    ∧ well_formed (Refs.store st1) (Refs.snapshot (Refs.this st1))
    ∧ value_of st1
      = MkEngine (Refs.boardSize (Refs.this st)) (Refs.totalCells (Refs.this st))
          (played (value_of st) idx).
Proof.
  intros Ho Hc He Hl Hm Hassert.
  unfold Refs.playMove. rewrite (bind_Return _ _ _ _ _ Hassert).
  assert (Refs.owned st
          = Snapshot cells (Refs.status o) (Refs.currentPlayer o) (Refs.winner o)
              ((λ l, Refs.lines (Refs.store st) !!! l) <$> Refs.winningLine o)
              (Refs.moveCount o)
              ((λ m, Refs.moves (Refs.store st) !!! m) <$> elems)) as Hown.
  { by apply view_lookup. }
  unfold value_of, played. rewrite Hown.
  cbn [snapshot board status currentPlayer winner winningLine moveCount history
       boardSize totalCells].
  destruct st as [[bs ls hs ms sns] [n t r]].
  cbn [Refs.store Refs.this Refs.boards Refs.lines Refs.histories
       Refs.moves Refs.snapshots Refs.boardSize Refs.totalCells Refs.snapshot]
    in *.
  run_refs.
  rewrite !(list_lookup_total_correct _ _ _ Ho).
  rewrite !(list_lookup_total_correct _ _ _ Hc).
  rewrite !(list_lookup_total_correct _ _ _ He).
  rewrite !alter_snoc, !lookup_total_snoc_length.
  unfold evaluateBoard.
  set (cells' := assign cells idx (Some (Refs.currentPlayer o))).
  destruct (scanLines cells' (computeWinningLines n)) as [[mark line]|] eqn:Hscan;
    [|destruct (forallb _ cells')].
  all: eexists; (split; [reflexivity|]).
  all: cbn [Refs.store Refs.this Refs.boards Refs.lines Refs.histories
         Refs.moves Refs.snapshots Refs.boardSize Refs.totalCells Refs.snapshot
         Refs.ev_status Refs.ev_winner Refs.ev_winningLine
         ev_status ev_winner ev_winningLine].
  all: split; [repeat split; simpl; first [reflexivity | by apply prefix_app_r]|].
  all: split.
  all: try (f_equal; unfold Refs.owned; cbn [Refs.store Refs.this Refs.snapshot];
            erewrite view_lookup;
              [|apply lookup_snoc_length|apply lookup_snoc_length..];
            cbn [Refs.status Refs.currentPlayer Refs.winner Refs.winningLine
                 Refs.moveCount Refs.lines Refs.moves];
            rewrite fmap_app, fmap_lookup_total_snoc by done;
            simpl; by rewrite ?lookup_total_snoc_length).
  all: eexists _, _, _; (split; [apply lookup_snoc_length|]); simpl;
       (split; [apply lookup_snoc_length|]);
       (split; [apply lookup_snoc_length|]); split.
  all: try (intros l Hl'; simplify_eq; rewrite ?lookup_snoc_length; by eexists).
  all: apply Forall_app; split;
       [ eapply Forall_impl; [exact Hm|]; intros m; apply is_Some_lookup_app_l
       | constructor; [|done]; rewrite lookup_snoc_length; by eexists ].
Qed.

(** A method that ends with [cloneSnapshot]. *)
Lemma simulates_then_clone (byref : method Refs.State Refs.ref)
    (byvalue : method Engine TicTacToeSnapshot) (st st1 : Refs.State) :
  byref st = Refs.cloneSnapshot st1 →
  byvalue (value_of st) = (value_of st1, Return (snapshot (value_of st1))) →
  extends (Refs.store st) (Refs.store st1) →
  well_formed (Refs.store st1) (Refs.snapshot (Refs.this st1)) →
  extends (Refs.store st) (Refs.store (byref st).1)
  ∧ well_formed (Refs.store (byref st).1)
                (Refs.snapshot (Refs.this (byref st).1))
  ∧ value_of (byref st).1 = (byvalue (value_of st)).1
  ∧ agrees (Refs.store (byref st).1) (byref st).2 (byvalue (value_of st)).2.
Proof.
  intros -> -> Hext Hwf.
  destruct (sim_cloneSnapshot st1 Hwf) as (Hext' & Hwf' & Hval & Hagree).
  split; [by eapply extends_trans|]. split; [done|]. by split.
Qed.

Lemma simulates_throw (byref : method Refs.State Refs.ref)
    (byvalue : method Engine TicTacToeSnapshot) (st : Refs.State) err :
  byref st = (st, Throw err) →
  byvalue (value_of st) = (value_of st, Throw err) →
  well_formed (Refs.store st) (Refs.snapshot (Refs.this st)) →
  extends (Refs.store st) (Refs.store (byref st).1)
  ∧ well_formed (Refs.store (byref st).1)
                (Refs.snapshot (Refs.this (byref st).1))
  ∧ value_of (byref st).1 = (byvalue (value_of st)).1
  ∧ agrees (Refs.store (byref st).1) (byref st).2 (byvalue (value_of st)).2.
Proof.
  intros -> -> Hwf. split; [apply extends_refl|]. by repeat split.
Qed.

Lemma sim_playMove (idx : number) : simulates (Refs.playMove idx) (playMove idx).
Proof.
  intros st Hwf. pose proof Hwf as (o & cells & elems & Ho & Hc & He & Hl & Hm).
  pose proof (Refs_assertMoveIsAllowed_cases st idx o cells Ho Hc) as Hassert.
  pose proof (playMove_outcome (value_of st) idx) as Hvalue.
  change (totalCells (value_of st)) with (Refs.totalCells (Refs.this st))
    in Hvalue.
  change (boardSize (value_of st)) with (Refs.boardSize (Refs.this st))
    in Hvalue.
  change (snapshot (value_of st)) with (Refs.owned st) in Hvalue.
  unfold Refs.owned in Hvalue.
  rewrite (view_lookup _ _ o cells elems Ho Hc He) in Hvalue.
  cbn [status board] in Hvalue.
  destruct (bool_decide (Refs.status o ≠ InProgress)).
  { apply (simulates_throw _ _ _ GameNotInProgress); [|done..].
    unfold Refs.playMove. by apply bind_Throw. }
  destruct (negb (isInteger idx) || _ || _).
  { apply (simulates_throw _ _ _ IndexOutOfRange); [|done..].
    unfold Refs.playMove. by apply bind_Throw. }
  destruct (bool_decide (element_at cells idx ≠ Some None)).
  { apply (simulates_throw _ _ _ CellOccupied); [|done..].
    unfold Refs.playMove. by apply bind_Throw. }
  destruct (Refs_playMove_accepted st idx o cells elems Ho Hc He Hl Hm Hassert)
    as (st1 & Hrun & Hext & Hwf1 & Hval1).
  apply (simulates_then_clone _ _ st st1); [done| |done..].
  rewrite Hvalue, Hval1. reflexivity.
Qed.

Lemma sim_getSnapshot : simulates Refs.getSnapshot getSnapshot.
Proof. exact sim_cloneSnapshot. Qed.

(** The snapshot object [createEmptySnapshot] builds is well-formed and has
    the value of the empty snapshot. *)
Lemma Refs_createEmptySnapshot_run (firstPlayer : TicTacToePlayer)
    (st : Refs.State) :
  ∃ st1, (let! r := Refs.createEmptySnapshot firstPlayer in
          Refs.set_snapshot r)%method st = (st1, Return tt)
    ∧ extends (Refs.store st) (Refs.store st1)
    ∧ well_formed (Refs.store st1) (Refs.snapshot (Refs.this st1))
    ∧ value_of st1
      = MkEngine (Refs.boardSize (Refs.this st)) (Refs.totalCells (Refs.this st))
          (createEmptySnapshot (Refs.totalCells (Refs.this st)) firstPlayer).
Proof.
  destruct st as [[bs ls hs ms sns] [n t r]].
  eexists. split; [reflexivity|].
  cbn [Refs.store Refs.this Refs.boards Refs.lines Refs.histories
       Refs.moves Refs.snapshots Refs.boardSize Refs.totalCells Refs.snapshot].
  split; [repeat split; simpl; first [reflexivity | by apply prefix_app_r]|].
  split.
  - eexists _, _, _. split; [apply lookup_snoc_length|]. simpl.
    split; [apply lookup_snoc_length|].
    split; [apply lookup_snoc_length|]. by split.
  - unfold value_of, Refs.owned.
    cbn [Refs.store Refs.this Refs.boardSize Refs.totalCells Refs.snapshot].
    f_equal.
    erewrite view_lookup; [|apply lookup_snoc_length|apply lookup_snoc_length..].
    reflexivity.
Qed.

Lemma sim_reset (firstPlayer : TicTacToePlayer) :
  simulates (Refs.reset firstPlayer) (reset firstPlayer).
Proof.
  intros st Hwf.
  destruct (Refs_createEmptySnapshot_run firstPlayer st)
    as (st1 & Hrun & Hext & Hwf1 & Hval1).
  apply (simulates_then_clone _ _ st st1); [| |done..].
  - unfold Refs.reset.
    unfold bind in Hrun |- *.
    destruct (Refs.createEmptySnapshot firstPlayer st) as [st0 [r|e]]; [|done].
    by rewrite Hrun.
  - by rewrite Hval1.
Qed.

(** [loadSnapshot] of a well-formed snapshot of the store. *)
Lemma sim_loadSnapshot (external : Refs.ref) (st : Refs.State) :
  well_formed (Refs.store st) (Refs.snapshot (Refs.this st)) →
  well_formed (Refs.store st) external →
  let byref := Refs.loadSnapshot external in
  let byvalue := loadSnapshot (Refs.view (Refs.store st) external) in
  extends (Refs.store st) (Refs.store (byref st).1)
  ∧ well_formed (Refs.store (byref st).1)
                (Refs.snapshot (Refs.this (byref st).1))
  ∧ value_of (byref st).1 = (byvalue (value_of st)).1
  ∧ agrees (Refs.store (byref st).1) (byref st).2 (byvalue (value_of st)).2.
Proof.
  intros Hwf (o & cells & elems & Ho & Hc & He & Hl & Hm) byref byvalue.
  subst byref byvalue.
  pose proof (loadSnapshot_outcome (Refs.view (Refs.store st) external)
                (value_of st)) as Hvalue.
  rewrite (view_lookup _ _ o cells elems Ho Hc He) in Hvalue |- *.
  cbn [board] in Hvalue.
  change (totalCells (value_of st)) with (Refs.totalCells (Refs.this st))
    in Hvalue.
  change (boardSize (value_of st)) with (Refs.boardSize (Refs.this st))
    in Hvalue.
  destruct (bool_decide (Z.of_nat (length cells)
                         ≠ Refs.totalCells (Refs.this st))) eqn:Hsize.
  - apply (simulates_throw _ _ _ SizeMismatch); [|done..].
    destruct st as [[bs ls hs ms sns] [n t r]].
    cbn [Refs.store Refs.this Refs.boards Refs.lines Refs.histories
         Refs.moves Refs.snapshots Refs.boardSize Refs.totalCells Refs.snapshot]
      in *.
    run_refs.
    rewrite !(list_lookup_total_correct _ _ _ Ho).
    rewrite !(list_lookup_total_correct _ _ _ Hc).
    by rewrite Hsize.
  - apply (simulates_then_clone (Refs.loadSnapshot external) (loadSnapshot _) st
             (Refs.MkState
                (Refs.MkStore
                   (Refs.boards (Refs.store st) ++ [cells])
                   (Refs.lines (Refs.store st))
                   (Refs.histories (Refs.store st) ++ [elems])
                   (Refs.moves (Refs.store st))
                   (Refs.snapshots (Refs.store st)
                      ++ [Refs.MkSnapshotObject
                            (length (Refs.boards (Refs.store st)))
                            (Refs.status o) (Refs.currentPlayer o)
                            (Refs.winner o) (Refs.winningLine o)
                            (Refs.moveCount o)
                            (length (Refs.histories (Refs.store st)))]))
                (Refs.MkEngine (Refs.boardSize (Refs.this st))
                               (Refs.totalCells (Refs.this st))
                               (length (Refs.snapshots (Refs.store st)))))).
    + run_refs.
      rewrite !(list_lookup_total_correct _ _ _ Ho).
      rewrite !(list_lookup_total_correct _ _ _ Hc).
      rewrite Hsize.
      cbn [Refs.store Refs.this Refs.boards Refs.lines Refs.histories
           Refs.moves Refs.snapshots].
      rewrite !(list_lookup_total_correct _ _ _ He).
      reflexivity.
    + rewrite Hvalue. unfold value_of, Refs.owned.
      cbn [Refs.store Refs.this Refs.boardSize Refs.totalCells Refs.snapshot].
      erewrite view_lookup; [|apply lookup_snoc_length|apply lookup_snoc_length..].
      reflexivity.
    + repeat split; simpl; first [reflexivity | by apply prefix_app_r].
    + eexists _, _, _. split; [apply lookup_snoc_length|]. simpl.
      split; [apply lookup_snoc_length|].
      split; [apply lookup_snoc_length|]. by split.
Qed.

Lemma sim_autoPlay : simulates Refs.autoPlay autoPlay.
Proof.
  intros st Hwf. pose proof Hwf as (o & cells & elems & Ho & Hc & He & Hl & Hm).
  set (moves := filter (λ idx, idx ≠ -1)
                  (imap (λ idx cell,
                           if bool_decide (cell = None) then Z.of_nat idx else -1)
                        cells)).
  assert (Refs.autoPlay st = match head moves with
                             | None => (st, Throw NoMovesAvailable)
                             | Some nextMove => Refs.playMove (Int nextMove) st
                             end) as Hbyref.
  { unfold Refs.autoPlay, Refs.get_this, Refs.read_snapshot, Refs.read_board,
      bind, throw.
    rewrite !(list_lookup_total_correct _ _ _ Ho).
    rewrite !(list_lookup_total_correct _ _ _ Hc).
    fold moves. by destruct (head moves). }
  assert (autoPlay (value_of st)
          = match head moves with
            | None => (value_of st, Throw NoMovesAvailable)
            | Some nextMove => playMove (Int nextMove) (value_of st)
            end) as Hbyvalue.
  { apply autoPlay_cases. unfold getAvailableMoves, bind, get, ret.
    change (snapshot (value_of st)) with (Refs.owned st). unfold Refs.owned.
    by rewrite (view_lookup _ _ o cells elems Ho Hc He). }
  rewrite Hbyref, Hbyvalue.
  destruct (head moves) as [m|].
  - by apply sim_playMove.
  - split; [apply extends_refl|]. by repeat split.
Qed.

(** The constructor. *)
Lemma sim_new_TicTacToeEngine (size : Z) (firstPlayer : TicTacToePlayer)
    (s : Refs.Store) :
  match Refs.new_TicTacToeEngine size firstPlayer s,
        new_TicTacToeEngine size firstPlayer with
  | Return st, Return e =>
      extends s (Refs.store st)
      ∧ well_formed (Refs.store st) (Refs.snapshot (Refs.this st))
      ∧ value_of st = e
  | Throw a, Throw b => a = b
  | _, _ => False
  end.
Proof.
  unfold Refs.new_TicTacToeEngine, new_TicTacToeEngine.
  case_bool_decide; [done|].
  destruct (Refs_createEmptySnapshot_run firstPlayer
              (Refs.MkState s (Refs.MkEngine size (size * size) 0%nat)))
    as (st1 & Hrun & Hext & Hwf1 & Hval1).
  rewrite Hrun. split; [exact Hext|]. split; [exact Hwf1|exact Hval1].
Qed.

(** A run of [playMove] calls. *)
Lemma sim_playMoves (idxs : list number) (st : Refs.State) :
  well_formed (Refs.store st) (Refs.snapshot (Refs.this st)) →
  well_formed (Refs.store (Refs.playMoves idxs st))
              (Refs.snapshot (Refs.this (Refs.playMoves idxs st)))
  ∧ value_of (Refs.playMoves idxs st) = (playMoves idxs (value_of st)).1.
Proof.
  revert st. induction idxs as [|idx idxs IH]; intros st Hwf; [done|].
  destruct (sim_playMove idx st Hwf) as (_ & Hwf' & Hval & _).
  cbn [Refs.playMoves playMoves].
  destruct (IH _ Hwf') as [Hwf'' Hval'']. split; [done|].
  rewrite Hval'', Hval.
  destruct (playMove idx (value_of st)) as [e1 r1]. simpl.
  by destruct (playMoves idxs e1).
Qed.

(** A game played from the constructor on, in both layers. *)
Corollary sim_game (size : Z) (firstPlayer : TicTacToePlayer)
    (idxs : list number) (s : Refs.Store) (st : Refs.State) :
  Refs.new_TicTacToeEngine size firstPlayer s = Return st →
  ∃ e, new_TicTacToeEngine size firstPlayer = Return e
    ∧ value_of (Refs.playMoves idxs st) = (playMoves idxs e).1.
Proof.
  intros Hnew. pose proof (sim_new_TicTacToeEngine size firstPlayer s) as Hsim.
  rewrite Hnew in Hsim.
  destruct (new_TicTacToeEngine size firstPlayer) as [e|]; [|done].
  destruct Hsim as (_ & Hwf & <-). exists (value_of st). split; [done|].
  by apply sim_playMoves.
Qed.

(** * The engine from the constructor on *)

Lemma invoke_state (c : call) (e : Engine) :
  plays c = true →
  (invoke c e).1 = e
  ∨ (∃ firstPlayer,
       (invoke c e).1
       = MkEngine (boardSize e) (totalCells e)
           (createEmptySnapshot (totalCells e) firstPlayer))
  ∨ (∃ z, status (snapshot e) = InProgress
        ∧ 0 ≤ z < totalCells e
        ∧ element (board (snapshot e)) z = Some None
        ∧ (invoke c e).1
          = MkEngine (boardSize e) (totalCells e) (played e (Int z))).
Proof.
  assert (∀ idx, (playMove idx e).1 = e
     ∨ (∃ z, status (snapshot e) = InProgress
        ∧ 0 ≤ z < totalCells e
        ∧ element (board (snapshot e)) z = Some None
        ∧ (playMove idx e).1
          = MkEngine (boardSize e) (totalCells e) (played e (Int z)))) as Hplay.
  { intros idx.
    destruct (playMove_state e idx) as [->|(Hst & (z & -> & Hz) & Hfree & ->)];
      [by left|].
    right. by exists z. }
  destruct c as [firstPlayer|external|idx|]; [|done| |]; intros _.
  - right. left. by exists firstPlayer.
  - destruct (Hplay idx) as [?|?]; auto.
  - simpl. destruct (autoPlay_state e) as [->|[m ->]]; [by left|].
    destruct (Hplay (Int m)) as [?|?]; auto.
Qed.

(** Induction over a game: what holds of a new engine, is kept by a reset
    and is kept by an accepted move, holds after any sequence of [reset],
    [playMove] and [autoPlay] calls. *)
Lemma game_invariant (P : Engine → Prop) (size : Z)
    (firstPlayer : TicTacToePlayer) (e0 : Engine) (calls : list call) :
  (∀ p, 3 ≤ size →
        P (MkEngine size (size * size) (createEmptySnapshot (size * size) p))) →
  (∀ e z, sized size e → P e →
          status (snapshot e) = InProgress →
          0 ≤ z < totalCells e →
          element (board (snapshot e)) z = Some None →
          P (MkEngine (boardSize e) (totalCells e) (played e (Int z)))) →
  new_TicTacToeEngine size firstPlayer = Return e0 →
  forallb plays calls = true →
  P (run calls e0).
Proof.
  intros Hbase Hmove Hnew Hcalls.
  pose proof (sized_new _ _ _ Hnew) as [Hsize Hsized0].
  cut (sized size (run calls e0) ∧ P (run calls e0)); [tauto|].
  apply (run_invariant (λ e, sized size e ∧ P e) plays); [|done|].
  - intros c e Hc [Hsized HP]. split; [by apply sized_invoke|].
    destruct (invoke_state c e Hc) as [->|[[p ->]|(z & Hst & Hz & Hfree & ->)]];
      [done| |by apply Hmove].
    destruct Hsized as (-> & -> & _). by apply Hbase.
  - split; [done|].
    unfold new_TicTacToeEngine in Hnew. case_bool_decide; [done|].
    injection Hnew as <-. by apply Hbase.
Qed.

Lemma scanLines_None (brd : TicTacToeBoard) (lines : list (list Z)) :
  scanLines brd lines = None ↔ Forall (λ l, lineWinner brd l = None) lines.
Proof.
  induction lines as [|l lines IH]; simpl; [by split|].
  rewrite Forall_cons. destruct (lineWinner brd l).
  - split; [done|]. by intros [? _].
  - rewrite IH. split; [by split|by intros [_ ?]].
Qed.

Lemma lineWinner_no_mark (brd : TicTacToeBoard) (line : list Z) :
  (∀ z mark, element brd z ≠ Some (Some mark)) → lineWinner brd line = None.
Proof.
  intros Hnone. destruct (lineWinner brd line) as [mark|] eqn:Hw; [|done].
  apply lineWinner_Some in Hw as (a & _ & _ & _ & _ & Ha & _).
  by destruct (Hnone a mark).
Qed.

Lemma element_Array_from {A} (n : Z) (f : Z → A) (z : Z) :
  element (Array_from n f) z = if bool_decide (0 ≤ z < n) then Some (f z) else None.
Proof.
  unfold element, Array_from. rewrite list_lookup_fmap.
  case_bool_decide as Hz.
  - case_bool_decide as Hr.
    + rewrite lookup_seqZ_lt by lia. simpl. do 2 f_equal. lia.
    + rewrite lookup_seqZ_ge by lia. done.
  - rewrite bool_decide_eq_false_2 by lia. done.
Qed.

Lemma forallb_marked (brd : TicTacToeBoard) :
  forallb (λ cell, bool_decide (cell ≠ None)) brd = true
  ↔ Forall (λ cell, cell ≠ None) brd.
Proof.
  induction brd as [|cell brd IH]; simpl; [by split|].
  rewrite andb_true_iff, Forall_cons, IH, bool_decide_eq_true. done.
Qed.

Lemma not_all_marked (brd : TicTacToeBoard) :
  forallb (λ cell, bool_decide (cell ≠ None)) brd = false →
  ∃ z, element brd z = Some None.
Proof.
  induction brd as [|cell brd IH]; simpl; [done|].
  intros [Hc|Hb]%andb_false_iff.
  - exists 0. apply bool_decide_eq_false in Hc.
    destruct cell; [by destruct Hc|done].
  - destruct (IH Hb) as [z Hz]. exists (z + 1).
    apply element_Some in Hz as [Hz Hl]. apply element_Some. split; [lia|].
    replace (Z.to_nat (z + 1)) with (S (Z.to_nat z)) by lia. done.
Qed.

Lemma all_marked_no_empty (brd : TicTacToeBoard) (z : Z) :
  Forall (λ cell, cell ≠ None) brd → element brd z ≠ Some None.
Proof.
  intros Hall [_ Hl]%element_Some.
  rewrite Forall_lookup in Hall. by apply (Hall _ _ Hl).
Qed.

(** The three results of [evaluateBoard]. *)
Lemma evaluateBoard_cases (n : Z) (brd : TicTacToeBoard) :
  (∃ mark line,
      evaluateBoard n brd = MkEvaluation Won (Some mark) (Some line)
      ∧ scanLines brd (computeWinningLines n) = Some (mark, line))
  ∨ (evaluateBoard n brd = MkEvaluation Draw None None
     ∧ scanLines brd (computeWinningLines n) = None
     ∧ Forall (λ cell, cell ≠ None) brd)
  ∨ (evaluateBoard n brd = MkEvaluation InProgress None None
     ∧ scanLines brd (computeWinningLines n) = None
     ∧ ∃ z, element brd z = Some None).
Proof.
  unfold evaluateBoard.
  destruct (scanLines brd (computeWinningLines n)) as [[mark line]|];
    [left; by exists mark, line|right].
  destruct (forallb _ brd) eqn:Hall.
  - left. split; [done|]. split; [done|]. by apply forallb_marked.
  - right. split; [done|]. split; [done|]. by apply not_all_marked.
Qed.

Lemma settled_played (e : Engine) (idx : number) :
  settled (boardSize e) (played e idx).
Proof.
  unfold settled, played; cbn [status winner winningLine board].
  destruct (evaluateBoard_cases (boardSize e)
              (assign (board (snapshot e)) idx (Some (currentPlayer (snapshot e)))))
    as [(mark & line & -> & Hscan)|[(-> & Hscan & Hall)|(-> & Hscan & Hempty)]];
    cbn [ev_status ev_winner ev_winningLine].
  - exists mark, line. split; [done|]. split; [done|].
    apply scanLines_Some in Hscan as (before & after & -> & _ & Hwin).
    split; [|done]. apply elem_of_app. right. by left.
  - done.
  - done.
Qed.

Lemma settled_empty (size : Z) (firstPlayer : TicTacToePlayer) :
  3 ≤ size → settled size (createEmptySnapshot (size * size) firstPlayer).
Proof.
  intros Hsize. unfold settled; simpl.
  split; [done|]. split; [done|]. split.
  - exists 0. rewrite element_Array_from, bool_decide_eq_true_2 by nia. done.
  - apply scanLines_None, Forall_forall. intros line _.
    apply lineWinner_no_mark. intros z mark.
    rewrite element_Array_from. by case_bool_decide.
Qed.

Lemma settled_run (size : Z) (firstPlayer : TicTacToePlayer) (e0 : Engine)
    (calls : list call) :
  new_TicTacToeEngine size firstPlayer = Return e0 →
  forallb plays calls = true →
  boardSize (run calls e0) = size ∧ settled size (snapshot (run calls e0)).
Proof.
  apply (game_invariant (λ e, boardSize e = size ∧ settled size (snapshot e))).
  - intros p Hsize. split; [done|]. by apply settled_empty.
  - intros e z (Hn & _) _ _ _ _. split; [done|]. simpl. rewrite <-Hn.
    apply settled_played.
Qed.

(** X1.  In an engine that the constructor has built and that has since received
    any sequence of reset, playMove and autoPlay calls (accepted or refused, but
    no loadSnapshot), the status is never Idle.  When it is Won, the winner is a
    mark, the winning line is one of the lines of computeWinningLines, it has at
    least three cells and its first three cells hold the winner's mark.  When it
    is Draw, there is no winner and no winning line, no cell is empty and the
    scan of evaluateBoard finds no mark on any line.  When it is InProgress,
    there is no winner and no winning line, some cell is empty and the scan of
    evaluateBoard finds no mark on any line. *)
Theorem status_tells_the_board
    (size : Z) (firstPlayer : TicTacToePlayer) (e0 : Engine) (calls : list call)
    (Hnew : new_TicTacToeEngine size firstPlayer = Return e0)
    (Hcalls : forallb plays calls = true) :
  let s := snapshot (run calls e0) in
  status s ≠ Idle
  ∧ (status s = Won →
     ∃ mark a b c rest,
       winner s = Some mark
       ∧ winningLine s = Some (a :: b :: c :: rest)
       ∧ (a :: b :: c :: rest) ∈ computeWinningLines size
       ∧ element (board s) a = Some (Some mark)
       ∧ element (board s) b = Some (Some mark)
       ∧ element (board s) c = Some (Some mark))
  ∧ (status s = Draw →
     winner s = None ∧ winningLine s = None
     ∧ (∀ z, element (board s) z ≠ Some None)
     ∧ Forall (λ line, lineWinner (board s) line = None)
              (computeWinningLines size))
  ∧ (status s = InProgress →
     winner s = None ∧ winningLine s = None
     ∧ (∃ z, element (board s) z = Some None)
     ∧ Forall (λ line, lineWinner (board s) line = None)
              (computeWinningLines size)).
Proof.
  intros s. destruct (settled_run _ _ _ calls Hnew Hcalls) as [_ Hs].
  fold s in Hs. unfold settled in Hs.
  destruct (status s); [done|..].
  - destruct Hs as (Hw & Hl & Hempty & Hscan).
    split; [done|]. split; [done|]. split; [done|]. intros _.
    split; [done|]. split; [done|]. split; [done|]. by apply scanLines_None.
  - destruct Hs as (mark & line & Hw & Hl & Hin & Hwin).
    split; [done|]. split; [|done]. intros _.
    apply lineWinner_Some in Hwin as (a & b & c & rest & -> & Ha & Hb & Hc).
    by exists mark, a, b, c, rest.
  - destruct Hs as (Hw & Hl & Hall & Hscan).
    split; [done|]. split; [done|]. split; [|done]. intros _.
    split; [done|]. split; [done|].
    split; [intros z; by apply all_marked_no_empty|by apply scanLines_None].
Qed.

(** The game of the specification that X wins: the line 0, 3, 6 holds X. *)
Lemma status_tells_the_board_witness :
  ∃ mark a b c rest,
    winner (snapshot (run x_wins fresh3)) = Some mark
    ∧ winningLine (snapshot (run x_wins fresh3)) = Some (a :: b :: c :: rest)
    ∧ (a :: b :: c :: rest) ∈ computeWinningLines 3
    ∧ element (board (snapshot (run x_wins fresh3))) a = Some (Some mark)
    ∧ element (board (snapshot (run x_wins fresh3))) b = Some (Some mark)
    ∧ element (board (snapshot (run x_wins fresh3))) c = Some (Some mark).
Proof.
  destruct (status_tells_the_board 3 X fresh3 x_wins) as (_ & Hwon & _).
  - exact new_engine_3.
  - by vm_compute.
  - apply Hwon. by vm_compute.
Defined.

(** The mark that completes a line is the mark just played. *)
Lemma lineWinner_after_move (brd : TicTacToeBoard) (z : Z)
    (cur mark : TicTacToePlayer) (line : list Z) :
  element brd z = Some None →
  lineWinner brd line = None →
  lineWinner (assign brd (Int z) (Some cur)) line = Some mark →
  mark = cur ∧ z ∈ take 3 line.
Proof.
  intros Hfree Hbefore (a & b & c & rest & -> & Ha & Hb & Hc)%lineWinner_Some.
  pose proof (element_assign_eq brd z None (Some cur) Hfree) as Hz.
  cbn [element_at] in Hz.
  destruct (decide (z = a ∨ z = b ∨ z = c)) as [Hon|Hoff].
  - split; [|simpl; rewrite !elem_of_cons; tauto].
    destruct Hon as [Heq|[Heq|Heq]]; subst z; congruence.
  - rewrite !element_assign_ne in Ha, Hb, Hc by (intros [= Heq]; subst z; tauto).
    assert (lineWinner brd (a :: b :: c :: rest) = Some mark); [|congruence].
    apply lineWinner_Some. by exists a, b, c, rest.
Qed.

Lemma playMove_returns (e e' : Engine) (idx : number) (s : TicTacToeSnapshot) :
  playMove idx e = (e', Return s) →
  status (snapshot e) = InProgress
  ∧ (∃ z, idx = Int z ∧ 0 ≤ z < totalCells e
          ∧ element (board (snapshot e)) z = Some None)
  ∧ s = played e idx
  ∧ e' = MkEngine (boardSize e) (totalCells e) s.
Proof.
  rewrite playMove_outcome.
  case_bool_decide as Hst; [done|].
  destruct (negb (isInteger idx) || _ || _) eqn:Hc; [done|].
  case_bool_decide as Hocc; [done|]. intros [= <- <-].
  apply names_cell_checks in Hc as (z & -> & Hz).
  split; [by destruct (decide (status (snapshot e) = InProgress))|].
  split; [|done]. exists z. split; [done|]. split; [done|].
  by destruct (decide (element_at (board (snapshot e)) (Int z) = Some None)).
Qed.

(** X2.  In an engine that the constructor has built and that has since received
    any sequence of reset, playMove and autoPlay calls (accepted or refused, but
    no loadSnapshot), when playMove(idx) returns a snapshot whose status is Won,
    the winner is the player whose turn it was, the turn does not pass
    (currentPlayer is still that player), and idx is one of the first three
    cells of the winning line. *)
Theorem winner_is_the_player_who_moved
    (size : Z) (firstPlayer : TicTacToePlayer) (e0 e' : Engine)
    (calls : list call) (idx : number) (s : TicTacToeSnapshot)
    (Hnew : new_TicTacToeEngine size firstPlayer = Return e0)
    (Hcalls : forallb plays calls = true)
    (Hmove : playMove idx (run calls e0) = (e', Return s))
    (Hwon : status s = Won) :
  winner s = Some (currentPlayer (snapshot (run calls e0)))
  ∧ currentPlayer s = currentPlayer (snapshot (run calls e0))
  ∧ ∃ z line, idx = Int z ∧ winningLine s = Some line ∧ z ∈ take 3 line.
Proof.
  destruct (settled_run _ _ _ calls Hnew Hcalls) as [Hn Hbefore].
  apply playMove_returns in Hmove as (Hst & (z & -> & Hz & Hfree) & -> & _).
  unfold settled in Hbefore. rewrite Hst in Hbefore.
  destruct Hbefore as (_ & _ & _ & Hscan).
  rewrite scanLines_None, Forall_forall in Hscan.
  revert Hwon. unfold played; cbn [status winner winningLine currentPlayer].
  rewrite Hn.
  destruct (evaluateBoard_cases size
              (assign (board (snapshot (run calls e0))) (Int z)
                 (Some (currentPlayer (snapshot (run calls e0))))))
    as [(mark & line & -> & Hwin)|[(-> & _)|(-> & _)]]; [|done..].
  intros _. cbn [ev_status ev_winner ev_winningLine].
  apply scanLines_Some in Hwin as (before & after & Hlines & _ & Hwin).
  assert (line ∈ computeWinningLines size) as Hin.
  { rewrite Hlines. apply elem_of_app. right. by left. }
  destruct (lineWinner_after_move _ _ _ _ _ Hfree (Hscan _ Hin) Hwin) as [-> Hon].
  split; [done|]. split; [done|]. by exists z, line.
Qed.

(** X completes the first column with the move 6. *)
Lemma winner_is_the_player_who_moved_witness :
  winner (played (run (CallPlayMove <$> [Int 0; Int 1; Int 3; Int 4]) fresh3)
                 (Int 6))
  = Some (currentPlayer
            (snapshot (run (CallPlayMove <$> [Int 0; Int 1; Int 3; Int 4]) fresh3)))
  ∧ currentPlayer
      (played (run (CallPlayMove <$> [Int 0; Int 1; Int 3; Int 4]) fresh3) (Int 6))
    = currentPlayer
        (snapshot (run (CallPlayMove <$> [Int 0; Int 1; Int 3; Int 4]) fresh3))
  ∧ ∃ z line, Int 6 = Int z
      ∧ winningLine
          (played (run (CallPlayMove <$> [Int 0; Int 1; Int 3; Int 4]) fresh3)
                  (Int 6))
        = Some line
      ∧ z ∈ take 3 line.
Proof.
  apply (winner_is_the_player_who_moved 3 X fresh3
           (MkEngine 3 9
              (played (run (CallPlayMove <$> [Int 0; Int 1; Int 3; Int 4]) fresh3)
                      (Int 6)))
           (CallPlayMove <$> [Int 0; Int 1; Int 3; Int 4]) (Int 6)).
  - exact new_engine_3.
  - by vm_compute.
  - by vm_compute.
  - by vm_compute.
Defined.

Lemma take_turns_snoc (moves : list TicTacToeMove) (m : TicTacToeMove) :
  take_turns moves →
  (∀ m0, last moves = Some m0 → player m = togglePlayer (player m0)) →
  take_turns (moves ++ [m]).
Proof.
  intros Hturns Hlast i m1 m2 H1 H2.
  apply lookup_lt_Some in H2 as Hlt. rewrite length_app in Hlt. simpl in Hlt.
  destruct (decide (S i = length moves)) as [Hi|Hi].
  - rewrite Hi, lookup_app_r, Nat.sub_diag in H2 by lia. injection H2 as <-.
    rewrite lookup_app_l in H1 by lia.
    apply Hlast. rewrite last_lookup. rewrite <-Hi. done.
  - rewrite lookup_app_l in H1, H2 by lia. by eapply Hturns.
Qed.

Lemma turns_played (e : Engine) (idx : number) :
  status (snapshot e) = InProgress →
  turns (snapshot e) → turns (played e idx).
Proof.
  intros Hst (Htake & Hcur & _).
  unfold turns, played; cbn [history status currentPlayer].
  split; [|split].
  - apply take_turns_snoc; [done|]. intros m0 Hm0. simpl. by apply Hcur.
  - intros Hin m. rewrite last_snoc. intros [= <-]. simpl.
    by rewrite bool_decide_eq_true_2.
  - intros Hout m. rewrite last_snoc. intros [= <-]. simpl.
    by rewrite bool_decide_eq_false_2.
Qed.

Lemma turns_empty (total : Z) (firstPlayer : TicTacToePlayer) :
  turns (createEmptySnapshot total firstPlayer).
Proof.
  split; [|split]; simpl; [|done..]. by intros i m m' Hm.
Qed.

Lemma recorded_empty (total : Z) (firstPlayer : TicTacToePlayer) :
  recorded (createEmptySnapshot total firstPlayer).
Proof.
  unfold recorded; simpl. split; [|split; constructor].
  intros z mark. rewrite element_Array_from. split.
  - by case_bool_decide.
  - intros H. by apply elem_of_nil in H.
Qed.

Lemma recorded_played (e : Engine) (z : Z) :
  element (board (snapshot e)) z = Some None →
  recorded (snapshot e) → recorded (played e (Int z)).
Proof.
  intros Hfree (Hboard & Hdup & Hint).
  unfold recorded, played; cbn [board history].
  pose proof (element_assign_eq _ z None (Some (currentPlayer (snapshot e))) Hfree)
    as Hz. cbn [element_at] in Hz.
  split; [|split].
  - intros j mark. rewrite elem_of_app, list_elem_of_singleton.
    destruct (decide (j = z)) as [->|Hne].
    + rewrite Hz. split.
      * intros [= ->]. by right.
      * intros [Hin|[= ->]]; [|done].
        apply Hboard in Hin. congruence.
    + rewrite element_assign_ne by (intros [= ->]; done).
      rewrite Hboard. split; [by left|].
      intros [Hin|[= ->]]; done.
  - rewrite fmap_app. apply NoDup_app. split; [done|]. split.
    + intros x Hx. simpl. rewrite list_elem_of_singleton. intros ->.
      apply list_elem_of_fmap in Hx as ([i mark] & Hi & Hin).
      simpl in Hi. subst i. apply Hboard in Hin. congruence.
    + simpl. apply NoDup_singleton.
  - apply Forall_app. split; [done|]. constructor; [|done]. by exists z.
Qed.

Lemma turns_recorded_run (size : Z) (firstPlayer : TicTacToePlayer)
    (e0 : Engine) (calls : list call) :
  new_TicTacToeEngine size firstPlayer = Return e0 →
  forallb plays calls = true →
  turns (snapshot (run calls e0)) ∧ recorded (snapshot (run calls e0)).
Proof.
  apply (game_invariant (λ e, turns (snapshot e) ∧ recorded (snapshot e))).
  - intros p _. split; [apply turns_empty|apply recorded_empty].
  - intros e z _ [Ht Hr] Hst _ Hfree.
    split; [by apply turns_played|by apply recorded_played].
Qed.

(** X3.  In an engine that the constructor has built and that has since received
    any sequence of reset, playMove and autoPlay calls (accepted or refused, but
    no loadSnapshot), two consecutive moves of the history are by different
    players, and when the history has a last move the current player is the
    other player while the game is in progress, and the player of that last move
    once the game is won or drawn. *)
Theorem players_take_turns
    (size : Z) (firstPlayer : TicTacToePlayer) (e0 : Engine) (calls : list call)
    (Hnew : new_TicTacToeEngine size firstPlayer = Return e0)
    (Hcalls : forallb plays calls = true) :
  let s := snapshot (run calls e0) in
  (∀ i m m', history s !! i = Some m → history s !! S i = Some m' →
             player m' = togglePlayer (player m))
  ∧ (∀ m, last (history s) = Some m →
          currentPlayer s = if bool_decide (status s = InProgress)
                            then togglePlayer (player m) else player m).
Proof.
  intros s.
  destruct (turns_recorded_run _ _ _ calls Hnew Hcalls) as [(Ht & Hin & Hout) _].
  split; [exact Ht|]. intros m Hm. case_bool_decide; auto.
Qed.

(** A game with a refused move and a move of [autoPlay]. *)
Lemma players_take_turns_witness :
  last (history (snapshot (run short_game fresh3))) = Some (Move (Int 4) X)
  ∧ currentPlayer (snapshot (run short_game fresh3))
    = if bool_decide (status (snapshot (run short_game fresh3)) = InProgress)
      then togglePlayer (player (Move (Int 4) X)) else player (Move (Int 4) X).
Proof.
  split; [by vm_compute|].
  destruct (players_take_turns 3 X fresh3 short_game) as [_ Hlast].
  - exact new_engine_3.
  - by vm_compute.
  - apply Hlast. by vm_compute.
Defined.

(** X4.  In an engine that the constructor has built and that has since received
    any sequence of reset, playMove and autoPlay calls (accepted or refused, but
    no loadSnapshot), a cell holds a mark exactly when the history has a move of
    that mark at that index, no index occurs twice in the history, and every
    index of the history is an integer from 0 to size * size - 1. *)
Theorem history_is_the_board
    (size : Z) (firstPlayer : TicTacToePlayer) (e0 : Engine) (calls : list call)
    (Hnew : new_TicTacToeEngine size firstPlayer = Return e0)
    (Hcalls : forallb plays calls = true) :
  let s := snapshot (run calls e0) in
  (∀ z mark, element (board s) z = Some (Some mark)
             ↔ Move (Int z) mark ∈ history s)
  ∧ NoDup (index <$> history s)
  ∧ Forall (λ m, ∃ z, index m = Int z ∧ 0 ≤ z < size * size) (history s).
Proof.
  intros s. subst s.
  destruct (turns_recorded_run _ _ _ calls Hnew Hcalls) as [_ (Hb & Hd & Hi)].
  split; [exact Hb|]. split; [exact Hd|].
  apply sized_new in Hnew as [_ Hsized].
  apply (sized_run _ calls) in Hsized as (_ & Htotal & Hlen).
  rewrite Forall_forall in Hi |- *. intros [i mark] Hm.
  destruct (Hi _ Hm) as [z Hz]. simpl in Hz. subst i.
  exists z. split; [done|].
  apply Hb in Hm. apply element_Some_lt in Hm. lia.
Qed.

(** A game with a refused move and a move of [autoPlay]. *)
Lemma history_is_the_board_witness :
  (∀ z mark, element (board (snapshot (run short_game fresh3))) z
             = Some (Some mark)
             ↔ Move (Int z) mark ∈ history (snapshot (run short_game fresh3)))
  ∧ NoDup (index <$> history (snapshot (run short_game fresh3)))
  ∧ Forall (λ m, ∃ z, index m = Int z ∧ 0 ≤ z < 3 * 3)
           (history (snapshot (run short_game fresh3))).
Proof.
  apply (history_is_the_board 3 X fresh3 short_game).
  - exact new_engine_3.
  - by vm_compute.
Defined.

Lemma length_available (brd : TicTacToeBoard) (k : nat) :
  Z.of_nat
    (length (filter (λ idx, idx ≠ -1)
               (imap (λ idx cell,
                        if bool_decide (cell = None) then Z.of_nat (k + idx) else -1)
                     brd)))
  + Z.of_nat (marks brd)
  = Z.of_nat (length brd).
Proof.
  unfold marks. revert k. induction brd as [|cell brd IH]; intros k; [done|].
  rewrite imap_cons.
  rewrite (imap_ext _ (λ idx cell,
             if bool_decide (cell = None) then Z.of_nat (S k + idx) else -1));
    last first.
  { intros i x _. simpl. case_bool_decide; [lia|done]. }
  specialize (IH (S k)). rewrite !filter_cons.
  destruct cell as [mark|].
  - rewrite bool_decide_eq_false_2 by done.
    rewrite decide_False by lia.
    destruct (decide (Some mark ≠ None)) as [_|[]]; [|done].
    cbn [length]. lia.
  - rewrite bool_decide_eq_true_2 by done.
    rewrite decide_True by lia.
    destruct (decide (None ≠ @None TicTacToePlayer)) as [[]|_]; [done|].
    cbn [length]. lia.
Qed.

Lemma counted_run (size : Z) (firstPlayer : TicTacToePlayer)
    (e0 : Engine) (calls : list call) :
  new_TicTacToeEngine size firstPlayer = Return e0 →
  forallb plays calls = true →
  counted (snapshot (run calls e0)).
Proof.
  apply (game_invariant (λ e, counted (snapshot e))).
  - intros p _. apply counted_empty.
  - intros e z _ [Hh Hm] _ _ Hfree.
    unfold counted, played; cbn [snapshot board history moveCount].
    rewrite length_app, marks_assign by done. simpl. lia.
Qed.

(** X5.  In an engine that the constructor has built and that has since received
    any sequence of reset, playMove and autoPlay calls (accepted or refused, but
    no loadSnapshot), getAvailableMoves returns a list whose length plus
    moveCount is size * size; the list is not empty while the game is in
    progress, and once moveCount is size * size the game is no longer in
    progress. *)
Theorem moves_left_and_moves_made
    (size : Z) (firstPlayer : TicTacToePlayer) (e0 : Engine) (calls : list call)
    (Hnew : new_TicTacToeEngine size firstPlayer = Return e0)
    (Hcalls : forallb plays calls = true) :
  ∃ moves, getAvailableMoves (run calls e0) = (run calls e0, Return moves)
    ∧ Z.of_nat (length moves) + moveCount (snapshot (run calls e0)) = size * size
    ∧ (status (snapshot (run calls e0)) = InProgress → moves ≠ [])
    ∧ (moveCount (snapshot (run calls e0)) = size * size →
       status (snapshot (run calls e0)) ≠ InProgress).
Proof.
  pose proof (counted_run _ _ _ calls Hnew Hcalls) as [Hcount Hmarks].
  destruct (settled_run _ _ _ calls Hnew Hcalls) as [_ Hsettled].
  pose proof (sized_new _ _ _ Hnew) as [_ Hsized].
  apply (sized_run _ calls) in Hsized as (_ & Htotal & Hlen).
  destruct (getAvailableMoves_spec (run calls e0)) as (moves & Hget & _ & Hmem).
  exists moves. split; [done|].
  assert (Z.of_nat (length moves) + moveCount (snapshot (run calls e0))
          = size * size) as Hsum.
  { injection Hget as <-.
    pose proof (length_available (board (snapshot (run calls e0))) 0) as Hl.
    simpl in Hl. lia. }
  assert (status (snapshot (run calls e0)) = InProgress → moves ≠ []) as Hleft.
  { intros Hst ->. unfold settled in Hsettled. rewrite Hst in Hsettled.
    destruct Hsettled as (_ & _ & [z Hz] & _).
    apply Hmem in Hz. by apply elem_of_nil in Hz. }
  split; [done|]. split; [done|].
  intros Hfull Hst. apply Hleft in Hst. destruct moves; [done|]. simpl in Hsum. lia.
Qed.

(** A game with a refused move and a move of [autoPlay]. *)
Lemma moves_left_and_moves_made_witness :
  ∃ moves,
    getAvailableMoves (run short_game fresh3)
    = (run short_game fresh3, Return moves)
    ∧ Z.of_nat (length moves) + moveCount (snapshot (run short_game fresh3))
      = 3 * 3
    ∧ (status (snapshot (run short_game fresh3)) = InProgress → moves ≠ [])
    ∧ (moveCount (snapshot (run short_game fresh3)) = 3 * 3 →
       status (snapshot (run short_game fresh3)) ≠ InProgress).
Proof.
  apply (moves_left_and_moves_made 3 X fresh3 short_game).
  - exact new_engine_3.
  - by vm_compute.
Defined.

(** X6.  For a board size n >= 1, computeWinningLines returns 2n + 2 lines, and
    each line has n cell indices, all different and all between 0 and n * n - 1. *)
Theorem winning_lines_are_on_the_board (n : Z) (Hn : 1 ≤ n) :
  length (computeWinningLines n) = Z.to_nat (2 * n + 2)
  ∧ Forall (λ line, length line = Z.to_nat n
                    ∧ NoDup line
                    ∧ Forall (λ i, 0 ≤ i < n * n) line)
           (computeWinningLines n).
Proof.
  split; [rewrite length_computeWinningLines; lia|].
  assert (∀ f : Z → Z,
            (∀ i j, 0 ≤ i < n → 0 ≤ j < n → f i = f j → i = j) →
            (∀ i, 0 ≤ i < n → 0 ≤ f i < n * n) →
            length (Array_from n f) = Z.to_nat n
            ∧ NoDup (Array_from n f)
            ∧ Forall (λ i, 0 ≤ i < n * n) (Array_from n f)) as Hline.
  { intros f Hinj Hrange. unfold Array_from.
    split; [by rewrite length_fmap, length_seqZ|]. split.
    - apply NoDup_fmap_2_strong; [|apply NoDup_seqZ].
      intros i j Hi%elem_of_seqZ Hj%elem_of_seqZ. apply Hinj; lia.
    - apply Forall_fmap, Forall_seqZ. intros i Hi. simpl. apply Hrange. lia. }
  unfold computeWinningLines. repeat apply Forall_app_2.
  - apply Forall_fmap, Forall_seqZ. intros row Hrow. simpl.
    apply Hline; intros; nia.
  - apply Forall_fmap, Forall_seqZ. intros col Hcol. simpl.
    apply Hline; intros; nia.
  - repeat constructor; try apply Hline; intros; nia.
Qed.

(** The ten lines of a 4 x 4 board. *)
Lemma winning_lines_are_on_the_board_witness :
  length (computeWinningLines 4) = Z.to_nat (2 * 4 + 2)
  ∧ Forall (λ line, length line = Z.to_nat 4
                    ∧ NoDup line
                    ∧ Forall (λ i, 0 ≤ i < 4 * 4) line)
           (computeWinningLines 4).
Proof. apply (winning_lines_are_on_the_board 4). lia. Defined.

(** When [canPlay] says yes. *)
Lemma canPlay_true (e : Engine) (idx : number) :
  Z.of_nat (length (board (snapshot e))) = totalCells e →
  canPlay idx e = (e, Return true)
  ↔ status (snapshot e) = InProgress
    ∧ ∃ z, idx = Int z ∧ element (board (snapshot e)) z = Some None.
Proof.
  intros Hlen. unfold canPlay, bind, get, ret. split.
  - intros [= Hc]. apply andb_true_iff in Hc as [Hc Hst].
    apply andb_true_iff in Hc as [Hc Hfree].
    apply bool_decide_eq_true in Hst, Hfree. split; [done|].
    destruct idx as [z| | | |]; try done. by exists z.
  - intros [Hst (z & -> & Hz)].
    pose proof (element_Some_lt _ _ _ Hz). simpl.
    rewrite !bool_decide_eq_true_2 by (done || lia). done.
Qed.

(** X7.  On an engine whose board has as many cells as the engine counts,
    canPlay(idx) returns true exactly when the game is in progress and idx is an
    integer in the list getAvailableMoves returns. *)
Theorem canPlay_is_an_available_move (size : Z) (e : Engine) (idx : number)
    (Hsized : sized size e) :
  ∃ moves, getAvailableMoves e = (e, Return moves)
    ∧ (canPlay idx e = (e, Return true)
       ↔ status (snapshot e) = InProgress ∧ ∃ z, idx = Int z ∧ z ∈ moves).
Proof.
  destruct Hsized as (_ & _ & Hlen).
  destruct (getAvailableMoves_spec e) as (moves & Hget & _ & Hmem).
  exists moves. split; [done|]. rewrite (canPlay_true e idx Hlen).
  split; intros [Hst (z & -> & Hz)]; (split; [done|]); exists z;
    (split; [done|]); by apply Hmem.
Qed.

(** Cell 4 after [playMove(0)] on a new board. *)
Lemma canPlay_is_an_available_move_witness :
  ∃ moves, getAvailableMoves after_x0 = (after_x0, Return moves)
    ∧ (canPlay (Int 4) after_x0 = (after_x0, Return true)
       ↔ status (snapshot after_x0) = InProgress ∧ ∃ z, Int 4 = Int z ∧ z ∈ moves).
Proof.
  apply (canPlay_is_an_available_move 3). by vm_compute.
Defined.

(** X8.  On an engine whose board has as many cells as the engine counts and
    whose moveCount is a safe integer (where the source's addition of doubles
    is exact), autoPlay has three outcomes.  With no empty cell it throws
    'No moves available.' and changes nothing, whatever the status.  With an
    empty cell and a game that is not in progress it throws 'Game is not
    currently accepting moves.' and changes nothing.  With an empty cell and a
    game in progress it returns a snapshot that is the engine's new state, in
    which the least empty cell of the old board holds the mark of the player
    whose turn it was and moveCount is one more. *)
Theorem autoPlay_outcomes (size : Z) (e : Engine) (Hsized : sized size e)
    (Hcount : safe_integer (moveCount (snapshot e))) :
  (autoPlay e = (e, Throw NoMovesAvailable)
   ∧ ∀ z, element (board (snapshot e)) z ≠ Some None)
  ∨ (autoPlay e = (e, Throw GameNotInProgress)
     ∧ status (snapshot e) ≠ InProgress
     ∧ ∃ z, element (board (snapshot e)) z = Some None)
  ∨ (∃ m s', autoPlay e = (MkEngine (boardSize e) (totalCells e) s', Return s')
       ∧ status (snapshot e) = InProgress
       ∧ element (board (snapshot e)) m = Some None
       ∧ (∀ z, element (board (snapshot e)) z = Some None → m ≤ z)
       ∧ element (board s') m = Some (Some (currentPlayer (snapshot e)))
       ∧ moveCount s' = moveCount (snapshot e) + 1).
Proof.
  destruct Hsized as (_ & _ & Hlen).
  destruct (getAvailableMoves_spec e) as (moves & Hget & Hsort & Hmem).
  rewrite (autoPlay_cases e moves Hget).
  destruct moves as [|m moves]; simpl.
  - left. split; [done|]. intros z Hz%Hmem. by apply elem_of_nil in Hz.
  - assert (element (board (snapshot e)) m = Some None) as Hm
      by (apply Hmem; by left).
    right. rewrite playMove_outcome. case_bool_decide as Hst.
    + left. split; [done|]. split; [done|]. by exists m.
    + right. pose proof (element_Some_lt _ _ _ Hm) as Hr.
      simpl. rewrite !bool_decide_eq_true_2 by lia. simpl.
      rewrite bool_decide_eq_false_2 by (by intros []).
      exists m, (played e (Int m)). split; [done|].
      split; [by destruct (decide (status (snapshot e) = InProgress))|].
      split; [done|]. split.
      * intros z [->|Hin]%Hmem%elem_of_cons; [done|].
        apply StronglySorted_cons in Hsort as [Hall _].
        rewrite Forall_forall in Hall. specialize (Hall _ Hin). lia.
      * split; [|done]. unfold played; cbn [board].
        by eapply (element_assign_eq _ m).
Qed.

(** After [playMove(0)] on a new board. *)
Lemma autoPlay_outcomes_witness :
  (autoPlay after_x0 = (after_x0, Throw NoMovesAvailable)
   ∧ ∀ z, element (board (snapshot after_x0)) z ≠ Some None)
  ∨ (autoPlay after_x0 = (after_x0, Throw GameNotInProgress)
     ∧ status (snapshot after_x0) ≠ InProgress
     ∧ ∃ z, element (board (snapshot after_x0)) z = Some None)
  ∨ (∃ m s', autoPlay after_x0
             = (MkEngine (boardSize after_x0) (totalCells after_x0) s', Return s')
       ∧ status (snapshot after_x0) = InProgress
       ∧ element (board (snapshot after_x0)) m = Some None
       ∧ (∀ z, element (board (snapshot after_x0)) z = Some None → m ≤ z)
       ∧ element (board s') m = Some (Some (currentPlayer (snapshot after_x0)))
       ∧ moveCount s' = moveCount (snapshot after_x0) + 1).
Proof.
  apply (autoPlay_outcomes 3); by vm_compute.
Defined.

(** On an empty board every index is available. *)
Lemma available_of_empty (l : list Z) (k : nat) :
  filter (λ idx, idx ≠ -1)
    (imap (λ idx cell,
             if bool_decide (cell = None) then Z.of_nat (k + idx) else -1)
          ((λ _, @None TicTacToePlayer) <$> l))
  = Z.of_nat <$> seq k (length l).
Proof.
  revert k. induction l as [|x l IH]; intros k; [done|].
  rewrite fmap_cons, imap_cons.
  rewrite (imap_ext _ (λ idx cell,
             if bool_decide (cell = None) then Z.of_nat (S k + idx) else -1));
    last first.
  { intros i c _. simpl. case_bool_decide; [lia|done]. }
  rewrite filter_cons, bool_decide_eq_true_2, decide_True by (done || lia).
  rewrite IH. cbn [length seq fmap list_fmap]. f_equal. f_equal. lia.
Qed.

(** X9.  The constructor throws for a board size below 3.  For a size of 3 or
    more it returns an engine of that size with size * size cells whose snapshot
    is the empty game: every cell null, status InProgress, the first player to
    move, no winner, no winning line, move count 0 and an empty history.  On
    that engine getAvailableMoves returns 0, 1, ..., size * size - 1 in this
    order, and canPlay(idx) returns true exactly when idx is an integer with 0
    <= idx < size * size. *)
Theorem new_engine_is_empty (size : Z) (firstPlayer : TicTacToePlayer) :
  (size < 3 → new_TicTacToeEngine size firstPlayer = Throw InvalidBoardSize)
  ∧ (3 ≤ size →
     ∃ e, new_TicTacToeEngine size firstPlayer = Return e
       ∧ boardSize e = size
       ∧ totalCells e = size * size
       ∧ snapshot e
         = {| board := replicate (Z.to_nat (size * size)) None;
              status := InProgress;
              currentPlayer := firstPlayer;
              winner := None;
              winningLine := None;
              moveCount := 0;
              history := [] |}
       ∧ getAvailableMoves e = (e, Return (seqZ 0 (size * size)))
       ∧ ∀ idx, canPlay idx e = (e, Return true) ↔ names_cell e idx).
Proof.
  unfold new_TicTacToeEngine. split; intros Hsize.
  - by rewrite bool_decide_eq_true_2.
  - rewrite bool_decide_eq_false_2 by lia. eexists. split; [reflexivity|].
    assert (Array_from (size * size) (λ _, @None TicTacToePlayer)
            = replicate (Z.to_nat (size * size)) None) as Hboard.
    { unfold Array_from, seqZ. rewrite <-list_fmap_compose.
      generalize 0%nat. induction (Z.to_nat (size * size)) as [|n IH];
        intros k; [done|]. simpl. f_equal. apply IH. }
    assert (getAvailableMoves
              (MkEngine size (size * size)
                 (createEmptySnapshot (size * size) firstPlayer))
            = (MkEngine size (size * size)
                 (createEmptySnapshot (size * size) firstPlayer),
               Return (seqZ 0 (size * size)))) as Hget.
    { unfold getAvailableMoves, bind, get, ret. cbn [snapshot board createEmptySnapshot].
      do 2 f_equal. unfold Array_from.
      etrans; [exact (available_of_empty (seqZ 0 (size * size)) 0)|].
      rewrite length_seqZ. unfold seqZ. apply list_fmap_ext.
      intros i x _. simpl. lia. }
    split; [done|]. split; [done|]. split.
    { unfold createEmptySnapshot. by rewrite Hboard. }
    split; [exact Hget|].
    intros idx.
    rewrite canPlay_true by (simpl; rewrite length_Array_from; nia).
    unfold names_cell; cbn [snapshot status totalCells board createEmptySnapshot].
    split.
    + intros [_ (z & -> & Hz)]. exists z. split; [done|].
      rewrite element_Array_from in Hz. by case_bool_decide.
    + intros (z & -> & Hz). split; [done|]. exists z. split; [done|].
      rewrite element_Array_from. by rewrite bool_decide_eq_true_2.
Qed.

(** X10.  Whatever calls an engine has received since the constructor built it
    (reset, loadSnapshot, playMove, autoPlay, accepted or refused),
    reset(firstPlayer) puts it in the state of an engine newly built with the
    same size and that first player, and returns the snapshot of that state. *)
Theorem reset_is_a_new_engine
    (size : Z) (first firstPlayer : TicTacToePlayer) (e0 : Engine)
    (calls : list call)
    (Hnew : new_TicTacToeEngine size first = Return e0) :
  ∃ e1, new_TicTacToeEngine size firstPlayer = Return e1
    ∧ reset firstPlayer (run calls e0) = (e1, Return (snapshot e1)).
Proof.
  apply sized_new in Hnew as [Hsize Hsized].
  apply (sized_run _ calls) in Hsized as (Hn & Htotal & _).
  unfold new_TicTacToeEngine. rewrite bool_decide_eq_false_2 by lia.
  eexists. split; [reflexivity|].
  unfold reset, bind, get, set_snapshot, put, cloneSnapshot; simpl.
  by rewrite Hn, Htotal.
Qed.

(** A game of three moves, then [reset(O)]. *)
Lemma reset_is_a_new_engine_witness :
  ∃ e1, new_TicTacToeEngine 3 O = Return e1
    ∧ reset O (run [CallPlayMove (Int 0); CallAutoPlay; CallPlayMove (Int 4)] fresh3)
      = (e1, Return (snapshot e1)).
Proof.
  apply (reset_is_a_new_engine 3 X O fresh3). by vm_compute.
Defined.

(** X11.  In the model with references, getSnapshot on an engine whose snapshot
    is in the store returns a new snapshot object that reads as the engine's own
    snapshot and leaves that one as it was; when the caller then writes a cell
    of the returned snapshot's board, at an index that names a cell of that
    board, the returned snapshot has the written value in that cell and its
    other cells as before, and the engine's own snapshot is still what it
    was. *)
Theorem returned_board_is_a_copy (st : Refs.State) (z : Z) (v : TicTacToeCell)
    (Hwf : well_formed (Refs.store st) (Refs.snapshot (Refs.this st)))
    (Hcell : 0 ≤ z < Z.of_nat (length (board (Refs.owned st)))) :
  ∃ st' r,
    Refs.getSnapshot st = (st', Return r)
    ∧ Refs.view (Refs.store st') r = Refs.owned st
    ∧ Refs.owned st' = Refs.owned st
    ∧ Refs.owned (Refs.caller_writes_board r (Int z) v st').1 = Refs.owned st
    ∧ board (Refs.view
               (Refs.store (Refs.caller_writes_board r (Int z) v st').1) r)
      = assign (board (Refs.owned st)) (Int z) v
    ∧ element
        (board (Refs.view
                  (Refs.store (Refs.caller_writes_board r (Int z) v st').1) r))
        z = Some v
    ∧ length
        (board (Refs.view
                  (Refs.store (Refs.caller_writes_board r (Int z) v st').1) r))
      = length (board (Refs.owned st)).
Proof.
  pose proof Hwf as (o & cells & elems & Ho & Hc & He & Hl & Hm).
  destruct (sim_cloneSnapshot st Hwf) as (_ & _ & Hval & Hagree).
  unfold Refs.getSnapshot.
  rewrite (Refs_cloneSnapshot_run st o cells elems Ho Hc He) in Hval, Hagree |- *.
  do 2 eexists. split; [reflexivity|].
  cbn [fst snd cloneSnapshot agrees] in Hval, Hagree. destruct Hagree as [_ Hview].
  split; [exact Hview|].
  split; [exact (f_equal snapshot Hval)|].
  unfold Refs.caller_writes_board, Refs.read_snapshot, Refs.write_board, bind.
  cbn [fst snd Refs.store Refs.this Refs.boards Refs.lines Refs.histories
       Refs.moves Refs.snapshots].
  rewrite lookup_total_snoc_length. cbn [Refs.board]. rewrite alter_snoc.
  split.
  { unfold Refs.owned at 1. cbn [Refs.store Refs.this].
    apply view_extends; [done|].
    repeat split; simpl; first [reflexivity | by apply prefix_app_r]. }
  match goal with
  | |- ?written = _ ∧ _ =>
      assert (written = assign (board (Refs.owned st)) (Int z) v) as Hboard
  end.
  { erewrite view_lookup; [|apply lookup_snoc_length|apply lookup_snoc_length..].
    unfold Refs.owned. by rewrite (view_lookup _ _ o cells elems Ho Hc He). }
  split; [exact Hboard|]. rewrite Hboard. split.
  - destruct (lookup_lt_is_Some_2 (board (Refs.owned st)) (Z.to_nat z))
      as [cell Hcell']; [lia|].
    apply (element_assign_eq _ z cell v). apply element_Some. split; [lia|done].
  - apply length_assign.
Qed.

Lemma host_won_well_formed :
  well_formed (Refs.store host_won) (Refs.snapshot (Refs.this host_won)).
Proof.
  eexists _, _, _.
  split; [by vm_compute|]. split; [by vm_compute|]. split; [by vm_compute|].
  split.
  - intros l. vm_compute. intros [= <-]. by eexists.
  - vm_compute. repeat constructor; by eexists.
Qed.

(** A caller writes cell 8 of the snapshot of a won game. *)
Lemma returned_board_is_a_copy_witness :
  ∃ st' r,
    Refs.getSnapshot host_won = (st', Return r)
    ∧ Refs.view (Refs.store st') r = Refs.owned host_won
    ∧ Refs.owned st' = Refs.owned host_won
    ∧ Refs.owned (Refs.caller_writes_board r (Int 8) (Some O) st').1
      = Refs.owned host_won
    ∧ board (Refs.view
               (Refs.store (Refs.caller_writes_board r (Int 8) (Some O) st').1) r)
      = assign (board (Refs.owned host_won)) (Int 8) (Some O)
    ∧ element
        (board (Refs.view
                  (Refs.store
                     (Refs.caller_writes_board r (Int 8) (Some O) st').1) r))
        8 = Some (Some O)
    ∧ length
        (board (Refs.view
                  (Refs.store
                     (Refs.caller_writes_board r (Int 8) (Some O) st').1) r))
      = length (board (Refs.owned host_won)).
Proof.
  apply (returned_board_is_a_copy host_won 8 (Some O)).
  - exact host_won_well_formed.
  - by vm_compute.
Defined.

(** * The component *)

Lemma published_in_session (name opponent : string) (mark : TicTacToePlayer)
    (e : Engine) :
  sized 3 e → published (in_session name opponent mark e).
Proof. by split. Qed.

Lemma sized_fresh3 : sized 3 fresh3.
Proof. by vm_compute. Qed.

Lemma sized_after_x0 : sized 3 after_x0.
Proof. by vm_compute. Qed.

Lemma published_reset (a : App.App) :
  sized 3 (App.engine a) →
  sized 3 (reset X (App.engine a)).1
  ∧ (reset X (App.engine a)).2 = Return (snapshot (reset X (App.engine a)).1).
Proof.
  intros H. split; [|done]. by apply (sized_invoke 3 (CallReset X)).
Qed.

Lemma engine_call_keeps (c : call) (e : Engine) :
  sized 3 e →
  sized 3 (invoke c e).1
  ∧ ∀ s, (invoke c e).2 = Return s → s = snapshot (invoke c e).1.
Proof.
  intros H. split; [by apply sized_invoke|].
  destruct c as [p|ext|idx|]; simpl.
  - by intros s [= <-].
  - rewrite loadSnapshot_outcome. case_bool_decide; [done|]. by intros s [= <-].
  - rewrite playMove_outcome. repeat case_match; try done. by intros s [= <-].
  - destruct (getAvailableMoves_spec e) as (moves & Hget & _).
    rewrite (autoPlay_cases e moves Hget). destruct (head moves); [|done].
    rewrite playMove_outcome. repeat case_match; try done. by intros s [= <-].
Qed.

Section Keeps.

Context (R : App.App → App.App → Prop) `{!PreOrder R}.

Lemma keeps_ret {A} (x : A) : keeps R (ret x).
Proof. intros a. simpl. reflexivity. Qed.

Lemma keeps_read {A} (f : App.App → A) : keeps R (App.read f).
Proof. intros a. simpl. reflexivity. Qed.

Lemma keeps_bind {A B} (m : method App.App A) (k : A → method App.App B) :
  keeps R m → (∀ x, keeps R (k x)) → keeps R (bind m k).
Proof.
  intros Hm Hk a. unfold bind. specialize (Hm a).
  destruct (m a) as [a1 [x|err]]; simpl in *; [|done].
  etrans; [exact Hm|apply Hk].
Qed.

Lemma keeps_update (f : App.App → App.App) :
  (∀ a, R a (f a)) → keeps R (App.update f).
Proof. intros Hf a. apply Hf. Qed.

Lemma keeps_try_catch {A} (body : method App.App A)
    (handler : EngineError → method App.App A) :
  keeps R body → (∀ err, keeps R (handler err)) →
  keeps R (App.try_catch body handler).
Proof.
  intros Hb Hh a. unfold App.try_catch. specialize (Hb a).
  destruct (body a) as [a1 [x|err]]; simpl in *; [done|].
  etrans; [exact Hb|apply Hh].
Qed.

End Keeps.

#[global] Instance same_game_preorder : PreOrder same_game.
Proof.
  split.
  - by split.
  - intros a b c [? ?] [? ?]. split; congruence.
Qed.

(** Steps through a handler made of reads, updates and ifs. *)
Ltac keeps_steps :=
  repeat first
    [ progress cbn [andb negb]
    | match goal with |- keeps _ (match ?x with _ => _ end) => destruct x end
    | match goal with |- keeps _ (if ?x then _ else _) => destruct x end
    | match goal with |- keeps _ (ret _) =>
        apply keeps_ret; typeclasses eauto end
    | match goal with |- keeps _ (App.read _) =>
        apply keeps_read; typeclasses eauto end
    | match goal with |- keeps _ (bind _ _) =>
        apply keeps_bind; [typeclasses eauto| |intros ?] end
    | match goal with |- keeps _ (App.try_catch _ _) =>
        apply keeps_try_catch; [typeclasses eauto| |intros ?] end
    | match goal with |- keeps _ (App.update _) =>
        apply keeps_update; intros ? end ].

Ltac same := split; reflexivity.

Lemma setError_game (message : option string) :
  keeps same_game (App.setError message).
Proof. unfold App.setError. keeps_steps; same. Qed.

Lemma sendPayload_game (payload : App.PeerPayload) :
  keeps same_game (App.sendPayload payload).
Proof. unfold App.sendPayload, App.effect. keeps_steps; same. Qed.

Lemma cleanupPeer_game : keeps same_game App.cleanupPeer.
Proof.
  unfold App.cleanupPeer, App.releaseConnectionOnly, App.effect.
  keeps_steps; same.
Qed.

Lemma handleDisconnect_game (message : string) :
  keeps same_game (App.handleDisconnect message).
Proof.
  unfold App.handleDisconnect. keeps_steps; try same. apply cleanupPeer_game.
Qed.

Lemma handlePreOpenFailure_game (message : string) :
  keeps same_game (App.handlePreOpenFailure message).
Proof.
  unfold App.handlePreOpenFailure, App.releaseConnectionOnly, App.effect.
  keeps_steps; try same;
    first [apply setError_game | apply handleDisconnect_game].
Qed.

#[global] Instance republished_preorder : PreOrder republished.
Proof.
  split.
  - intros a Ha. exact Ha.
  - intros a b c Hab Hbc Ha. apply Hbc, Hab, Ha.
Qed.

Lemma keeps_weaken {A} (R R' : App.App → App.App → Prop)
    (m : method App.App A) :
  (∀ a a', R a a' → R' a a') → keeps R m → keeps R' m.
Proof. intros Himp Hm a. apply Himp, Hm. Qed.

Lemma same_game_republished (a a' : App.App) :
  same_game a a' → republished a a'.
Proof. intros [He Hg] [Hp Hs]. split; congruence. Qed.

Lemma invoke_throws (c : call) (e : Engine) (err : EngineError) :
  (invoke c e).2 = Throw err → (invoke c e).1 = e.
Proof.
  destruct c as [p|ext|idx|]; simpl.
  - done.
  - rewrite loadSnapshot_outcome. by case_bool_decide.
  - rewrite playMove_outcome. by repeat case_match.
  - destruct (getAvailableMoves_spec e) as (moves & Hget & _).
    rewrite (autoPlay_cases e moves Hget). destruct (head moves); [|done].
    rewrite playMove_outcome. by repeat case_match.
Qed.

(** A call of the engine followed by the publication of what it returns. *)
Lemma engine_then_publish {A} (c : call) (k : method App.App A) :
  keeps republished k →
  keeps republished
    (let! snap := App.call_engine (invoke c) in
     App.update (App.set_gameState snap) ;; k)%method.
Proof.
  intros Hk a Hpub. pose proof Hpub as [Hg Hs].
  destruct (engine_call_keeps c _ Hs) as [Hs' Hret].
  pose proof (invoke_throws c (App.engine a)) as Hthrow.
  unfold bind, App.call_engine, App.update.
  destruct (invoke c (App.engine a)) as [e' [s|err]]; simpl in *.
  - specialize (Hret s eq_refl). subst s.
    specialize (Hk (App.set_gameState (snapshot e') (App.set_engine e' a))).
    destruct (k _) as [a2 [x|err]]; simpl in *; apply Hk; by split.
  - rewrite (Hthrow err eq_refl). by split.
Qed.

Lemma resetGame_republished (announce : bool) :
  keeps republished (App.resetGame announce).
Proof.
  apply (engine_then_publish (CallReset X)).
  apply (keeps_weaken same_game); [apply same_game_republished|].
  keeps_steps; first [apply sendPayload_game|same].
Qed.

Lemma applyMove_republished (idx : number) (origin : App.Origin) :
  keeps republished (App.applyMove idx origin).
Proof.
  unfold App.applyMove. apply keeps_try_catch; [typeclasses eauto| |].
  - apply (engine_then_publish (CallPlayMove idx)).
    apply (keeps_weaken same_game); [apply same_game_republished|].
    keeps_steps; first [apply sendPayload_game|same].
  - intros err. apply (keeps_weaken same_game); [apply same_game_republished|].
    unfold App.effect. keeps_steps; same.
Qed.

Lemma handleIncomingPayload_republished (trim : string → string) (id : string)
    (payload : App.PeerPayload) :
  keeps republished (App.handleIncomingPayload trim id payload).
Proof.
  destruct payload as [name|name you snap|idx| |m n t]; simpl.
  - apply (keeps_weaken same_game); [apply same_game_republished|].
    keeps_steps;
      first [apply sendPayload_game
            |same
            |intros a; unfold App.call_engine; simpl; same].
  - apply keeps_bind; [typeclasses eauto| |intros ?].
    { apply keeps_update. intros a. by apply same_game_republished. }
    apply keeps_bind; [typeclasses eauto| |intros ?].
    { apply keeps_update. intros a. by apply same_game_republished. }
    apply (engine_then_publish (CallLoadSnapshot snap)).
    apply keeps_update. intros a. by apply same_game_republished.
  - apply applyMove_republished.
  - apply resetGame_republished.
  - apply keeps_update. intros a. by apply same_game_republished.
Qed.

Ltac game_untouched :=
  apply (keeps_weaken same_game); [apply same_game_republished|].

Lemma republished_of_handle (trim : string → string) (ev : event) :
  keeps republished (handle trim ev).
Proof.
  assert (keeps republished App.prepareForNewSession) as Hprepare.
  { unfold App.prepareForNewSession.
    apply keeps_bind; [typeclasses eauto| |intros ?].
    { game_untouched. apply cleanupPeer_game. }
    apply keeps_bind; [typeclasses eauto| |intros ?].
    { apply resetGame_republished. }
    game_untouched. keeps_steps; same. }
  assert (keeps same_game (App.ensureUsername trim)) as Hname.
  { unfold App.ensureUsername. keeps_steps; first [apply setError_game|same]. }
  destruct ev; simpl.
  - unfold App.startHosting.
    apply keeps_bind; [typeclasses eauto|by game_untouched|intros named].
    destruct (negb named); [apply keeps_ret; typeclasses eauto|].
    apply keeps_bind; [typeclasses eauto|exact Hprepare|intros ?].
    game_untouched. unfold App.createPeerInstance, App.effect.
    keeps_steps; same.
  - unfold App.joinGame.
    apply keeps_bind; [typeclasses eauto|by game_untouched|intros named].
    destruct (negb named); [apply keeps_ret; typeclasses eauto|].
    apply keeps_bind; [typeclasses eauto|apply keeps_read; typeclasses eauto|].
    intros target. cbn beta zeta.
    destruct (negb (App.truthy (trim target)));
      [game_untouched; apply setError_game|].
    apply keeps_bind; [typeclasses eauto|exact Hprepare|intros ?].
    game_untouched. unfold App.createPeerInstance, App.effect.
    keeps_steps; same.
  - game_untouched. apply handleDisconnect_game.
  - unfold App.handleCellClick.
    apply keeps_bind; [typeclasses eauto| |intros ok].
    + game_untouched. unfold App.canPlayCell. keeps_steps; same.
    + destruct (negb ok); [apply keeps_ret; typeclasses eauto|].
      apply applyMove_republished.
  - apply resetGame_republished.
  - game_untouched. unfold App.sendChatMessage, App.appendChatMessage.
    keeps_steps; first [apply sendPayload_game|same].
  - game_untouched. apply cleanupPeer_game.
  - game_untouched. unfold App.host_peer_on_open. keeps_steps; same.
  - game_untouched.
    unfold App.host_peer_on_connection, App.setupConnection, App.effect.
    keeps_steps; same.
  - game_untouched. apply setError_game.
  - game_untouched.
    unfold App.join_peer_on_open, App.setupConnection, App.effect.
    keeps_steps; first [apply setError_game|same].
  - game_untouched. unfold App.connection_on_open.
    keeps_steps; first [apply setError_game|apply sendPayload_game|same].
  - apply handleIncomingPayload_republished.
  - game_untouched. unfold App.connection_on_close.
    destruct (negb hasOpened);
      [apply handlePreOpenFailure_game|apply handleDisconnect_game].
  - game_untouched. unfold App.connection_on_error.
    destruct (negb hasOpened);
      [apply handlePreOpenFailure_game|apply handleDisconnect_game].
Qed.

Lemma cleanupPeer_run (a : App.App) :
  App.cleanupPeer a
  = (App.set_peer None
       (App.set_connection None
          (App.set_effects (App.effects a ++ teardown a) a)), Return tt).
Proof.
  unfold App.cleanupPeer, App.releaseConnectionOnly, bind, App.read,
    App.update, App.effect.
  destruct a as [e [p|] [c|] g cs un on hp jt cm ci lp im em ef];
    unfold teardown; simpl; rewrite <-?app_assoc; simpl; rewrite ?app_nil_r;
    reflexivity.
Qed.

Lemma handleDisconnect_run (message : string) (a : App.App) :
  App.handleDisconnect message a
  = (App.MkApp (App.engine a) None None (App.gameState a) App.idle
       (App.username a) ""%string (App.hostPeerId a) (App.joinTargetId a)
       [] (App.chatInput a) None (Some message) (App.errorMessage a)
       (App.effects a ++ teardown a), Return tt).
Proof.
  unfold App.handleDisconnect, bind, App.update; simpl.
  rewrite cleanupPeer_run. reflexivity.
Qed.

(** X12.  handleDisconnect(message) closes the connection and destroys the peer
    if there are any and forgets both, sets the connection state to idle, the
    information message to the message, the local player to null, and clears the
    opponent's name and the chat; the engine, the published gameState, the
    username, the host id, the join target, the chat input and the error message
    are kept.  A second call changes nothing more. *)
Theorem handleDisconnect_ends_the_session (message : string) (a : App.App) :
  ∃ a',
    App.handleDisconnect message a = (a', Return tt)
    ∧ a' = App.MkApp (App.engine a) None None (App.gameState a) App.idle
             (App.username a) ""%string (App.hostPeerId a) (App.joinTargetId a)
             [] (App.chatInput a) None (Some message) (App.errorMessage a)
             (App.effects a ++ teardown a)
    ∧ App.handleDisconnect message a' = (a', Return tt).
Proof.
  eexists. split; [apply handleDisconnect_run|]. split; [reflexivity|].
  rewrite handleDisconnect_run. unfold teardown; simpl. by rewrite app_nil_r.
Qed.

Lemma setError_run (message : string) (a : App.App) :
  App.setError (Some message) a
  = (if App.truthy message
     then App.set_infoMessage None (App.set_errorMessage (Some message) a)
     else App.set_errorMessage (Some message) a, Return tt).
Proof.
  unfold App.setError, bind, App.update; simpl. by destruct (App.truthy message).
Qed.

(** X13.  When a connection fails before it has opened: a hosting component only
    closes and forgets that connection, sets the error to the message and the
    information message to 'Still hosting. Waiting for another opponent.', and
    keeps its peer, its state and its player; a joining component ends the
    session as handleDisconnect does and sets the error to the message, which
    leaves the information message null when the message is not empty; in any
    other state it does what handleDisconnect(message) does. *)
Theorem handlePreOpenFailure_keeps_the_host_waiting (message : string)
    (a : App.App) :
  (App.connectionState a = App.hosting →
   App.handlePreOpenFailure message a
   = (App.MkApp (App.engine a) (App.peer a) None (App.gameState a) App.hosting
        (App.username a) (App.opponentName a) (App.hostPeerId a)
        (App.joinTargetId a) (App.chatMessages a) (App.chatInput a)
        (App.localPlayer a)
        (Some "Still hosting. Waiting for another opponent."%string)
        (Some message)
        (App.effects a
           ++ if App.connection a is Some _ then [App.ConnectionClosed] else []),
      Return tt))
  ∧ (App.connectionState a = App.joining →
     App.handlePreOpenFailure message a
     = (App.MkApp (App.engine a) None None (App.gameState a) App.idle
          (App.username a) ""%string (App.hostPeerId a) (App.joinTargetId a)
          [] (App.chatInput a) None
          (if App.truthy message then None
           else Some "Failed to connect to host."%string)
          (Some message)
          (App.effects a ++ teardown a),
        Return tt))
  ∧ (App.connectionState a ≠ App.hosting →
     App.connectionState a ≠ App.joining →
     App.handlePreOpenFailure message a = App.handleDisconnect message a).
Proof.
  unfold App.handlePreOpenFailure, bind, App.read. cbn [fst snd].
  split; [|split].
  - destruct a as [e p c g cs un on hp jt cm ci lp im em ef].
    cbn [App.connectionState]. intros ->.
    rewrite bool_decide_eq_true_2 by done.
    unfold App.releaseConnectionOnly, bind, App.read, App.update, App.effect.
    destruct c as [c|]; simpl;
      rewrite setError_run; destruct (App.truthy message); simpl;
      rewrite ?app_nil_r; reflexivity.
  - intros Hcs. rewrite Hcs. rewrite bool_decide_eq_false_2 by done.
    rewrite bool_decide_eq_true_2 by done.
    rewrite handleDisconnect_run.
    rewrite setError_run. by destruct (App.truthy message).
  - intros H1 H2. by rewrite !bool_decide_eq_false_2.
Qed.

Lemma ensureUsername_run (trim : string → string) (a : App.App) :
  App.ensureUsername trim a
  = if bool_decide (trim (App.username a) = ""%string)
    then (App.set_infoMessage None
            (App.set_errorMessage (Some "Choose a username first."%string) a),
          Return false)
    else (App.set_errorMessage None a, Return true).
Proof.
  unfold App.ensureUsername, bind, App.read, App.truthy; cbn [fst snd].
  destruct (decide (trim (App.username a) = ""%string)) as [Heq|Hne].
  - rewrite (bool_decide_eq_false_2 (_ ≠ _)) by (by intros H; apply H).
    rewrite bool_decide_eq_true_2 by done. reflexivity.
  - rewrite (bool_decide_eq_true_2 (_ ≠ _)) by done.
    rewrite bool_decide_eq_false_2 by done. reflexivity.
Qed.

Lemma prepare_and_create_run (cs : App.ConnectionState) (mark : TicTacToePlayer)
    (a : App.App) :
  (App.prepareForNewSession ;;
   App.update (App.set_connectionState cs) ;;
   App.update (App.set_localPlayer (Some mark)) ;;
   let! p := App.createPeerInstance in
   App.update (App.set_peer (Some p)))%method (App.set_errorMessage None a)
  = (new_session cs mark a, Return tt).
Proof.
  unfold App.prepareForNewSession. unfold bind at 1 2.
  rewrite cleanupPeer_run.
  destruct a as [e p c g s un on hp jt cm ci lp im em ef].
  unfold new_session, teardown, App.resetGame, App.createPeerInstance,
    App.call_engine, App.effect, App.update, App.read, bind, ret.
  simpl. rewrite <-?app_assoc. reflexivity.
Qed.

(** X14.  startHosting with a username that is empty once trimmed only sets the
    error 'Choose a username first.' and clears the information message.
    Otherwise it closes the connection and destroys the peer if there are any,
    resets the engine with X to start and publishes its snapshot, clears the
    chat, the opponent's name, the host id and the error, creates a peer, and
    leaves the component hosting as player X. *)
Theorem startHosting_opens_a_lobby (trim : string → string) (a : App.App) :
  (trim (App.username a) = ""%string →
   App.startHosting trim a
   = (App.set_infoMessage None
        (App.set_errorMessage (Some "Choose a username first."%string) a),
      Return tt))
  ∧ (trim (App.username a) ≠ ""%string →
     App.startHosting trim a = (new_session App.hosting X a, Return tt)).
Proof.
  assert (App.startHosting trim a
          = if bool_decide (trim (App.username a) = ""%string)
            then (App.set_infoMessage None
                    (App.set_errorMessage
                       (Some "Choose a username first."%string) a),
                  Return tt)
            else (new_session App.hosting X a, Return tt)) as ->.
  { unfold App.startHosting. unfold bind at 1. rewrite ensureUsername_run.
    case_bool_decide; [reflexivity|apply prepare_and_create_run]. }
  split; intros Hname.
  - by rewrite bool_decide_eq_true_2.
  - by rewrite bool_decide_eq_false_2.
Qed.

(** X15.  joinGame with a username that is empty once trimmed only sets the
    error 'Choose a username first.'; with a username but a host id that is
    empty once trimmed it only sets the error 'Enter a host ID to join.'; both
    clear the information message.  Otherwise it closes the connection and
    destroys the peer if there are any, resets the engine with X to start and
    publishes its snapshot, clears the chat, the opponent's name, the host id
    and the error, creates a peer, and leaves the component joining as player O. *)
Theorem joinGame_calls_a_host (trim : string → string) (a : App.App) :
  (trim (App.username a) = ""%string →
   App.joinGame trim a
   = (App.set_infoMessage None
        (App.set_errorMessage (Some "Choose a username first."%string) a),
      Return tt))
  ∧ (trim (App.username a) ≠ ""%string →
     trim (App.joinTargetId a) = ""%string →
     App.joinGame trim a
     = (App.set_infoMessage None
          (App.set_errorMessage (Some "Enter a host ID to join."%string) a),
        Return tt))
  ∧ (trim (App.username a) ≠ ""%string →
     trim (App.joinTargetId a) ≠ ""%string →
     App.joinGame trim a = (new_session App.joining O a, Return tt)).
Proof.
  assert (App.joinGame trim a
          = if bool_decide (trim (App.username a) = ""%string)
            then (App.set_infoMessage None
                    (App.set_errorMessage
                       (Some "Choose a username first."%string) a),
                  Return tt)
            else if bool_decide (trim (App.joinTargetId a) = ""%string)
            then (App.set_infoMessage None
                    (App.set_errorMessage
                       (Some "Enter a host ID to join."%string) a),
                  Return tt)
            else (new_session App.joining O a, Return tt)) as ->.
  { unfold App.joinGame. unfold bind at 1. rewrite ensureUsername_run.
    case_bool_decide as Hname; [reflexivity|]. cbn [negb].
    unfold bind at 1. unfold App.read at 1. cbn [fst snd].
    replace (App.joinTargetId (App.set_errorMessage None a))
      with (App.joinTargetId a) by done.
    unfold App.truthy.
    destruct (decide (trim (App.joinTargetId a) = ""%string)) as [Htarget|Htarget].
    - rewrite (bool_decide_eq_false_2 (_ ≠ _)) by (by intros H; apply H).
      rewrite bool_decide_eq_true_2 by done.
      cbn [negb]. by destruct a.
    - rewrite (bool_decide_eq_true_2 (_ ≠ _)) by done.
      rewrite bool_decide_eq_false_2 by done.
      cbn [negb]. apply prepare_and_create_run. }
  split; [|split]; intros Hname.
  - by rewrite bool_decide_eq_true_2.
  - intros Htarget. by rewrite bool_decide_eq_false_2, bool_decide_eq_true_2.
  - intros Htarget. by rewrite !bool_decide_eq_false_2.
Qed.

Lemma sendPayload_run (payload : App.PeerPayload) (a : App.App) :
  App.sendPayload payload a
  = (App.set_effects (App.effects a ++ outgoing a payload) a, Return tt).
Proof.
  unfold App.sendPayload, outgoing, can_send, bind, App.read, App.effect,
    App.update, ret.
  destruct a as [e p [[[|]]|] g cs un on hp jt cm ci lp im em ef]; simpl;
    rewrite ?app_nil_r; reflexivity.
Qed.

Lemma canPlayCell_run (idx : number) (a : App.App) :
  App.canPlayCell idx a
  = (a, Return (bool_decide (status (App.gameState a) = InProgress)
                && bool_decide (element_at (board (App.gameState a)) idx
                                = Some None)
                && bool_decide (App.connectionState a = App.connected)
                && bool_decide (App.localPlayer a
                                = Some (currentPlayer (App.gameState a))))).
Proof.
  unfold App.canPlayCell, bind, App.read, ret; cbn [fst snd].
  destruct (decide (status (App.gameState a) = InProgress)) as [Hs|Hs].
  2: { rewrite (bool_decide_eq_true_2 (_ ≠ _)) by done.
       by rewrite (bool_decide_eq_false_2 (_ = InProgress)) by done. }
  rewrite (bool_decide_eq_false_2 (_ ≠ InProgress)) by (by intros H; apply H).
  rewrite (bool_decide_eq_true_2 (_ = InProgress)) by done.
  destruct (decide (element_at (board (App.gameState a)) idx = Some None))
    as [Hc|Hc].
  2: { rewrite (bool_decide_eq_true_2 (_ ≠ Some None)) by done.
       by rewrite (bool_decide_eq_false_2 (_ = Some None)) by done. }
  rewrite (bool_decide_eq_false_2 (_ ≠ Some None)) by (by intros H; apply H).
  rewrite (bool_decide_eq_true_2 (_ = Some None)) by done.
  destruct (decide (App.connectionState a = App.connected)) as [Hn|Hn].
  2: { rewrite (bool_decide_eq_true_2 (_ ≠ App.connected)) by done.
       by rewrite (bool_decide_eq_false_2 (_ = App.connected)) by done. }
  rewrite (bool_decide_eq_false_2 (_ ≠ App.connected)) by (by intros H; apply H).
  rewrite (bool_decide_eq_true_2 (_ = App.connected)) by done.
  cbn [andb]. do 2 f_equal.
  destruct (App.localPlayer a) as [p|].
  - rewrite (bool_decide_eq_true_2 (Some p ≠ None)) by done. cbn [andb].
    apply bool_decide_ext. split; congruence.
  - by rewrite (bool_decide_eq_false_2 (None ≠ None)) by (by intros H; apply H).
Qed.

Lemma applyMove_run (idx : number) (origin : App.Origin) (a : App.App) :
  App.applyMove idx origin a
  = match playMove idx (App.engine a) with
    | (e', Return s) =>
        (App.set_effects
           (App.effects a
              ++ match origin with
                 | App.local => outgoing a (App.MovePayload idx)
                 | App.remote => []
                 end)
           (App.set_gameState s (App.set_engine e' a)), Return tt)
    | (e', Throw err) =>
        (App.set_effects (App.effects a ++ [App.Warned err])
           (App.set_engine e' a), Return tt)
    end.
Proof.
  unfold App.applyMove, App.try_catch, bind, App.call_engine.
  destruct (playMove idx (App.engine a)) as [e' [s|err]].
  - unfold App.update; cbn [fst snd]. destruct origin.
    + rewrite sendPayload_run. by destruct a.
    + destruct a; simpl. by rewrite app_nil_r.
  - by destruct a.
Qed.

(** The guard of a click and the test of the engine. *)
Lemma click_guard (idx : number) (a : App.App) :
  published a →
  bool_decide (status (App.gameState a) = InProgress)
  && bool_decide (element_at (board (App.gameState a)) idx = Some None) = true
  ↔ ∃ e' s, playMove idx (App.engine a) = (e', Return s).
Proof.
  intros [Hg (_ & _ & Hlen)]. rewrite Hg, playMove_outcome.
  rewrite andb_true_iff, !bool_decide_eq_true. split.
  - intros [Hs Hc]. rewrite bool_decide_eq_false_2 by (by intros H; apply H).
    destruct idx as [z| | | |]; try done.
    pose proof (element_Some_lt _ _ _ Hc) as Hz. simpl.
    rewrite !bool_decide_eq_true_2 by lia. simpl.
    rewrite bool_decide_eq_false_2 by (by intros H; apply H). by eauto.
  - case_bool_decide as Hs; [by intros (? & ? & ?)|].
    destruct (negb (isInteger idx) || _ || _); [by intros (? & ? & ?)|].
    case_bool_decide as Hc; [by intros (? & ? & ?)|]. intros _. split.
    + by destruct (decide (status (snapshot (App.engine a)) = InProgress)).
    + by destruct (decide (element_at (board (snapshot (App.engine a))) idx
                           = Some None)).
Qed.

Lemma handleCellClick_run (idx : number) (a : App.App) :
  published a →
  App.handleCellClick idx a
  = if bool_decide (App.connectionState a = App.connected)
       && bool_decide (App.localPlayer a
                       = Some (currentPlayer (App.gameState a)))
    then match playMove idx (App.engine a) with
         | (e', Return s) =>
             (App.set_effects
                (App.effects a ++ outgoing a (App.MovePayload idx))
                (App.set_gameState s (App.set_engine e' a)), Return tt)
         | (_, Throw _) => (a, Return tt)
         end
    else (a, Return tt).
Proof.
  intros Hpub. unfold App.handleCellClick, bind. rewrite canPlayCell_run.
  pose proof (click_guard idx a Hpub) as Hguard.
  destruct (bool_decide (status (App.gameState a) = InProgress)
            && bool_decide (element_at (board (App.gameState a)) idx = Some None))
    eqn:Hlegal; cbn [andb].
  - destruct (proj1 Hguard eq_refl) as (e' & s & Hplay).
    destruct (bool_decide (App.connectionState a = App.connected)
              && bool_decide (App.localPlayer a
                              = Some (currentPlayer (App.gameState a))));
      cbn [negb]; [|done].
    by rewrite applyMove_run, Hplay.
  - destruct (playMove idx (App.engine a)) as [e' [s|err]] eqn:Hplay.
    + assert (false = true); [|done]. apply Hguard. by eauto.
    + cbn [negb]. by destruct (bool_decide (App.connectionState a = App.connected) && _).
Qed.

(** X16.  On a component whose gameState is the snapshot of its 3 x 3 engine:
    when the component is connected, the local player is the current player and
    the engine accepts playMove(index), handleCellClick(index) plays that move
    on the engine, publishes the returned snapshot and sends the move payload if
    the connection is open; in every other case it changes nothing and sends
    nothing. *)
Theorem handleCellClick_plays_a_legal_turn (idx : number) (a : App.App)
    (Hpub : published a) :
  (App.connectionState a = App.connected
   ∧ App.localPlayer a = Some (currentPlayer (App.gameState a))
   ∧ (∃ e' s, playMove idx (App.engine a) = (e', Return s)) →
   ∃ e' s,
     playMove idx (App.engine a) = (e', Return s)
     ∧ App.handleCellClick idx a
       = (App.set_effects
            (App.effects a ++ outgoing a (App.MovePayload idx))
            (App.set_gameState s (App.set_engine e' a)), Return tt))
  ∧ (¬ (App.connectionState a = App.connected
        ∧ App.localPlayer a = Some (currentPlayer (App.gameState a))
        ∧ ∃ e' s, playMove idx (App.engine a) = (e', Return s)) →
     App.handleCellClick idx a = (a, Return tt)).
Proof.
  rewrite (handleCellClick_run idx a Hpub). split.
  - intros (Hc & Hp & e' & s & Hplay).
    rewrite !bool_decide_eq_true_2 by done. cbn [andb]. rewrite Hplay.
    by exists e', s.
  - intros Hno.
    destruct (decide (App.connectionState a = App.connected)) as [Hc|Hc];
      [|by rewrite (bool_decide_eq_false_2 _ Hc)].
    destruct (decide (App.localPlayer a
                      = Some (currentPlayer (App.gameState a)))) as [Hp|Hp];
      [|by rewrite (bool_decide_eq_false_2 _ Hp), andb_false_r].
    rewrite !bool_decide_eq_true_2 by done. cbn [andb].
    destruct (playMove idx (App.engine a)) as [e' [s|err]] eqn:Hplay; [|done].
    destruct Hno. by eauto 6.
Qed.

(** The host, playing X, clicks cell 4 of a new board. *)
Lemma handleCellClick_plays_a_legal_turn_witness :
  ∃ e' s,
    playMove (Int 4) (App.engine host_app) = (e', Return s)
    ∧ App.handleCellClick (Int 4) host_app
      = (App.set_effects
           (App.effects host_app ++ outgoing host_app (App.MovePayload (Int 4)))
           (App.set_gameState s (App.set_engine e' host_app)), Return tt).
Proof.
  destruct (handleCellClick_plays_a_legal_turn (Int 4) host_app) as [Hplay _].
  - apply published_in_session, sized_fresh3.
  - apply Hplay. split; [reflexivity|]. split; [reflexivity|].
    eexists _, _. by vm_compute.
Defined.

(** X17.  A move payload is played without any check of the connection state or
    of whose turn it is locally: when the engine accepts playMove(index) the
    component takes the engine's new state, publishes the returned snapshot and
    sends nothing; when the engine refuses it the component only logs the error
    to the console and is otherwise unchanged. *)
Theorem a_remote_move_is_played_or_dropped (trim : string → string)
    (id : string) (idx : number) (a : App.App) :
  (∀ e' s, playMove idx (App.engine a) = (e', Return s) →
           App.handleIncomingPayload trim id (App.MovePayload idx) a
           = (App.set_gameState s (App.set_engine e' a), Return tt))
  ∧ (∀ e' err, playMove idx (App.engine a) = (e', Throw err) →
               App.handleIncomingPayload trim id (App.MovePayload idx) a
               = (App.set_effects (App.effects a ++ [App.Warned err]) a,
                  Return tt)).
Proof.
  cbn [App.handleIncomingPayload]. rewrite applyMove_run. split.
  - intros e' s ->. destruct a; simpl. by rewrite app_nil_r.
  - intros e' err Hplay. rewrite Hplay.
    pose proof (invoke_throws (CallPlayMove idx) (App.engine a) err) as Hsame.
    simpl in Hsame. rewrite Hplay in Hsame. simpl in Hsame.
    rewrite (Hsame eq_refl). by destruct a.
Qed.

(** X18.  On a component with its 3 x 3 engine, a host-ready payload whose
    snapshot has a board of 9 cells is adopted: the opponent's name and the
    local player are set from the payload, the engine holds the payload's
    snapshot, the published gameState is that snapshot and the information
    message names the host and the mark.  With a board of any other length the
    error of loadSnapshot escapes from the listener after the opponent's name
    and the local player have been set; engine, gameState and information
    message stay as they were. *)
Theorem host_ready_is_adopted_or_escapes (trim : string → string) (id : string)
    (name : string) (youAre : TicTacToePlayer) (snap : TicTacToeSnapshot)
    (a : App.App) (Hpub : published a) :
  (length (board snap) = 9%nat →
   App.handleIncomingPayload trim id (App.HostReadyPayload name youAre snap) a
   = (App.set_infoMessage
        (Some ("Connected to " +:+ name +:+ ". You are playing as "
               +:+ App.player_string youAre +:+ "."))
        (App.set_gameState snap
           (App.set_engine (MkEngine 3 9 snap)
              (App.set_localPlayer (Some youAre)
                 (App.set_opponentName name a)))), Return tt))
  ∧ (length (board snap) ≠ 9%nat →
     App.handleIncomingPayload trim id (App.HostReadyPayload name youAre snap) a
     = (App.set_localPlayer (Some youAre) (App.set_opponentName name a),
        Throw SizeMismatch)).
Proof.
  destruct Hpub as [_ (Hn & Ht & _)].
  cbn [App.handleIncomingPayload].
  unfold bind, App.update, App.call_engine; cbn [fst snd].
  replace (App.engine (App.set_localPlayer (Some youAre)
                         (App.set_opponentName name a)))
    with (App.engine a) by (by destruct a).
  rewrite loadSnapshot_outcome, Hn, Ht. split; intros Hlen.
  - rewrite bool_decide_eq_false_2 by lia. by destruct a.
  - rewrite bool_decide_eq_true_2 by lia. by destruct a.
Qed.

(** A guest receives the host's game after one move. *)
Lemma host_ready_is_adopted_or_escapes_witness :
  App.handleIncomingPayload id "m1"
    (App.HostReadyPayload "Ann" O (snapshot after_x0)) guest_joining
  = (App.set_infoMessage
       (Some "Connected to Ann. You are playing as O."%string)
       (App.set_gameState (snapshot after_x0)
          (App.set_engine (MkEngine 3 9 (snapshot after_x0))
             (App.set_localPlayer (Some O)
                (App.set_opponentName "Ann" guest_joining)))), Return tt).
Proof.
  destruct (host_ready_is_adopted_or_escapes id "m1" "Ann" O (snapshot after_x0)
              guest_joining) as [Hadopt _].
  - split; [reflexivity|apply sized_fresh3].
  - apply Hadopt. reflexivity.
Defined.

Lemma sent_app (l k : list App.Effect) : sent (l ++ k) = sent l ++ sent k.
Proof. unfold sent. apply omap_app. Qed.

#[global] Instance silent_preorder : PreOrder silent.
Proof.
  split.
  - intros a. exists []. by rewrite app_nil_r.
  - intros a b c (e1 & H1 & S1) (e2 & H2 & S2). exists (e1 ++ e2).
    split; [by rewrite H2, H1, app_assoc|]. by rewrite sent_app, S1, S2.
Qed.

#[global] Instance speaks_if_open_preorder : PreOrder speaks_if_open.
Proof.
  split.
  - intros a. split; [done|]. exists []. by rewrite app_nil_r.
  - intros a b c (C1 & e1 & H1 & S1) (C2 & e2 & H2 & S2).
    split; [congruence|]. exists (e1 ++ e2).
    split; [by rewrite H2, H1, app_assoc|].
    rewrite sent_app. intros Hs.
    destruct (sent e1) eqn:He1; [|by apply S1].
    simpl in Hs. specialize (S2 Hs). unfold can_send in *. by rewrite <-C1.
Qed.

Lemma sent_since_app (a a' : App.App) (extra : list App.Effect) :
  App.effects a' = App.effects a ++ extra → sent_since a a' = sent extra.
Proof. intros H. unfold sent_since. by rewrite H, drop_app_length. Qed.

Ltac quiet := (exists []; simpl; by rewrite app_nil_r).

Ltac quiet_call := (eexists [_]; split; reflexivity).

Lemma sendPayload_speaks (payload : App.PeerPayload) :
  keeps speaks_if_open (App.sendPayload payload).
Proof.
  intros a. rewrite sendPayload_run. simpl. split; [by destruct a|].
  exists (outgoing a payload). split; [by destruct a|].
  unfold outgoing. by destruct (can_send a).
Qed.

Lemma silent_speaks (a a' : App.App) :
  App.connection a' = App.connection a → silent a a' → speaks_if_open a a'.
Proof.
  intros Hc (extra & He & Hs). split; [done|]. exists extra.
  split; [done|]. by rewrite Hs.
Qed.

Lemma call_engine_silent {A} (m : method Engine A) :
  keeps silent (App.call_engine m).
Proof.
  intros a. unfold App.call_engine. destruct (m (App.engine a)). quiet.
Qed.

Lemma call_engine_speaks {A} (m : method Engine A) :
  keeps speaks_if_open (App.call_engine m).
Proof.
  intros a. unfold App.call_engine. destruct (m (App.engine a)).
  apply silent_speaks; [done|quiet].
Qed.

Ltac silent_steps :=
  keeps_steps;
  first [ apply call_engine_silent | quiet | quiet_call ].

Ltac speaking_steps :=
  keeps_steps;
  first [ apply call_engine_speaks
        | apply sendPayload_speaks
        | (apply silent_speaks; [reflexivity|first [quiet | quiet_call]]) ].

Lemma cleanupPeer_silent : keeps silent App.cleanupPeer.
Proof.
  unfold App.cleanupPeer, App.releaseConnectionOnly, App.effect. silent_steps.
Qed.

Lemma handleDisconnect_silent (message : string) :
  keeps silent (App.handleDisconnect message).
Proof.
  unfold App.handleDisconnect. keeps_steps; first [apply cleanupPeer_silent|quiet].
Qed.

Lemma setError_silent (message : option string) :
  keeps silent (App.setError message).
Proof. unfold App.setError. silent_steps. Qed.

Lemma handlePreOpenFailure_silent (message : string) :
  keeps silent (App.handlePreOpenFailure message).
Proof.
  unfold App.handlePreOpenFailure, App.releaseConnectionOnly, App.effect.
  keeps_steps;
    first [apply setError_silent|apply handleDisconnect_silent|quiet|quiet_call].
Qed.

Lemma setError_speaks (message : option string) :
  keeps speaks_if_open (App.setError message).
Proof. unfold App.setError. speaking_steps. Qed.

Lemma resetGame_speaks (announce : bool) :
  keeps speaks_if_open (App.resetGame announce).
Proof. unfold App.resetGame. speaking_steps. Qed.

Lemma applyMove_speaks (idx : number) (origin : App.Origin) :
  keeps speaks_if_open (App.applyMove idx origin).
Proof. unfold App.applyMove, App.effect. speaking_steps. Qed.

Lemma handleIncomingPayload_speaks (trim : string → string) (id : string)
    (payload : App.PeerPayload) :
  keeps speaks_if_open (App.handleIncomingPayload trim id payload).
Proof.
  destruct payload; cbn [App.handleIncomingPayload];
    [ |  |apply applyMove_speaks|apply resetGame_speaks| ];
    unfold App.appendChatMessage; speaking_steps.
Qed.

Lemma startHosting_silent (trim : string → string) :
  keeps silent (App.startHosting trim).
Proof.
  unfold App.startHosting, App.ensureUsername, App.prepareForNewSession,
    App.resetGame, App.createPeerInstance, App.effect.
  keeps_steps;
    first [apply setError_silent|apply cleanupPeer_silent
          |apply call_engine_silent|quiet|quiet_call].
Qed.

Lemma joinGame_silent (trim : string → string) :
  keeps silent (App.joinGame trim).
Proof.
  unfold App.joinGame, App.ensureUsername, App.prepareForNewSession,
    App.resetGame, App.createPeerInstance, App.effect.
  keeps_steps;
    first [apply setError_silent|apply cleanupPeer_silent
          |apply call_engine_silent|quiet|quiet_call].
Qed.

(** X19.  Whatever handler or listener of the component runs, if it sends a
    payload then the component had a connection whose open flag was set before
    the call, and it still has that connection after the call. *)
Theorem payloads_need_an_open_connection (trim : string → string) (ev : event)
    (a : App.App)
    (Hsent : sent_since a (handle trim ev a).1 ≠ []) :
  ∃ c, App.connection a = Some c ∧ App.open c = true
       ∧ App.connection (handle trim ev a).1 = Some c.
Proof.
  assert (silent a (handle trim ev a).1 ∨ speaks_if_open a (handle trim ev a).1)
    as [(extra & He & Hs)|(Hc & extra & He & Hs)].
  { destruct ev; simpl.
    - left. apply startHosting_silent.
    - left. apply joinGame_silent.
    - left. apply handleDisconnect_silent.
    - right. revert a Hsent. intros a _. revert a.
      change (keeps speaks_if_open (App.handleCellClick idx)).
      unfold App.handleCellClick, App.canPlayCell.
      keeps_steps;
        first [apply applyMove_speaks
              |(apply silent_speaks; [reflexivity|quiet])].
    - right. apply resetGame_speaks.
    - right. revert a Hsent. intros a _. revert a.
      change (keeps speaks_if_open (App.sendChatMessage trim id now)).
      unfold App.sendChatMessage, App.appendChatMessage. speaking_steps.
    - left. apply cleanupPeer_silent.
    - left. revert a Hsent. intros a _. revert a.
      change (keeps silent (App.host_peer_on_open id)).
      unfold App.host_peer_on_open. silent_steps.
    - left. revert a Hsent. intros a _. revert a.
      change (keeps silent (App.host_peer_on_connection conn)).
      unfold App.host_peer_on_connection, App.setupConnection, App.effect.
      silent_steps.
    - left. apply setError_silent.
    - left. revert a Hsent. intros a _. revert a.
      change (keeps silent (App.join_peer_on_open targetId made)).
      unfold App.join_peer_on_open, App.setupConnection, App.effect.
      keeps_steps; first [apply setError_silent|quiet|quiet_call].
    - right. revert a Hsent. intros a _. revert a.
      change (keeps speaks_if_open (App.connection_on_open trim initiator)).
      unfold App.connection_on_open.
      keeps_steps;
        first [apply setError_speaks|apply sendPayload_speaks
              |(apply silent_speaks; [reflexivity|quiet])].
    - right. apply handleIncomingPayload_speaks.
    - left. unfold App.connection_on_close. destruct (negb hasOpened);
        [apply handlePreOpenFailure_silent|apply handleDisconnect_silent].
    - left. unfold App.connection_on_error. destruct (negb hasOpened);
        [apply handlePreOpenFailure_silent|apply handleDisconnect_silent]. }
  - rewrite (sent_since_app _ _ _ He) in Hsent. done.
  - rewrite (sent_since_app _ _ _ He) in Hsent. specialize (Hs Hsent).
    unfold can_send in Hs. rewrite Hc.
    destruct (App.connection a) as [c|]; [|done]. by exists c.
Qed.

(** A connected host resets the game. *)
Lemma payloads_need_an_open_connection_witness :
  ∃ c, App.connection host_app = Some c ∧ App.open c = true
       ∧ App.connection (handle id ResetGame host_app).1 = Some c.
Proof.
  apply (payloads_need_an_open_connection id ResetGame host_app).
  by vm_compute.
Defined.

Lemma new_App_published : published App.new_App.
Proof. split; [done|]. by vm_compute. Qed.

(** X20.  After any sequence of calls of the component's handlers and listeners
    (startHosting, joinGame, cancelConnection, handleCellClick, resetGame,
    sendChatMessage, ngOnDestroy, the listeners of the peer and of the
    connection with any payload), starting from a new component and going on
    after a listener has thrown, the published gameState is the snapshot the
    engine holds, and the engine is still 3 x 3 with a board of 9 cells. *)
Theorem gameState_is_what_the_engine_holds (trim : string → string)
    (events : list event) :
  App.gameState (after trim events App.new_App)
  = snapshot (App.engine (after trim events App.new_App))
  ∧ sized 3 (App.engine (after trim events App.new_App)).
Proof.
  change (published (after trim events App.new_App)).
  unfold after. generalize new_App_published. generalize App.new_App.
  induction events as [|ev events IH]; intros a Ha; [done|].
  simpl. apply IH. revert Ha. apply republished_of_handle.
Qed.

Lemma sent_since_outgoing (a a' : App.App) (payload : App.PeerPayload) :
  App.effects a' = App.effects a ++ outgoing a payload →
  can_send a = true → sent_since a a' = [payload].
Proof.
  intros He Hopen. rewrite (sent_since_app _ _ _ He).
  unfold outgoing. by rewrite Hopen.
Qed.

Lemma sized_3_engine (e : Engine) :
  sized 3 e → e = MkEngine 3 9 (snapshot e).
Proof. destruct e as [n t s]. intros (Hn & Ht & _). simpl in *. by subst. Qed.

Lemma reset_run (p : TicTacToePlayer) (e : Engine) :
  reset p e
  = (MkEngine (boardSize e) (totalCells e)
       (createEmptySnapshot (totalCells e) p),
     Return (createEmptySnapshot (totalCells e) p)).
Proof. by destruct e. Qed.

Lemma resetGame_run (announce : bool) (a : App.App) :
  App.resetGame announce a
  = (App.set_effects
       (App.effects a
          ++ if announce && bool_decide (App.connectionState a = App.connected)
             then outgoing a App.ResetPayload else [])
       (App.set_gameState
          (createEmptySnapshot (totalCells (App.engine a)) X)
          (App.set_engine
             (MkEngine (boardSize (App.engine a)) (totalCells (App.engine a))
                (createEmptySnapshot (totalCells (App.engine a)) X)) a)),
     Return tt).
Proof.
  unfold App.resetGame, bind, App.call_engine, App.update, App.read.
  rewrite reset_run. cbn [fst snd].
  replace (App.connectionState (App.set_gameState _ (App.set_engine _ a)))
    with (App.connectionState a) by (by destruct a).
  destruct (announce && _).
  - rewrite sendPayload_run. by destruct a.
  - destruct a; simpl. by rewrite app_nil_r.
Qed.

(** X21.  Two components whose gameState is the snapshot of their 3 x 3 engines
    and whose engines are in the same state: when the first one is connected
    with an open connection and handles a click on a cell or a reset, and the
    second one receives the payloads the first one sent, both engines are again
    in the same state, both publish the same gameState, and the second one sends
    nothing back. *)
Theorem a_local_action_reaches_the_other_side (trim : string → string)
    (id : string) (ev : event) (a b : App.App)
    (Hev : (∃ idx, ev = CellClick idx) ∨ ev = ResetGame)
    (Ha : published a) (Hb : published b)
    (Hsame : App.engine a = App.engine b)
    (Hconnected : App.connectionState a = App.connected)
    (Hopen : can_send a = true) :
  App.engine (deliver trim id (sent_since a (handle trim ev a).1) b)
  = App.engine (handle trim ev a).1
  ∧ App.gameState (deliver trim id (sent_since a (handle trim ev a).1) b)
    = App.gameState (handle trim ev a).1
  ∧ sent_since b (deliver trim id (sent_since a (handle trim ev a).1) b) = [].
Proof.
  assert (sent_since a a = []) as Hnone
    by (apply (sent_since_app a a []); by rewrite app_nil_r).
  assert (sent_since b b = []) as Hnone'
    by (apply (sent_since_app b b []); by rewrite app_nil_r).
  destruct Hev as [[idx ->]| ->]; cbn [handle].
  - rewrite (handleCellClick_run idx a Ha).
    destruct (_ && _);
      [|cbn [fst]; rewrite Hnone; cbn [deliver foldl];
        destruct Ha as [-> _], Hb as [-> _]; by rewrite Hsame].
    destruct (playMove idx (App.engine a)) as [e' [s|err]] eqn:Hplay;
      [|cbn [fst]; rewrite Hnone; cbn [deliver foldl];
        destruct Ha as [-> _], Hb as [-> _]; by rewrite Hsame].
    cbn [fst].
    rewrite (sent_since_outgoing _ _ (App.MovePayload idx))
      by (done || by destruct a).
    cbn [deliver foldl App.handleIncomingPayload].
    rewrite applyMove_run, <-Hsame, Hplay. cbn [fst].
    split; [by destruct a, b|]. split; [by destruct a, b|].
    apply (sent_since_app _ _ []). destruct b; simpl. by rewrite !app_nil_r.
  - rewrite resetGame_run. cbn [fst andb].
    rewrite (bool_decide_eq_true_2 _ Hconnected).
    rewrite (sent_since_outgoing _ _ App.ResetPayload)
      by (done || by destruct a).
    cbn [deliver foldl App.handleIncomingPayload].
    rewrite resetGame_run. cbn [fst andb]. rewrite <-Hsame.
    split; [by destruct a, b|]. split; [by destruct a, b|].
    apply (sent_since_app _ _ []). destruct b; simpl. by rewrite !app_nil_r.
Qed.

(** The host clicks cell 4 and the guest receives the move. *)
Lemma a_local_action_reaches_the_other_side_witness :
  App.engine
    (deliver id "m1"
       (sent_since host_app (handle id (CellClick (Int 4)) host_app).1)
       guest_app)
  = App.engine (handle id (CellClick (Int 4)) host_app).1
  ∧ App.gameState
      (deliver id "m1"
         (sent_since host_app (handle id (CellClick (Int 4)) host_app).1)
         guest_app)
    = App.gameState (handle id (CellClick (Int 4)) host_app).1
  ∧ sent_since guest_app
      (deliver id "m1"
         (sent_since host_app (handle id (CellClick (Int 4)) host_app).1)
         guest_app)
    = [].
Proof.
  apply (a_local_action_reaches_the_other_side id "m1" (CellClick (Int 4))
           host_app guest_app).
  - left. by exists (Int 4).
  - apply published_in_session, sized_fresh3.
  - apply published_in_session, sized_fresh3.
  - reflexivity.
  - reflexivity.
  - reflexivity.
Defined.

Lemma connection_on_open_run (trim : string → string) (a : App.App) :
  App.connection_on_open trim true a
  = (App.set_effects
       (App.effects a ++ outgoing a (App.JoinPayload (trim (App.username a))))
       (App.set_errorMessage None
          (App.set_infoMessage (Some "Peers connected. Have fun!"%string)
             (App.set_connectionState App.connected a))), Return tt).
Proof.
  unfold App.connection_on_open, App.setError, bind, App.update, App.read, ret.
  cbn [fst snd]. rewrite sendPayload_run. by destruct a.
Qed.

Lemma join_payload_run (trim : string → string) (id name : string)
    (a : App.App) :
  App.handleIncomingPayload trim id (App.JoinPayload name) a
  = (App.set_effects
       (App.effects a
          ++ outgoing a (App.HostReadyPayload (trim (App.username a)) O
                           (snapshot (App.engine a))))
       (App.set_infoMessage (Some (name +:+ " joined your lobby."))%string
          (App.set_opponentName name a)), Return tt).
Proof.
  cbn [App.handleIncomingPayload].
  unfold bind, App.update, App.read, App.call_engine. cbn [fst snd].
  replace (getSnapshot (App.engine _))
    with (App.engine a, Return (snapshot (App.engine a)))
    by (by destruct a as [[n t s]]).
  rewrite sendPayload_run. by destruct a as [[n t s]].
Qed.

Lemma sendChatMessage_run (trim : string → string) (id : string) (now : Z)
    (a : App.App) :
  App.sendChatMessage trim id now a
  = if bool_decide (App.connectionState a = App.connected)
       && App.truthy (trim (App.chatInput a))
    then (App.set_effects
            (App.effects a
               ++ outgoing a (App.ChatPayload (trim (App.chatInput a))
                                (trim (App.username a)) now))
            (App.set_chatInput ""%string
               (App.set_chatMessages
                  (App.chatMessages a ++ [written trim id now App.sender_self a])
                  a)), Return tt)
    else (a, Return tt).
Proof.
  unfold App.sendChatMessage, App.appendChatMessage, bind, App.read,
    App.update. cbn [fst snd].
  destruct (decide (App.connectionState a = App.connected)) as [Hc|Hc].
  2: { rewrite (bool_decide_eq_true_2 (_ ≠ _)) by done.
       by rewrite (bool_decide_eq_false_2 (_ = _)) by done. }
  rewrite (bool_decide_eq_false_2 (_ ≠ _)) by (by intros H; apply H).
  rewrite (bool_decide_eq_true_2 (_ = _)) by done. cbn [andb].
  destruct (App.truthy (trim (App.chatInput a))); cbn [negb]; [|done].
  rewrite sendPayload_run. by destruct a.
Qed.

(** X22.  A joiner and a host, each with its gameState the snapshot of its 3 x 3
    engine and an open connection: when the joiner's connection opens, the host
    receives what the joiner sent and the joiner receives what the host
    answered, then the joiner's engine is in the host's state and publishes the
    host's gameState, the joiner is connected and plays O, each side has the
    other's trimmed username as opponent name, and the host's engine and
    gameState are unchanged. *)
Theorem the_joiner_adopts_the_game_of_the_host (trim : string → string)
    (id : string) (host joiner : App.App)
    (Hhost : published host) (Hjoiner : published joiner)
    (Hopen_host : can_send host = true)
    (Hopen_joiner : can_send joiner = true) :
  App.engine (join_handshake trim id host joiner).2 = App.engine host
  ∧ App.gameState (join_handshake trim id host joiner).2 = App.gameState host
  ∧ App.localPlayer (join_handshake trim id host joiner).2 = Some O
  ∧ App.connectionState (join_handshake trim id host joiner).2 = App.connected
  ∧ App.opponentName (join_handshake trim id host joiner).2
    = trim (App.username host)
  ∧ App.opponentName (join_handshake trim id host joiner).1
    = trim (App.username joiner)
  ∧ App.engine (join_handshake trim id host joiner).1 = App.engine host
  ∧ App.gameState (join_handshake trim id host joiner).1 = App.gameState host.
Proof.
  unfold join_handshake. rewrite connection_on_open_run. cbn [fst snd].
  rewrite (sent_since_outgoing joiner _
             (App.JoinPayload (trim (App.username joiner))))
    by (done || by destruct joiner).
  cbn [deliver foldl]. rewrite join_payload_run. cbn [fst].
  rewrite (sent_since_outgoing host _
             (App.HostReadyPayload (trim (App.username host)) O
                (snapshot (App.engine host))))
    by (done || by destruct host).
  cbn [deliver foldl App.handleIncomingPayload].
  unfold bind, App.update, App.call_engine; cbn [fst snd].
  rewrite loadSnapshot_outcome.
  destruct Hhost as [Hgame Hsized]. pose proof Hsized as (_ & Ht & Hlen).
  destruct Hjoiner as [_ (Hn' & Ht' & _)].
  rewrite bool_decide_eq_false_2
    by (intros H; apply H; destruct joiner; simpl in *; lia).
  destruct Hsized as (Hn & _ & _).
  destruct joiner as [[n t s]], host as [[hn ht hs]]; simpl in *.
  subst. by repeat match goal with |- _ ∧ _ => split end.
Qed.

(** A guest joins a host whose game has one move. *)
Lemma the_joiner_adopts_the_game_of_the_host_witness :
  App.engine (join_handshake id "m1" host_lobby guest_joining).2
  = App.engine host_lobby
  ∧ App.gameState (join_handshake id "m1" host_lobby guest_joining).2
    = App.gameState host_lobby
  ∧ App.localPlayer (join_handshake id "m1" host_lobby guest_joining).2 = Some O
  ∧ App.connectionState (join_handshake id "m1" host_lobby guest_joining).2
    = App.connected
  ∧ App.opponentName (join_handshake id "m1" host_lobby guest_joining).2
    = id (App.username host_lobby)
  ∧ App.opponentName (join_handshake id "m1" host_lobby guest_joining).1
    = id (App.username guest_joining)
  ∧ App.engine (join_handshake id "m1" host_lobby guest_joining).1
    = App.engine host_lobby
  ∧ App.gameState (join_handshake id "m1" host_lobby guest_joining).1
    = App.gameState host_lobby.
Proof.
  apply (the_joiner_adopts_the_game_of_the_host id "m1" host_lobby
           guest_joining).
  - apply published_in_session, sized_after_x0.
  - split; [reflexivity|apply sized_fresh3].
  - reflexivity.
  - reflexivity.
Defined.

(** X23.  When a connected component with an open connection sends a chat
    message whose trimmed input is not empty, it appends to its chat messages a
    message of sender 'self' with its trimmed username, the trimmed text and the
    time, and clears the input; a component receiving the payload appends a
    message of sender 'peer' with the same username, text and time. *)
Theorem a_chat_message_reaches_the_other_side (trim : string → string)
    (id id' : string) (now : Z) (a b : App.App)
    (Hconnected : App.connectionState a = App.connected)
    (Htext : trim (App.chatInput a) ≠ ""%string)
    (Hopen : can_send a = true) :
  App.chatMessages (App.sendChatMessage trim id now a).1
  = App.chatMessages a ++ [written trim id now App.sender_self a]
  ∧ App.chatInput (App.sendChatMessage trim id now a).1 = ""%string
  ∧ App.chatMessages
      (deliver trim id'
         (sent_since a (App.sendChatMessage trim id now a).1) b)
    = App.chatMessages b ++ [written trim id' now App.sender_peer a].
Proof.
  rewrite sendChatMessage_run. unfold App.truthy.
  rewrite !bool_decide_eq_true_2 by done. cbn [andb fst].
  rewrite (sent_since_outgoing _ _
             (App.ChatPayload (trim (App.chatInput a)) (trim (App.username a))
                now)) by (done || by destruct a).
  cbn [deliver foldl App.handleIncomingPayload].
  split; [by destruct a|]. split; [by destruct a|]. by destruct b.
Qed.

(** The host has typed hello. *)
Lemma a_chat_message_reaches_the_other_side_witness :
  App.chatMessages (App.sendChatMessage id "m1" 1000 host_typing).1
  = App.chatMessages host_typing
    ++ [written id "m1" 1000 App.sender_self host_typing]
  ∧ App.chatInput (App.sendChatMessage id "m1" 1000 host_typing).1 = ""%string
  ∧ App.chatMessages
      (deliver id "m2"
         (sent_since host_typing
            (App.sendChatMessage id "m1" 1000 host_typing).1) guest_app)
    = App.chatMessages guest_app
      ++ [written id "m2" 1000 App.sender_peer host_typing].
Proof.
  apply (a_chat_message_reaches_the_other_side id "m1" "m2" 1000 host_typing
           guest_app).
  - reflexivity.
  - by vm_compute.
  - reflexivity.
Defined.

Lemma isPlayersTurn_run (a : App.App) :
  App.isPlayersTurn a
  = (a, Return (bool_decide (App.connectionState a = App.connected)
                && bool_decide (status (App.gameState a) = InProgress)
                && bool_decide (App.localPlayer a
                                = Some (currentPlayer (App.gameState a))))).
Proof.
  unfold App.isPlayersTurn, bind, App.read, ret; cbn [fst snd].
  do 2 f_equal. rewrite <-andb_assoc. f_equal.
  destruct (App.localPlayer a) as [p|].
  - rewrite (bool_decide_eq_true_2 (Some p ≠ None)) by done. cbn [andb].
    apply bool_decide_ext. split; congruence.
  - by rewrite (bool_decide_eq_false_2 (None ≠ None)) by (by intros H; apply H).
Qed.

(** X24.  canPlayCell(index) returns true exactly when isPlayersTurn() returns
    true and the cell of the published board at that index is null (an index
    that names no cell reads undefined, which is not null); none of canPlayCell,
    isPlayersTurn and connectionReady changes the component, and when
    isPlayersTurn() returns true so does connectionReady(). *)
Theorem canPlayCell_is_the_turn_and_an_empty_cell (idx : number) (a : App.App) :
  ∃ turn ready,
    App.isPlayersTurn a = (a, Return turn)
    ∧ App.connectionReady a = (a, Return ready)
    ∧ App.canPlayCell idx a
      = (a, Return (turn && bool_decide (element_at (board (App.gameState a)) idx
                                         = Some None)))
    ∧ (turn = true → ready = true).
Proof.
  eexists _, _. split; [apply isPlayersTurn_run|]. split; [reflexivity|].
  split.
  - rewrite canPlayCell_run. do 2 f_equal.
    destruct (bool_decide (status _ = _)), (bool_decide (element_at _ _ = _)),
      (bool_decide (App.connectionState _ = _)), (bool_decide (App.localPlayer _ = _));
      reflexivity.
  - intros Hturn. apply andb_true_iff in Hturn as [Hturn _].
    by apply andb_true_iff in Hturn as [Hturn _].
Qed.

(** X25.  When two components publish the same gameState and have different
    local players, and canPlayCell returns true on the first one for some index,
    then on the second one canPlayCell returns false for every index and
    handleCellClick changes nothing and sends nothing. *)
Theorem one_side_plays_at_a_time (idx idx' : number) (a b : App.App)
    (Hstate : App.gameState a = App.gameState b)
    (Hmarks : App.localPlayer a ≠ App.localPlayer b)
    (Hturn : App.canPlayCell idx a = (a, Return true)) :
  App.canPlayCell idx' b = (b, Return false)
  ∧ App.handleCellClick idx' b = (b, Return tt).
Proof.
  assert (App.canPlayCell idx' b = (b, Return false)) as Hno.
  { rewrite canPlayCell_run in Hturn |- *. injection Hturn as Hturn.
    apply andb_true_iff in Hturn as [_ Hmine%bool_decide_eq_true].
    rewrite (bool_decide_eq_false_2 (App.localPlayer b = _))
      by (rewrite <-Hstate, <-Hmine; congruence).
    by rewrite andb_false_r. }
  split; [exact Hno|]. unfold App.handleCellClick, bind. by rewrite Hno.
Qed.

(** The guest, playing O, clicks cell 4 while it is X's turn. *)
Lemma one_side_plays_at_a_time_witness :
  App.canPlayCell (Int 4) guest_app = (guest_app, Return false)
  ∧ App.handleCellClick (Int 4) guest_app = (guest_app, Return tt).
Proof.
  apply (one_side_plays_at_a_time (Int 0) (Int 4) host_app guest_app).
  - reflexivity.
  - by vm_compute.
  - by vm_compute.
Defined.
